(** * SpotifyWellness: the aggregation engine and the task bodies

    A shallow embedding of [tasks/spotify_tasks.py],
    [tasks/insight_tasks.py] and [tasks/scheduled_tasks.py], of the
    endpoints of [main.py] that start the tasks or read their results, and
    of the cache of [redis_config.py].

    Numbers.  A Python float is modelled by the number it denotes: a
    rational ([Q]) wherever the source only adds, divides, compares and
    rounds, and a real ([R]) where it calls [math.log2] or takes the square
    root inside [statistics.stdev].  A decimal literal such as [0.6] stands
    for its exact decimal value.  Binary64 rounding is modelled where it
    decides a stored digit: a count divided by a total is the [float]
    nearest to the quotient before [round(x, 3)] rounds it.  Elsewhere the
    error of an operation, an ulp, is not modelled.

    Exceptions.  A Python operation that can raise returns [option]: [None]
    is the raised exception.  The task bodies, which catch and re-raise,
    use an explicit result type instead. *)

From Stdlib Require Import List String Ascii Bool Arith ZArith Lia.
From Stdlib Require Import QArith Qround Qpower Qminmax Qreals.
From Stdlib Require Import Reals Psatz.
From Stdlib Require Import Sorted Permutation.
Import ListNotations.

Local Open Scope string_scope.
Local Open Scope Q_scope.

(** ** Python dictionaries

    A [dict] keeps its keys in insertion order; assigning to a key that is
    present updates the entry where it stands. *)

Module Dict.

Definition dict (V : Type) : Type := list (string * V).

Fixpoint get {V} (d : dict V) (k : string) : option V :=
  match d with
  | [] => None
  | (k', v) :: d' => if String.eqb k' k then Some v else get d' k
  end.

Definition get_default {V} (d : dict V) (k : string) (dflt : V) : V :=
  match get d k with Some v => v | None => dflt end.

Fixpoint set {V} (d : dict V) (k : string) (v : V) : dict V :=
  match d with
  | [] => [(k, v)]
  | (k', v') :: d' =>
      if String.eqb k' k then (k', v) :: d' else (k', v') :: set d' k v
  end.

Definition values {V} (d : dict V) : list V := map snd d.

End Dict.
Import Dict.

(** ** The option monad for operations that may raise *)

Definition bind {A B} (m : option A) (k : A -> option B) : option B :=
  match m with Some a => k a | None => None end.

Notation "x <- m ;; k" := (bind m (fun x => k))
  (at level 61, m at next level, right associativity).

(** ** Numeric primitives *)

Definition Qltb (a b : Q) : bool := negb (Qle_bool b a).

(** Round to the nearest integer, ties to the even one. *)
Definition round_half_even (x : Q) : Z :=
  let f := Qfloor x in
  match Qcompare (x - inject_Z f) (1 # 2) with
  | Lt => f
  | Gt => (f + 1)%Z
  | Eq => if Z.even f then f else (f + 1)%Z
  end.

(** [round(x, 3)]. The result is kept in lowest terms, so that equal
    results are equal terms. *)
Definition round3 (x : Q) : Q :=
  Qred (inject_Z (round_half_even (x * 1000)) / 1000).

(** The exponent of a positive number: the integer [e] with
    [2^e <= q < 2^(e+1)]. *)
Definition ilog2 (q : Q) : Z :=
  let d := (Z.log2 (Qnum q) - Z.log2 (Zpos (Qden q)))%Z in
  if Qle_bool (2 ^ d) q then d else (d - 1)%Z.

(** The multiple of [2^(e-52)] nearest to a positive [q] of exponent [e],
    ties to the even multiple: a significand of 53 bits. *)
Definition nearest64 (q : Q) : Q :=
  let e := ilog2 q in
  inject_Z (round_half_even (q * 2 ^ (52 - e))) * 2 ^ (e - 52).

(** The [float] nearest to a number, in the normal range of binary64. *)
Definition binary64 (q : Q) : Q :=
  let q := Qred q in
  match Qnum q with
  | Z0 => 0
  | Zpos _ => Qred (nearest64 q)
  | Zneg _ => Qred (- nearest64 (- q))
  end.

(** [a / b] on two [int]s: [ZeroDivisionError] when [b] is zero, else the
    [float] nearest to the quotient, which is what [round(a / b, 3)]
    then rounds. *)
Definition float_div (a b : Q) : option Q :=
  if Qeq_bool b 0 then None else Some (binary64 (a / b)).

#[global] Arguments binary64 : simpl never.

(** The same rounding on a real argument. *)
Definition Rround_half_even (x : R) : Z :=
  let f := Zfloor x in
  if Rlt_dec (x - IZR f) (1 / 2) then f
  else if Rlt_dec (1 / 2) (x - IZR f) then (f + 1)%Z
  else if Z.even f then f else (f + 1)%Z.

Definition Rround3 (x : R) : R :=
  (IZR (Rround_half_even (x * 1000)) / 1000)%R.

(** [math.log2]: [ValueError] outside the positive numbers. *)
Definition math_log2 (x : R) : option R :=
  if Rlt_dec 0 x then Some (ln x / ln 2)%R else None.

Definition Qsum (l : list Q) : Q := fold_right Qplus 0 l.

(** [min] and [max] of a list: [ValueError] on the empty list. *)
Definition py_min (l : list Q) : option Q :=
  match l with
  | [] => None
  | x :: t => Some (fold_left Qmin t x)
  end.

Definition py_max (l : list Q) : option Q :=
  match l with
  | [] => None
  | x :: t => Some (fold_left Qmax t x)
  end.

(** [statistics.mean]: the exact mean; [StatisticsError] on no data. *)
Definition statistics_mean (l : list Q) : option Q :=
  match l with
  | [] => None
  | _ => Some (Qsum l / inject_Z (Z.of_nat (List.length l)))
  end.

(** [statistics.stdev]: the square root of the sample variance;
    [StatisticsError] on fewer than two data points. *)
Definition statistics_stdev (l : list Q) : option R :=
  match l with
  | [] | [_] => None
  | _ =>
      let n := inject_Z (Z.of_nat (List.length l)) in
      let m := Qsum l / n in
      let ss := Qsum (map (fun x => (x - m) * (x - m)) l) in
      Some (sqrt (Q2R (ss / (n - 1))))
  end.

(** ** Aggregation engine *)

Module Aggregation.

(** One track's audio features as Spotify returns them: a dictionary
    from feature name to number, any key possibly absent. *)
Definition Features : Type := dict Q.

(** An artist object.  Only ["genres"] is read by the engine; it is
    [None] when the key is absent. *)
Record Artist : Type := mkArtist {
  artist_id : string;
  artist_genres : option (list string)
}.

Definition features_to_analyze : list string :=
  ["valence"; "energy"; "danceability"; "acousticness";
   "instrumentalness"; "speechiness"; "tempo"; "loudness"].

(** [[f[feature] for f in audio_features if feature in f]] *)
Definition feature_values (feature : string) (audio_features : list Features)
  : list Q :=
  flat_map (fun f => match get f feature with
                     | Some v => [v]
                     | None => []
                     end) audio_features.

(** The body of the loop over [features_to_analyze]. *)
Definition stats_step (audio_features : list Features)
    (stats : dict R) (feature : string) : option (dict R) :=
  let values := feature_values feature audio_features in
  match values with
  | [] => Some stats
  | _ =>
      m <- statistics_mean values ;;
      let stats := set stats ("avg_" ++ feature) (Q2R m) in
      s <- (if (1 <? List.length values)%nat
            then statistics_stdev values else Some 0%R) ;;
      let stats := set stats ("std_" ++ feature) s in
      lo <- py_min values ;;
      let stats := set stats ("min_" ++ feature) (Q2R lo) in
      hi <- py_max values ;;
      let stats := set stats ("max_" ++ feature) (Q2R hi) in
      Some stats
  end.

Fixpoint stats_loop (audio_features : list Features)
    (features : list string) (stats : dict R) : option (dict R) :=
  match features with
  | [] => Some stats
  | feature :: rest =>
      stats' <- stats_step audio_features stats feature ;;
      stats_loop audio_features rest stats'
  end.

Definition calculate_audio_feature_stats (audio_features : list Features)
  : option (dict R) :=
  match audio_features with
  | [] => Some []
  | _ => stats_loop audio_features features_to_analyze []
  end.

(** [artist.get("genres", [])] *)
Definition genres_of (artist : Artist) : list string :=
  match artist_genres artist with Some g => g | None => [] end.

Definition count_genre (acc : dict nat * nat) (genre : string)
  : dict nat * nat :=
  let '(genre_counts, total_genres) := acc in
  (set genre_counts genre (get_default genre_counts genre 0%nat + 1)%nat,
   (total_genres + 1)%nat).

Definition count_genres (artists : list Artist) : dict nat * nat :=
  fold_left (fun acc artist => fold_left count_genre (genres_of artist) acc)
            artists ([], 0%nat).

Definition Qnat (n : nat) : Q := inject_Z (Z.of_nat n).

(** The dictionary comprehension
    [{genre: round(count / total_genres, 3) for ...}]. *)
Fixpoint normalize (genre_counts : dict nat) (total_genres : nat)
  : option (dict Q) :=
  match genre_counts with
  | [] => Some []
  | (genre, count) :: rest =>
      p <- float_div (Qnat count) (Qnat total_genres) ;;
      rest' <- normalize rest total_genres ;;
      Some ((genre, round3 p) :: rest')
  end.

(** [sorted(items, key=lambda x: x[1], reverse=True)]: a stable sort by
    decreasing value; entries of equal value keep their order. *)
Fixpoint insert_desc (x : string * Q) (l : list (string * Q))
  : list (string * Q) :=
  match l with
  | [] => [x]
  | y :: l' =>
      if Qltb (snd x) (snd y) then y :: insert_desc x l' else x :: y :: l'
  end.

Definition sorted_desc (l : list (string * Q)) : list (string * Q) :=
  fold_right insert_desc [] l.

Definition extract_genre_distribution (artists : list Artist)
  : option (dict Q) :=
  let '(genre_counts, total_genres) := count_genres artists in
  if (total_genres =? 0)%nat then Some []
  else
    genre_distribution <- normalize genre_counts total_genres ;;
    Some (firstn 10 (sorted_desc genre_distribution)).

(** The six counters, in the order of the source's literal. *)
Definition mood_counts0 : dict nat :=
  [("happy", 0); ("sad", 0); ("energetic", 0);
   ("calm", 0); ("focused", 0); ("other", 0)]%nat.

(** [mood_counts[mood] += 1]; the six keys are present from the start. *)
Definition incr (mood_counts : dict nat) (mood : string) : dict nat :=
  set mood_counts mood (get_default mood_counts mood 0%nat + 1)%nat.

(** The body of the loop over the tracks. *)
Definition classify (mood_counts : dict nat) (features : Features)
  : dict nat :=
  let valence := get_default features "valence" (1 # 2) in
  let energy := get_default features "energy" (1 # 2) in
  let danceability := get_default features "danceability" (1 # 2) in
  let acousticness := get_default features "acousticness" (1 # 2) in
  let speechiness := get_default features "speechiness" (1 # 2) in
  let categorized := false in
  let '(mood_counts, categorized) :=
    if Qltb (6 # 10) valence && Qltb (6 # 10) energy
    then (incr mood_counts "happy", true)
    else if Qltb valence (4 # 10) && Qltb energy (5 # 10)
    then (incr mood_counts "sad", true)
    else (mood_counts, categorized) in
  let '(mood_counts, categorized) :=
    if Qltb (7 # 10) energy && Qltb (6 # 10) danceability
    then (incr mood_counts "energetic", true)
    else if Qltb energy (4 # 10) && Qltb (5 # 10) acousticness
    then (incr mood_counts "calm", true)
    else (mood_counts, categorized) in
  let '(mood_counts, categorized) :=
    if Qltb speechiness (3 # 10)
       && (Qle_bool (3 # 10) energy && Qle_bool energy (7 # 10))
    then (incr mood_counts "focused", true)
    else (mood_counts, categorized) in
  if negb categorized then incr mood_counts "other" else mood_counts.

Record MoodEntry : Type := mkMoodEntry {
  percentage : Q;
  track_count : nat
}.

(** The comprehension that keeps the moods with a positive count. *)
Fixpoint to_patterns (mood_counts : dict nat) (total_tracks : nat)
  : option (dict MoodEntry) :=
  match mood_counts with
  | [] => Some []
  | (mood, count) :: rest =>
      if (0 <? count)%nat then
        p <- float_div (Qnat count) (Qnat total_tracks) ;;
        rest' <- to_patterns rest total_tracks ;;
        Some ((mood, mkMoodEntry (round3 p) count) :: rest')
      else to_patterns rest total_tracks
  end.

Definition calculate_mood_patterns (audio_features : list Features)
  : option (dict MoodEntry) :=
  let mood_counts := fold_left classify audio_features mood_counts0 in
  let total_tracks := List.length audio_features in
  if (total_tracks =? 0)%nat then Some []
  else to_patterns mood_counts total_tracks.

Record DiversityScores : Type := mkScores {
  artist_diversity_score : Q;
  mood_diversity_score : R
}.

(** The loop body [if percentage > 0: genre_entropy -= p * log2(p)]. *)
Definition entropy_step (genre_entropy : R) (percentage : Q) : option R :=
  if Qltb 0 percentage then
    l <- math_log2 (Q2R percentage) ;;
    Some (genre_entropy - Q2R percentage * l)%R
  else Some genre_entropy.

Fixpoint entropy_loop (percentages : list Q) (genre_entropy : R)
  : option R :=
  match percentages with
  | [] => Some genre_entropy
  | p :: rest =>
      e <- entropy_step genre_entropy p ;;
      entropy_loop rest e
  end.

Definition calculate_diversity_scores (artists : list Artist)
    (genres : dict Q) : option DiversityScores :=
  let artist_diversity := Qmin (Qnat (List.length artists) / 50) 1 in
  genre_entropy <- match genres with
                   | [] => Some 0%R
                   | _ => entropy_loop (values genres) 0%R
                   end ;;
  let mood_diversity :=
    if Rlt_dec 0 genre_entropy
    then Rmin (genre_entropy / (332 / 100)) 1
    else 0%R in
  Some (mkScores (round3 artist_diversity) (Rround3 mood_diversity)).

End Aggregation.

(** ** The stored rows *)

Module Store.
Import Aggregation.

(** A parsed [uuid.UUID]. *)
Definition UUID : Type := string.

Definition is_hex (c : ascii) : bool :=
  let n := nat_of_ascii c in
  ((48 <=? n) && (n <=? 57) || (97 <=? n) && (n <=? 102)
   || (65 <=? n) && (n <=? 70))%nat%bool.

Definition lower (c : ascii) : ascii :=
  let n := nat_of_ascii c in
  if ((65 <=? n) && (n <=? 70))%nat%bool then ascii_of_nat (n + 32) else c.

(** [s.replace('-', '')], in lower case. *)
Fixpoint hex_digits (s : string) : string :=
  match s with
  | EmptyString => EmptyString
  | String c s' =>
      if Ascii.eqb c "-" then hex_digits s'
      else String (lower c) (hex_digits s')
  end.

Fixpoint all_hex (s : string) : bool :=
  match s with
  | EmptyString => true
  | String c s' => is_hex c && all_hex s'
  end.

(** [uuid.UUID(s)] on the spellings made of 32 hexadecimal digits, in
    either case, with hyphens anywhere; the value is the canonical
    spelling [str] gives back.  [None] is [ValueError].  ([uuid.UUID]
    also strips a [urn:uuid:] prefix and braces, which no example uses.) *)
Definition UUID_of (s : string) : option UUID :=
  let hex := hex_digits s in
  if ((String.length hex =? 32)%nat && all_hex hex)%bool then
    Some (substring 0 8 hex ++ "-" ++ substring 8 4 hex ++ "-"
          ++ substring 12 4 hex ++ "-" ++ substring 16 4 hex ++ "-"
          ++ substring 20 12 hex)
  else None.

Inductive TimeRange : Type := SHORT_TERM | MEDIUM_TERM | LONG_TERM.

(** [TimeRange(time_range)]: [ValueError] on any other string. *)
Definition TimeRange_of (s : string) : option TimeRange :=
  if String.eqb s "short_term" then Some SHORT_TERM
  else if String.eqb s "medium_term" then Some MEDIUM_TERM
  else if String.eqb s "long_term" then Some LONG_TERM
  else None.

Inductive InsightType : Type := ROAST | WELLNESS | PRODUCTIVITY.

(** The values of [BackgroundJob.status]. *)
Inductive JobStatus : Type := pending | running | success | failed.

Record SpotifyToken : Type := mkToken {
  token_user_id : UUID;
  access_token : string;
  refresh_token : string;
  expires_at : nat
}.

Record ListeningSnapshot : Type := mkSnapshot {
  snapshot_id : UUID;
  snapshot_user_id : UUID;
  snapshot_date : nat;
  time_range : TimeRange;
  audio_features : dict R;
  genre_distribution : dict Q;
  mood_patterns : dict MoodEntry;
  snapshot_artist_diversity_score : Q;
  snapshot_mood_diversity_score : R;
  total_tracks_analyzed : nat
}.

Record GeneratedInsight : Type := mkInsight {
  insight_id : UUID;
  insight_user_id : UUID;
  insight_snapshot_id : UUID;
  insight_type : InsightType;
  llm_model : string;
  prompt_version : string;
  tone_mode : string;
  content : string;
  structured_output : string;
  generation_time_ms : nat
}.

(** The [result] payload a task stores on its job. *)
Inductive JobResult : Type :=
| SnapshotResult (snapshot : UUID) (tracks_analyzed artists_analyzed : nat)
| InsightResult (insight : UUID) (generation_time : nat).

Record BackgroundJob : Type := mkJob {
  job_id : UUID;
  job_type : string;
  celery_task_id : string;
  job_user_id : option UUID;
  status : JobStatus;
  params : list (string * string);
  result : option JobResult;
  error_message : option string;
  started_at : option nat;
  completed_at : option nat
}.

Record Db : Type := mkDb {
  tokens : list SpotifyToken;
  snapshots : list ListeningSnapshot;
  insights : list GeneratedInsight;
  jobs : list BackgroundJob
}.

(** [db.query(SpotifyToken).filter(user_id == u).first()] *)
Definition query_token (db : Db) (u : UUID) : option SpotifyToken :=
  find (fun t => String.eqb (token_user_id t) u) (tokens db).

(** [db.query(ListeningSnapshot).filter(id == s).first()] *)
Definition query_snapshot (db : Db) (s : UUID) : option ListeningSnapshot :=
  find (fun x => String.eqb (snapshot_id x) s) (snapshots db).

(** The row of a job, by primary key. *)
Definition query_job (db : Db) (id : UUID) : option BackgroundJob :=
  find (fun j => String.eqb (job_id j) id) (jobs db).

(** What one [db.commit()] or cache call of a task body does. *)
Inductive Effect : Type :=
| CommitJob (job : BackgroundJob)
| CommitToken (token : SpotifyToken)
| CommitSnapshot (snapshot : ListeningSnapshot)
| CommitInsight (insight : GeneratedInsight)
| CacheDelete (key : string)
| DbClose.

(** Writing a job the session holds: the row of that key is replaced, or
    the job is added.  A task adds a job only after the table has
    accepted it (unique [celery_task_id], known user). *)
Fixpoint upsert_job (j : BackgroundJob) (l : list BackgroundJob)
  : list BackgroundJob :=
  match l with
  | [] => [j]
  | j' :: l' =>
      if String.eqb (job_id j') (job_id j) then j :: l'
      else j' :: upsert_job j l'
  end.

Definition replace_token (t : SpotifyToken) (l : list SpotifyToken)
  : list SpotifyToken :=
  map (fun t' => if String.eqb (token_user_id t') (token_user_id t)
                 then t else t') l.

Definition apply_effect (db : Db) (ef : Effect) : Db :=
  match ef with
  | CommitJob j =>
      mkDb (tokens db) (snapshots db) (insights db) (upsert_job j (jobs db))
  | CommitToken t =>
      mkDb (replace_token t (tokens db)) (snapshots db) (insights db) (jobs db)
  | CommitSnapshot s =>
      mkDb (tokens db) (snapshots db ++ [s]) (insights db) (jobs db)
  | CommitInsight i =>
      mkDb (tokens db) (snapshots db) (insights db ++ [i]) (jobs db)
  | CacheDelete _ | DbClose => db
  end.

Definition apply_effects (db : Db) (tr : list Effect) : Db :=
  fold_left apply_effect tr db.

(** The successive values of the status column written by a run. *)
Definition job_statuses (tr : list Effect) : list JobStatus :=
  flat_map (fun ef => match ef with
                      | CommitJob j => [status j]
                      | _ => []
                      end) tr.

Definition job_commits (tr : list Effect) : list BackgroundJob :=
  flat_map (fun ef => match ef with
                      | CommitJob j => [j]
                      | _ => []
                      end) tr.

Definition insight_commits (tr : list Effect) : list GeneratedInsight :=
  flat_map (fun ef => match ef with
                      | CommitInsight i => [i]
                      | _ => []
                      end) tr.

End Store.

(** ** Exceptions and the retry policy of the task classes *)

Module Celery.

Inductive ExcClass : Type :=
| Exception
| ValueError
| TypeError
| LibraryError (name : string).

Record PyExc : Type := mkExc { exc_class : ExcClass; exc_msg : string }.

(** Every class above derives from [Exception]. *)
Definition issubclass (c parent : ExcClass) : bool :=
  match parent, c with
  | Exception, _ => true
  | ValueError, ValueError => true
  | TypeError, TypeError => true
  | LibraryError p, LibraryError n => String.eqb p n
  | _, _ => false
  end.

(** The attributes a [celery.Task] subclass sets. *)
Record TaskClass : Type := mkTaskClass {
  autoretry_for : list ExcClass;
  max_retries : nat;
  countdown : nat;
  retry_backoff : bool
}.

(** [class SpotifyTask(Task)] *)
Definition SpotifyTask : TaskClass := mkTaskClass [Exception] 3 60 true.


(** Celery's handling of an exception that leaves the task body on the
    attempt numbered [retries] (0 for the first): the task is sent again
    when the exception is an instance of a class listed in
    [autoretry_for] and the retry budget is not used up. *)
Definition retried (cls : TaskClass) (e : PyExc) (retries : nat) : bool :=
  existsb (issubclass (exc_class e)) (autoretry_for cls)
  && (retries <? max_retries cls)%nat.

End Celery.

(** ** The task bodies

    A task body runs against a [World]: the rows it reads and what each
    call to an external collaborator answers.  It yields the effects it
    committed, in order, and either a returned value or the exception that
    left the body.  The table can refuse the insert of the job; the other
    writes to the store are taken to succeed. *)

Module Tasks.
Import Aggregation Store Celery.

Inductive Result (A : Type) : Type :=
| Return (a : A)
| Raise (e : PyExc).
Arguments Return {A} a.
Arguments Raise {A} e.

(** The local variable [job]: [None] until it is bound, which is what
    ['job' in locals()] tests, and whether the session holds its row. *)
Record Locals : Type := mkLocals {
  l_job : option BackgroundJob;
  l_in_session : bool
}.

Definition Task (A : Type) : Type :=
  Locals -> list Effect * Locals * Result A.

Definition ret {A} (a : A) : Task A := fun l => ([], l, Return a).
Definition raise {A} (e : PyExc) : Task A := fun l => ([], l, Raise e).

Definition tbind {A B} (m : Task A) (k : A -> Task B) : Task B :=
  fun l =>
    match m l with
    | (tr, l', Return a) =>
        let '(tr', l'', r) := k a l' in ((tr ++ tr')%list, l'', r)
    | (tr, l', Raise e) => (tr, l', Raise e)
    end.

Notation "x <-- m ;; k" := (tbind m (fun x => k))
  (at level 61, m at next level, right associativity).
Notation "m ;;; k" := (tbind m (fun _ => k))
  (at level 61, right associativity).

Definition emit (ef : Effect) : Task unit := fun l => ([ef], l, Return tt).
Definition get_job : Task (option BackgroundJob) :=
  fun l => ([], l, Return (l_job l)).

(** [job = BackgroundJob(...)] *)
Definition set_job (j : BackgroundJob) : Task unit :=
  fun _ => ([], mkLocals (Some j) false, Return tt).

(** A [db.commit()] after the insert: it writes the job when the session
    holds its row. *)
Definition commit_job : Task unit :=
  fun l => match l_job l with
           | Some j =>
               if l_in_session l then ([CommitJob j], l, Return tt)
               else ([], l, Return tt)
           | None => ([], l, Return tt)
           end.

(** [try: body except Exception as e: handler(e)] *)
Definition try_except {A} (body : Task A) (handler : PyExc -> Task A)
  : Task A :=
  fun l =>
    match body l with
    | (tr, l', Raise e) =>
        let '(tr', l'', r) := handler e l' in ((tr ++ tr')%list, l'', r)
    | done => done
    end.

(** [try: body finally: cleanup] *)
Definition try_finally {A} (body : Task A) (cleanup : Task unit) : Task A :=
  fun l =>
    let '(tr, l', r) := body l in
    match cleanup l' with
    | (tr', l'', Return _) => ((tr ++ tr')%list, l'', r)
    | (tr', l'', Raise e) => ((tr ++ tr')%list, l'', Raise e)
    end.

Definition run {A} (t : Task A) : list Effect * Result A :=
  let '(tr, _, r) := t (mkLocals None false) in (tr, r).

Definition call {A} (r : Result A) : Task A :=
  match r with Return a => ret a | Raise e => raise e end.

Definition call_opt {A} (o : option A) (e : PyExc) : Task A :=
  match o with Some a => ret a | None => raise e end.

Record Track : Type := mkTrack { track_id : string }.

(** What the language model call yields once parsed and laid out: the
    narrative text and the structured record.  Rendering the snapshot into
    the prompt and assembling the narrative are part of this call. *)
Record Generated : Type := mkGenerated {
  gen_content : string;
  gen_structured : string
}.

Record World : Type := mkWorld {
  w_db : Db;
  w_request_id : string;            (* self.request.id *)
  w_now : nat;                      (* datetime.now() *)
  w_uuid : string -> option UUID;   (* uuid.UUID(s); None: ValueError *)
  w_new_job_id : UUID;
  w_new_snapshot_id : UUID;
  w_new_insight_id : UUID;
  w_refresh : option SpotifyToken;  (* refresh_spotify_token(user_id, db) *)
  w_top_tracks : Result (list Track);
  w_top_artists : Result (list Artist);
  w_audio_features : Result (list Features);
  w_api_key : bool;                 (* OPENAI_API_KEY is set *)
  w_llm : Result Generated;         (* chain.invoke(...) *)
  w_elapsed_ms : nat;
  w_users : list UUID;              (* the ids of the rows of users *)
  w_db_error : string;              (* the text of the database's refusal *)
  w_template_error : string         (* the text of the template parser's *)
}.

Definition bad_uuid : PyExc :=
  mkExc ValueError "badly formed hexadecimal UUID string".
Definition arithmetic_error : PyExc :=
  mkExc (LibraryError "ArithmeticError") "aggregation failed".
Definition bad_time_range (value : string) : PyExc :=
  mkExc ValueError ("'" ++ value ++ "' is not a valid TimeRange").
Definition no_api_key : PyExc :=
  mkExc ValueError "OPENAI_API_KEY not found in environment".
Definition integrity_error (w : World) : PyExc :=
  mkExc (LibraryError "IntegrityError") (w_db_error w).
Definition naive_aware_error : PyExc :=
  mkExc TypeError "can't compare offset-naive and offset-aware datetimes".

(** What the constraints of [background_jobs] ask of a new row: a primary
    key and a [celery_task_id] that no stored row has, and a [user_id]
    that is null or names a user. *)
Definition insertable (db : Db) (users : list UUID) (j : BackgroundJob)
  : bool :=
  negb (existsb (fun x => String.eqb (job_id x) (job_id j)
                          || String.eqb (celery_task_id x) (celery_task_id j))
                (jobs db))
  && match job_user_id j with
     | Some u => existsb (String.eqb u) users
     | None => true
     end.

(** [db.add(job); db.commit()].  When a constraint refuses the row, the
    commit rolls the session back and raises: [job] stays bound, but the
    session no longer holds it and nothing is stored. *)
Definition insert_job (w : World) : Task unit :=
  fun l => match l_job l with
           | Some j =>
               if insertable (w_db w) (w_users w) j
               then ([CommitJob j], mkLocals (Some j) true, Return tt)
               else ([], mkLocals (Some j) false, Raise (integrity_error w))
           | None => ([], l, Return tt)
           end.

(** [a <= b] for [a] read from a column declared
    [DateTime(timezone=True)], which carries a time zone, and [b] the
    naive [datetime.now()]: Python refuses to order the two. *)
Definition aware_le_naive (a b : nat) : Result bool :=
  Raise naive_aware_error.

(** Building the wellness prompt.  Its system message is an f-string that
    pastes the parser's format instructions, a JSON schema with its
    braces, into the template text; the template parser refuses it with
    a [ValueError], before any call to the model. *)
Definition wellness_prompt (w : World) : Result unit :=
  Raise (mkExc ValueError (w_template_error w)).

(** The roast prompt leaves the instructions to a template variable. *)
Definition roast_prompt : Result unit := Return tt.

(** The three assignments [job.status = "failed"],
    [job.error_message = msg], [job.completed_at = datetime.now()]. *)
Definition mark_failed (now : nat) (msg : string) (j : BackgroundJob)
  : BackgroundJob :=
  mkJob (job_id j) (job_type j) (celery_task_id j) (job_user_id j)
        failed (params j) (result j) (Some msg)
        (started_at j) (Some now).

(** [job.status = "success"], [job.completed_at = ...],
    [job.result = res]. *)
Definition mark_success (now : nat) (res : JobResult) (j : BackgroundJob)
  : BackgroundJob :=
  mkJob (job_id j) (job_type j) (celery_task_id j) (job_user_id j)
        success (params j) (Some res) (error_message j)
        (started_at j) (Some now).

Definition update_job (f : BackgroundJob -> BackgroundJob) : Task unit :=
  fun l => ([], mkLocals (option_map f (l_job l)) (l_in_session l),
            Return tt).

(** The [except Exception as e] clause shared by the tasks that keep a
    job: record the failure when [job] is bound, then re-raise. *)
Definition job_handler {A} (w : World) (e : PyExc) : Task A :=
  bound <-- get_job ;;
  match bound with
  | Some _ => update_job (mark_failed (w_now w) (exc_msg e)) ;;; commit_job
  | None => ret tt
  end ;;;
  raise e.

(** The guard that fails the job by hand before raising. *)
Definition fail_job {A} (w : World) (msg : string) : Task A :=
  update_job (mark_failed (w_now w) msg) ;;;
  commit_job ;;;
  raise (mkExc ValueError msg).

Record IngestResult : Type := mkIngestResult {
  ir_snapshot_id : UUID;
  ir_user_id : string;
  ir_time_range : string;
  ir_tracks_analyzed : nat;
  ir_artists_analyzed : nat
}.

Definition ingest_body (w : World) (user_id time_range : string)
  : Task IngestResult :=
  job_user <-- call_opt (w_uuid w user_id) bad_uuid ;;
  set_job (mkJob (w_new_job_id w) "ingest_listening_data" (w_request_id w)
                 (Some job_user) running [("time_range", time_range)]
                 None None (Some (w_now w)) None) ;;;
  insert_job w ;;;
  user_uuid <-- call_opt (w_uuid w user_id) bad_uuid ;;
  match query_token (w_db w) user_uuid with
  | None => fail_job w "No Spotify token found for user"
  | Some token_record =>
      expired <-- call (aware_le_naive (expires_at token_record) (w_now w)) ;;
      access <-- (if expired : bool then
                    match w_refresh w with
                    | None => fail_job w "Failed to refresh expired token"
                    | Some refreshed =>
                        emit (CommitToken refreshed) ;;;
                        if String.eqb (access_token refreshed) ""
                        then fail_job w "Failed to refresh expired token"
                        else ret (access_token refreshed)
                    end
                  else ret (access_token token_record)) ;;
      top_tracks <-- call (w_top_tracks w) ;;
      top_artists <-- call (w_top_artists w) ;;
      audio <-- call (w_audio_features w) ;;
      audio_stats <--
        call_opt (calculate_audio_feature_stats audio) arithmetic_error ;;
      genre_dist <--
        call_opt (extract_genre_distribution top_artists) arithmetic_error ;;
      moods <-- call_opt (calculate_mood_patterns audio) arithmetic_error ;;
      diversity <--
        call_opt (calculate_diversity_scores top_artists genre_dist)
                 arithmetic_error ;;
      range <-- call_opt (TimeRange_of time_range)
                         (bad_time_range time_range) ;;
      let snapshot :=
        mkSnapshot (w_new_snapshot_id w) user_uuid (w_now w) range
                   audio_stats genre_dist moods
                   (artist_diversity_score diversity)
                   (mood_diversity_score diversity)
                   (List.length top_tracks) in
      emit (CommitSnapshot snapshot) ;;;
      update_job (mark_success (w_now w)
                    (SnapshotResult (snapshot_id snapshot)
                       (List.length top_tracks) (List.length top_artists))) ;;;
      commit_job ;;;
      emit (CacheDelete ("snapshots:user:" ++ user_id)) ;;;
      ret (mkIngestResult (snapshot_id snapshot) user_id time_range
                          (List.length top_tracks) (List.length top_artists))
  end.

Definition ingest_listening_data (w : World) (user_id time_range : string)
  : list Effect * Result IngestResult :=
  run (try_finally
         (try_except (ingest_body w user_id time_range) (job_handler w))
         (emit DbClose)).

Record InsightReturn : Type := mkInsightReturn {
  r_insight_id : UUID;
  r_snapshot_id : string;
  r_generation_time_ms : nat
}.

(** The part the two job-keeping insight tasks share: they differ in the
    job type, the insight kind and the tone stored. *)
Definition tracked_insight_body (w : World) (job_name : string)
    (kind : InsightType) (tone : string) (job_params : list (string * string))
    (prompt : Result unit) (snapshot_id : string) : Task InsightReturn :=
  set_job (mkJob (w_new_job_id w) job_name (w_request_id w) None running
                 job_params None None (Some (w_now w)) None) ;;;
  insert_job w ;;;
  snapshot_uuid <-- call_opt (w_uuid w snapshot_id) bad_uuid ;;
  match query_snapshot (w_db w) snapshot_uuid with
  | None => fail_job w "Snapshot not found"
  | Some snapshot =>
      (if w_api_key w then ret tt else raise no_api_key) ;;;
      call prompt ;;;
      out <-- call (w_llm w) ;;
      let insight :=
        mkInsight (w_new_insight_id w) (snapshot_user_id snapshot)
                  snapshot_uuid kind "gpt-4-turbo-preview" "v1.0" tone
                  (gen_content out) (gen_structured out) (w_elapsed_ms w) in
      emit (CommitInsight insight) ;;;
      update_job (mark_success (w_now w)
                    (InsightResult (insight_id insight) (w_elapsed_ms w))) ;;;
      commit_job ;;;
      emit (CacheDelete ("insights:user:" ++ snapshot_user_id snapshot)) ;;;
      ret (mkInsightReturn (insight_id insight) snapshot_id (w_elapsed_ms w))
  end.

Definition generate_wellness_insight (w : World)
    (snapshot_id tone_mode : string) : list Effect * Result InsightReturn :=
  run (try_finally
         (try_except
            (tracked_insight_body w "generate_wellness_insight" WELLNESS
               tone_mode
               [("snapshot_id", snapshot_id); ("tone_mode", tone_mode)]
               (wellness_prompt w) snapshot_id)
            (job_handler w))
         (emit DbClose)).

Definition generate_roast (w : World) (snapshot_id : string)
  : list Effect * Result InsightReturn :=
  run (try_finally
         (try_except
            (tracked_insight_body w "generate_roast" ROAST "roast"
               [("snapshot_id", snapshot_id)] roast_prompt snapshot_id)
            (job_handler w))
         (emit DbClose)).

Definition productivity_body (w : World) (snapshot_id : string)
  : Task InsightReturn :=
  snapshot_uuid <-- call_opt (w_uuid w snapshot_id) bad_uuid ;;
  match query_snapshot (w_db w) snapshot_uuid with
  | None => raise (mkExc ValueError "Snapshot not found")
  | Some snapshot =>
      (if w_api_key w then ret tt else raise no_api_key) ;;;
      out <-- call (w_llm w) ;;
      let insight :=
        mkInsight (w_new_insight_id w) (snapshot_user_id snapshot)
                  snapshot_uuid PRODUCTIVITY "gpt-4-turbo-preview" "v1.0"
                  "analytical" (gen_content out) "{}" (w_elapsed_ms w) in
      emit (CommitInsight insight) ;;;
      ret (mkInsightReturn (insight_id insight) snapshot_id (w_elapsed_ms w))
  end.

(** Its [except] clause only prints and re-raises. *)
Definition generate_productivity_insight (w : World) (snapshot_id : string)
  : list Effect * Result InsightReturn :=
  run (try_finally
         (try_except (productivity_body w snapshot_id) (fun e => raise e))
         (emit DbClose)).

End Tasks.


(** ** Vocabulary of the specification

    The notions the stated properties use, written after the
    specification's words rather than after the code, and the inputs of
    the scenarios. *)

Module Spec.
Import Aggregation Store Celery Tasks.

(** A number with at most three decimals. *)
Definition three_decimals (q : Q) : Prop :=
  exists z : Z, q == inject_Z z / 1000.

Definition Rthree_decimals (r : R) : Prop :=
  exists z : Z, r = (IZR z / 1000)%R.

(** The base-2 logarithm. *)
Definition log2 (x : R) : R := (ln x / ln 2)%R.

(** Shannon entropy [-sum p * log2 p] over the nonzero fractions. *)
Definition shannon_entropy (fractions : list Q) : R :=
  (- fold_right (fun p acc => Q2R p * log2 (Q2R p) + acc) 0
       (filter (fun p => negb (Qeq_bool p 0)) fractions))%R.

(** Clamping to the unit interval. *)
Definition clamp01 (x : R) : R := Rmax 0 (Rmin x 1).

(** The mood diversity the specification states: the entropy divided by
    [log2 10], clamped. *)
Definition claimed_mood_diversity (genres : dict Q) : R :=
  clamp01 (shannon_entropy (values genres) / log2 10).

(** The four keys the statistics map holds for one feature. *)
Definition stat_keys (feature : string) : list string :=
  ["avg_" ++ feature; "std_" ++ feature; "min_" ++ feature; "max_" ++ feature].

(** Whether a track reports a feature. *)
Definition reports (feature : string) (track : Features) : bool :=
  match get track feature with Some _ => true | None => false end.

(** The number of distinct artists of a batch. *)
Definition distinct_artist_count (artists : list Artist) : nat :=
  List.length (nodup string_dec (map artist_id artists)).

(** The track of the mood scenario. *)
Definition scenario_track : Features :=
  [("valence", 8 # 10); ("energy", 8 # 10); ("danceability", 7 # 10);
   ("acousticness", 1 # 10); ("speechiness", 1 # 10)].

(** Two tracks whose valence differs in the third decimal. *)
Definition two_tracks : list Features :=
  [[("valence", 428 # 1000)]; [("valence", 429 # 1000)]].

(** Eight artists with one genre each, no two alike, and the distribution
    the engine extracts from them. *)
Definition eight_artists : list Artist :=
  map (fun g => mkArtist g (Some [g])) ["a"; "b"; "c"; "d"; "e"; "f"; "g"; "h"].

Definition eight_genres : dict Q :=
  map (fun g => (g, 1 # 8)) ["a"; "b"; "c"; "d"; "e"; "f"; "g"; "h"].

(** The invocations that keep a job record, and their runs: the effects
    committed and whether the body returned. *)
Inductive Invocation : Type :=
| Ingest (user_id time_range : string)
| Wellness (snapshot_id tone_mode : string)
| Roast (snapshot_id : string).

Definition returned {A} (r : Result A) : bool :=
  match r with Return _ => true | Raise _ => false end.

Definition tracked_run (w : World) (i : Invocation) : list Effect * bool :=
  match i with
  | Ingest user_id time_range =>
      let '(tr, r) := ingest_listening_data w user_id time_range in
      (tr, returned r)
  | Wellness snapshot_id tone_mode =>
      let '(tr, r) := generate_wellness_insight w snapshot_id tone_mode in
      (tr, returned r)
  | Roast snapshot_id =>
      let '(tr, r) := generate_roast w snapshot_id in (tr, returned r)
  end.

(** The insight task of each kind.  Only the wellness task takes a tone. *)
Definition insight_run (w : World) (kind : InsightType)
    (snapshot_id tone_mode : string) : list Effect * Result InsightReturn :=
  match kind with
  | WELLNESS => generate_wellness_insight w snapshot_id tone_mode
  | ROAST => generate_roast w snapshot_id
  | PRODUCTIVITY => generate_productivity_insight w snapshot_id
  end.

(** A run creates a job record when it commits one. *)
Definition creates_job_record (tr : list Effect) : Prop :=
  job_commits tr <> [].


(** A first attempt: the job the run is about to insert meets the
    constraints of the table.  No stored job has the task's id or the
    new job's key. *)
Definition first_attempt (w : World) : Prop :=
  forall j, In j (jobs (w_db w)) ->
            job_id j <> w_new_job_id w /\
            celery_task_id j <> w_request_id w.

(** Sample worlds.  Ids are parsed as [uuid.UUID] does; the clock reads
    100; one user is registered. *)
Definition empty_db : Db := mkDb [] [] [] [].

Definition sample_world (db : Db) : World :=
  mkWorld db "celery-task-1" 100 UUID_of
          "00000000-0000-4000-8000-00000000d001" "00000000-0000-4000-8000-00000000b001" "00000000-0000-4000-8000-00000000c001" None
          (Return []) (Return []) (Return [])
          true (Return (mkGenerated "A steady week of listening." "{}")) 1200
          ["00000000-0000-4000-8000-00000000a001"] "duplicate key value violates unique constraint"
          "Invalid format specifier".

(** A user with a live credential. *)
Definition db_with_token : Db :=
  mkDb [mkToken "00000000-0000-4000-8000-00000000a001" "access" "refresh" 500] [] [] [].

(** A stored snapshot of an empty listening history. *)
Definition db_with_snapshot : Db :=
  mkDb [] [mkSnapshot "00000000-0000-4000-8000-00000000b000" "00000000-0000-4000-8000-00000000a001" 50 MEDIUM_TERM [] [] [] 0 0%R 0]
       [] [].

End Spec.


(** ** The mood rules

    The five rules of the docstring of [calculate_mood_patterns], each on
    its own, and the catch-all. *)

Module MoodRules.
Import Aggregation.

(** [features.get(name, 0.5)] *)
Definition feature (t : Features) (name : string) : Q :=
  get_default t name (1 # 2).

Definition is_happy (t : Features) : bool :=
  Qltb (6 # 10) (feature t "valence") && Qltb (6 # 10) (feature t "energy").

Definition is_sad (t : Features) : bool :=
  Qltb (feature t "valence") (4 # 10) && Qltb (feature t "energy") (5 # 10).

Definition is_energetic (t : Features) : bool :=
  Qltb (7 # 10) (feature t "energy")
  && Qltb (6 # 10) (feature t "danceability").

Definition is_calm (t : Features) : bool :=
  Qltb (feature t "energy") (4 # 10)
  && Qltb (5 # 10) (feature t "acousticness").

Definition is_focused (t : Features) : bool :=
  Qltb (feature t "speechiness") (3 # 10)
  && (Qle_bool (3 # 10) (feature t "energy")
      && Qle_bool (feature t "energy") (7 # 10)).

Definition is_other (t : Features) : bool :=
  negb (is_happy t || is_sad t || is_energetic t || is_calm t
        || is_focused t).

(** The labels with their rules, in the order of the counters. *)
Definition mood_rules : list (string * (Features -> bool)) :=
  [("happy", is_happy); ("sad", is_sad); ("energetic", is_energetic);
   ("calm", is_calm); ("focused", is_focused); ("other", is_other)].

(** How many tracks satisfy a rule. *)
Definition count_tracks (rule : Features -> bool) (tracks : list Features)
  : nat :=
  List.length (filter rule tracks).

Definition rule_counts (tracks : list Features) : dict nat :=
  map (fun lr => (fst lr, count_tracks (snd lr) tracks)) mood_rules.

Definition b2n (b : bool) : nat := if b then 1%nat else 0%nat.

End MoodRules.

(** ** Genre tags

    The tags of a batch of artists as the counting loop meets them. *)

Module GenreTags.
Import Aggregation.

(** Every genre tag of every artist, in the order of the two loops. *)
Definition all_tags (artists : list Artist) : list string :=
  flat_map genres_of artists.

(** The distinct tags in the order of their first appearance. *)
Definition first_seen (tags : list string) : list string :=
  fold_left (fun seen g => if existsb (String.eqb g) seen
                           then seen else (seen ++ [g])%list) tags [].

(** The share of a tag among all tag occurrences, as [round] makes it
    from the [float] quotient. *)
Definition tag_fraction (artists : list Artist) (genre : string) : Q :=
  round3 (binary64 (Qnat (count_occ string_dec (all_tags artists) genre)
                    / Qnat (List.length (all_tags artists)))).

(** Every distinct tag with its share, in the order of first appearance. *)
Definition all_fractions (artists : list Artist) : dict Q :=
  map (fun g => (g, tag_fraction artists g)) (first_seen (all_tags artists)).

(** The order of the result: fractions never increase. *)
Definition non_increasing (d : dict Q) : Prop :=
  StronglySorted (fun x y => snd y <= snd x) d.

(** The genres listed with a given fraction, in the order listed. *)
Definition listed_with (q : Q) (d : dict Q) : list string :=
  map fst (filter (fun e => Qeq_bool (snd e) q) d).

End GenreTags.

(** ** Outcomes of a run *)

Module Outcomes.
Import Aggregation Store Celery Tasks.

(** The store after the effects of a run. *)
Definition final_db (w : World) (tr : list Effect) : Db :=
  apply_effects (w_db w) tr.

(** What the roast and the productivity task need from the world, past
    the job insert, in order to return. *)
Definition insight_preconditions (w : World) (snapshot_id : string) : Prop :=
  (exists u snapshot,
      w_uuid w snapshot_id = Some u /\
      query_snapshot (w_db w) u = Some snapshot) /\
  w_api_key w = true /\
  (exists out, w_llm w = Return out).



End Outcomes.

(** ** Fetching audio features in batches *)

Module Fetch.
Import Aggregation Celery Tasks.

(** [range(0, stop, step)] for a positive step. *)
Definition range_by (stop step : nat) : list nat :=
  map (fun k => (k * step)%nat) (seq 0 ((stop + step - 1) / step)).

(** [l[i:j]] for [i <= j]. *)
Definition slice {A} (l : list A) (i j : nat) : list A :=
  firstn (j - i) (skipn i l).

(** The batches [track_ids[i:i+100]] the loop sends. *)
Definition batches (track_ids : list string) : list (list string) :=
  map (fun i => slice track_ids i (i + 100))
      (range_by (List.length track_ids) 100).

(** [sp.audio_features(batch)]: an entry per id, [None] where Spotify has
    no features for it; the call may raise. *)
Definition AudioFeaturesApi : Type :=
  list string -> Result (list (option Features)).

(** [[f for f in features if f is not None]] *)
Definition not_none (features : list (option Features)) : list Features :=
  flat_map (fun f => match f with Some x => [x] | None => [] end) features.

Fixpoint fetch_loop (sp : AudioFeaturesApi) (todo : list (list string))
    (all_features : list Features) : Result (list Features) :=
  match todo with
  | [] => Return all_features
  | batch :: rest =>
      match sp batch with
      | Raise e => Raise e
      | Return features =>
          fetch_loop sp rest (all_features ++ not_none features)%list
      end
  end.

Definition fetch_audio_features (sp : AudioFeaturesApi)
    (track_ids : list string) : Result (list Features) :=
  fetch_loop sp (batches track_ids) [].

(** A client that answers every id on its own, from a fixed catalogue. *)
Definition catalogue_client (catalogue : string -> option Features)
  : AudioFeaturesApi :=
  fun batch => Return (map catalogue batch).

End Fetch.

(** ** Refreshing credentials *)

Module Refresh.
Import Store Celery Tasks.

(** The answer of the token endpoint: [access_token] and [expires_in]
    always, [refresh_token] only when Spotify rotates it. *)
Record TokenInfo : Type := mkTokenInfo {
  ti_access_token : string;
  ti_expires_in : nat;
  ti_refresh_token : option string
}.

Record OAuth : Type := mkOAuth {
  oa_uuid : string -> option UUID;    (* uuid.UUID(s); None: ValueError *)
  oa_refresh_access_token : string -> Result TokenInfo;
  oa_now : nat                        (* datetime.now() *)
}.

(** The assignments to [token_record] before the commit. *)
Definition updated_token (now : nat) (token_info : TokenInfo)
    (token_record : SpotifyToken) : SpotifyToken :=
  mkToken (token_user_id token_record)
          (ti_access_token token_info)
          (match ti_refresh_token token_info with
           | Some r => r
           | None => refresh_token token_record
           end)
          (now + ti_expires_in token_info).

(** Committing the row [.first()] returned: the first row of the user. *)
Fixpoint update_first (u : UUID) (row' : SpotifyToken)
    (rows : list SpotifyToken) : list SpotifyToken :=
  match rows with
  | [] => []
  | t :: rows' =>
      if String.eqb (token_user_id t) u then row' :: rows'
      else t :: update_first u row' rows'
  end.

Definition refresh_spotify_token (o : OAuth) (user_id : string) (db : Db)
  : Db * option string :=
  match oa_uuid o user_id with
  | None => (db, None)
  | Some user_uuid =>
      match query_token db user_uuid with
      | None => (db, None)
      | Some token_record =>
          match oa_refresh_access_token o (refresh_token token_record) with
          | Raise _ => (db, None)
          | Return token_info =>
              (mkDb (update_first user_uuid
                       (updated_token (oa_now o) token_info token_record)
                       (tokens db))
                    (snapshots db) (insights db) (jobs db),
               Some (ti_access_token token_info))
          end
      end
  end.

(** [if new_token:] on an [Optional[str]]: [None] and the empty string
    are both false. *)
Definition truthy (new_token : option string) : bool :=
  match new_token with
  | Some s => negb (String.eqb s "")
  | None => false
  end.

Record RefreshResult : Type := mkRefreshResult {
  rr_success : bool;
  rr_user_id : string;
  rr_message : string
}.

(** The task [refresh_token]. *)
Definition refresh_token_task (o : OAuth) (user_id : string) (db : Db)
  : Db * RefreshResult :=
  let '(db', new_token) := refresh_spotify_token o user_id db in
  if truthy new_token
  then (db', mkRefreshResult true user_id "Token refreshed successfully")
  else (db', mkRefreshResult false user_id "Failed to refresh token").

Record RefreshSummary : Type := mkRefreshSummary {
  rs_refreshed : nat;
  rs_failed : nat;
  rs_total_checked : nat
}.

(** [SpotifyToken.expires_at <= datetime.now() + timedelta(hours=1)] *)
Definition expiring (now : nat) (t : SpotifyToken) : bool :=
  (expires_at t <=? now + 3600)%nat.

Definition refresh_step (o : OAuth) (st : Db * nat * nat)
    (token_record : SpotifyToken) : Db * nat * nat :=
  let '(db, refreshed_count, failed_count) := st in
  let '(db', new_token) :=
    refresh_spotify_token o (token_user_id token_record) db in
  if truthy new_token then (db', S refreshed_count, failed_count)
  else (db', refreshed_count, S failed_count).

Definition refresh_expiring_tokens (o : OAuth) (db : Db)
  : Db * RefreshSummary :=
  let expiring_tokens := filter (expiring (oa_now o)) (tokens db) in
  let '(db', refreshed_count, failed_count) :=
    fold_left (refresh_step o) expiring_tokens (db, 0%nat, 0%nat) in
  (db', mkRefreshSummary refreshed_count failed_count
          (List.length expiring_tokens)).

(** What a refresh makes of one row, and whether it counts as refreshed. *)
Definition refreshed_row (o : OAuth) (t : SpotifyToken) : SpotifyToken :=
  match oa_refresh_access_token o (refresh_token t) with
  | Return token_info => updated_token (oa_now o) token_info t
  | Raise _ => t
  end.

Definition usable (o : OAuth) (t : SpotifyToken) : bool :=
  match oa_refresh_access_token o (refresh_token t) with
  | Return token_info => negb (String.eqb (ti_access_token token_info) "")
  | Raise _ => false
  end.

Definition sweep_row (o : OAuth) (users : list UUID) (x : SpotifyToken)
  : SpotifyToken :=
  if existsb (String.eqb (token_user_id x)) users then refreshed_row o x
  else x.

(** An endpoint that renews every credential for an hour. *)
Definition sample_oauth : OAuth :=
  mkOAuth UUID_of
          (fun _ => Return (mkTokenInfo "fresh" 3600 None))
          1000.

Definition two_tokens : Db :=
  mkDb [mkToken "00000000-0000-4000-8000-00000000a001" "a1" "r1" 900; mkToken "00000000-0000-4000-8000-00000000a002" "a2" "r2" 4700]
       [] [] [].

End Refresh.

(** ** Tasks that enqueue other tasks *)

Module Sweeps.
Import Store Celery Tasks.

(** A call [task.delay(...)] with its arguments bound to the task's
    parameters. *)
Inductive Message : Type :=
| IngestListeningData (user_id time_range : string)
| GenerateWellnessInsight (snapshot_id tone_mode : string)
| GenerateRoast (snapshot_id : string).

(** The broker: its queue and the number of [.delay] calls made so far.
    [fault n] is the exception the n-th call raises, if any. *)
Record Broker : Type := mkBroker {
  br_queue : list Message;
  br_calls : nat
}.

Definition delay (fault : nat -> option PyExc) (b : Broker) (m : Message)
  : Broker * Result unit :=
  match fault (br_calls b) with
  | None => (mkBroker (br_queue b ++ [m]) (S (br_calls b)), Return tt)
  | Some e => (mkBroker (br_queue b) (S (br_calls b)), Raise e)
  end.

Record BatchResults : Type := mkBatchResults {
  batch_success : list string;
  batch_failed : list (string * string);   (* user_id, error *)
  batch_total : nat
}.

Definition batch_step (fault : nat -> option PyExc) (time_range : string)
    (st : Broker * list string * list (string * string)) (user_id : string)
  : Broker * list string * list (string * string) :=
  let '(b, ok, bad) := st in
  match delay fault b (IngestListeningData user_id time_range) with
  | (b', Return _) => (b', (ok ++ [user_id])%list, bad)
  | (b', Raise e) => (b', ok, (bad ++ [(user_id, exc_msg e)])%list)
  end.

Definition batch_ingest_users (fault : nat -> option PyExc) (b : Broker)
    (user_ids : list string) (time_range : string) : Broker * BatchResults :=
  let '(b', ok, bad) :=
    fold_left (batch_step fault time_range) user_ids (b, [], []) in
  (b', mkBatchResults ok bad (List.length user_ids)).

Record SweepResult : Type := mkSweepResult {
  sr_total_users : nat;
  sr_queued : nat;
  sr_failed : nat
}.

Definition ingest_all_step (fault : nat -> option PyExc)
    (st : Broker * nat * nat) (user_id : string) : Broker * nat * nat :=
  let '(b, queued_count, failed_count) := st in
  match delay fault b (IngestListeningData user_id "medium_term") with
  | (b', Return _) => (b', S queued_count, failed_count)
  | (b', Raise _) => (b', queued_count, S failed_count)
  end.

Definition ingest_all_users_data (fault : nat -> option PyExc) (now : nat)
    (db : Db) (b : Broker) : Broker * SweepResult :=
  let valid_tokens :=
    filter (fun t => (now <? expires_at t)%nat) (tokens db) in
  let user_ids := map token_user_id valid_tokens in
  let '(b', queued_count, failed_count) :=
    fold_left (ingest_all_step fault) user_ids (b, 0%nat, 0%nat) in
  (b', mkSweepResult (List.length user_ids) queued_count failed_count).

(** [snapshot_date >= datetime.now() - timedelta(days=7)] *)
Definition recent (now : nat) (s : ListeningSnapshot) : bool :=
  (Z.of_nat now - 604800 <=? Z.of_nat (snapshot_date s))%Z.

(** [.distinct(ListeningSnapshot.user_id)]: one row for each user.  Which
    row, and in which order the users come, is the database's choice;
    here the first row of each user, in table order.  The loop reads only
    the [user_id] of the row. *)
Fixpoint distinct_on_user (seen : list UUID) (l : list ListeningSnapshot)
  : list ListeningSnapshot :=
  match l with
  | [] => []
  | s :: l' =>
      if existsb (String.eqb (snapshot_user_id s)) seen
      then distinct_on_user seen l'
      else s :: distinct_on_user (snapshot_user_id s :: seen) l'
  end.

Definition latest_step (u : UUID) (best : option ListeningSnapshot)
    (s : ListeningSnapshot) : option ListeningSnapshot :=
  if String.eqb (snapshot_user_id s) u then
    match best with
    | None => Some s
    | Some b => if (snapshot_date b <? snapshot_date s)%nat then Some s
                else best
    end
  else best.

(** [filter(user_id == u).order_by(snapshot_date.desc()).first()]; among
    rows of the same date, the first in table order. *)
Definition latest_snapshot (db : Db) (u : UUID) : option ListeningSnapshot :=
  fold_left (latest_step u) (snapshots db) None.

Definition weekly_step (fault : nat -> option PyExc) (db : Db)
    (st : Broker * nat * nat) (snapshot : ListeningSnapshot)
  : Broker * nat * nat :=
  let '(b, queued_count, failed_count) := st in
  match latest_snapshot db (snapshot_user_id snapshot) with
  | Some latest =>
      match delay fault b
              (GenerateWellnessInsight (snapshot_id latest) "supportive") with
      | (b', Return _) => (b', S queued_count, failed_count)
      | (b', Raise _) => (b', queued_count, S failed_count)
      end
  | None => (b, queued_count, failed_count)
  end.

Definition generate_weekly_summaries (fault : nat -> option PyExc)
    (now : nat) (db : Db) (b : Broker) : Broker * SweepResult :=
  let recent_snapshots :=
    distinct_on_user [] (filter (recent now) (snapshots db)) in
  let '(b', queued_count, failed_count) :=
    fold_left (weekly_step fault db) recent_snapshots (b, 0%nat, 0%nat) in
  (b', mkSweepResult (List.length recent_snapshots)
         queued_count failed_count).

(** The items of a list whose [.delay] call, counted from call [n] on,
    goes through, and those whose call raises, with the exception. *)
Fixpoint accepted {A} (fault : nat -> option PyExc) (n : nat) (l : list A)
  : list A :=
  match l with
  | [] => []
  | x :: l' =>
      match fault n with
      | None => x :: accepted fault (S n) l'
      | Some _ => accepted fault (S n) l'
      end
  end.

Fixpoint rejected {A} (fault : nat -> option PyExc) (n : nat) (l : list A)
  : list (A * PyExc) :=
  match l with
  | [] => []
  | x :: l' =>
      match fault n with
      | None => rejected fault (S n) l'
      | Some e => (x, e) :: rejected fault (S n) l'
      end
  end.

Definition latest_of (db : Db) (l : list ListeningSnapshot)
  : list ListeningSnapshot :=
  flat_map (fun x => match latest_snapshot db (snapshot_user_id x) with
                     | Some latest => [latest]
                     | None => []
                     end) l.

(** A broker that refuses every second call. *)
Definition flaky (n : nat) : option PyExc :=
  if Nat.even n then None
  else Some (mkExc (LibraryError "OperationalError") "broker unreachable").

End Sweeps.

(** ** Retention *)

Module Retention.
Import Store.

(** A row of [background_jobs] with its [created_at] column. *)
Record JobRow : Type := mkJobRow {
  row_job : BackgroundJob;
  row_created_at : Z
}.

(** [datetime.now() - timedelta(days=retention_days)], in seconds. *)
Definition cutoff_date (now retention_days : Z) : Z :=
  (now - retention_days * 86400)%Z.

(** [BackgroundJob.status.in_(["success", "failed"])] *)
Definition finished (s : JobStatus) : bool :=
  match s with
  | success | failed => true
  | pending | running => false
  end.

Definition old_job (now retention_days : Z) (r : JobRow) : bool :=
  (row_created_at r <? cutoff_date now retention_days)%Z
  && finished (status (row_job r)).

(** The rows left and [deleted_jobs]. *)
Definition cleanup_old_jobs (now retention_days : Z) (rows : list JobRow)
  : list JobRow * nat :=
  (filter (fun r => negb (old_job now retention_days r)) rows,
   List.length (filter (old_job now retention_days) rows)).

Definition old_snapshot (now retention_days : Z) (s : ListeningSnapshot)
  : bool :=
  (Z.of_nat (snapshot_date s) <? cutoff_date now retention_days)%Z.

(** The snapshot a row of [generated_insights] points to is among [l]. *)
Definition refers_to (l : list ListeningSnapshot) (i : GeneratedInsight)
  : bool :=
  existsb (fun s => String.eqb (snapshot_id s) (insight_snapshot_id i)) l.

(** The delete statement, with the [ON DELETE CASCADE] of
    [generated_insights.snapshot_id]; the store left and
    [deleted_snapshots]. *)
Definition cleanup_old_snapshots (now retention_days : Z) (db : Db)
  : Db * nat :=
  let deleted := filter (old_snapshot now retention_days) (snapshots db) in
  (mkDb (tokens db)
        (filter (fun s => negb (old_snapshot now retention_days s))
                (snapshots db))
        (filter (fun i => negb (refers_to deleted i)) (insights db))
        (jobs db),
   List.length deleted).

Definition sample_history : Db :=
  mkDb []
       [mkSnapshot "snapshot-old" "00000000-0000-4000-8000-00000000a001" 10 MEDIUM_TERM [] [] [] 0 0%R 0;
        mkSnapshot "snapshot-new" "00000000-0000-4000-8000-00000000a001" 90 MEDIUM_TERM [] [] [] 0 0%R 0]
       [mkInsight "insight-old" "00000000-0000-4000-8000-00000000a001" "snapshot-old" WELLNESS
                  "gpt-4" "v1" "neutral" "then" "{}" 1;
        mkInsight "insight-new" "00000000-0000-4000-8000-00000000a001" "snapshot-new" WELLNESS
                  "gpt-4" "v1" "neutral" "now" "{}" 1]
       [].

End Retention.

(** ** The cache *)

Module Cache.
Import Celery Tasks.

(** A key of the Redis server: the value stored and, when it was stored
    with [SETEX], the time at which it expires. *)
Record Entry (V : Type) : Type := mkEntry {
  e_value : V;
  e_expires : option Z
}.
Arguments mkEntry {V}.
Arguments e_value {V}.
Arguments e_expires {V}.

(** The server as the client sees it: reachable or not, and its keys. *)
Record Redis (V : Type) : Type := mkRedis {
  redis_up : bool;
  redis_entries : dict (Entry V)
}.
Arguments mkRedis {V}.
Arguments redis_up {V}.
Arguments redis_entries {V}.

Definition connection_error : PyExc :=
  mkExc (LibraryError "ConnectionError") "Error connecting to Redis".
Definition invalid_expire : PyExc :=
  mkExc (LibraryError "ResponseError") "invalid expire time in setex".

Definition live {V} (now : Z) (e : Entry V) : bool :=
  match e_expires e with
  | None => true
  | Some t => (now <? t)%Z
  end.

Definition remove {V} (d : dict V) (k : string) : dict V :=
  filter (fun e => negb (String.eqb (fst e) k)) d.

(** [client.get(key)] *)
Definition client_get {V} (now : Z) (r : Redis V) (key : string)
  : Result (option V) :=
  if redis_up r then
    Return (match get (redis_entries r) key with
            | Some e => if live now e then Some (e_value e) else None
            | None => None
            end)
  else Raise connection_error.

(** [client.set(key, data)] *)
Definition client_set {V} (r : Redis V) (key : string) (data : V)
  : Redis V * Result bool :=
  if redis_up r then
    (mkRedis true (set (redis_entries r) key (mkEntry data None)),
     Return true)
  else (r, Raise connection_error).

(** [client.setex(key, ttl, data)]; Redis refuses a time that is not
    positive. *)
Definition client_setex {V} (now : Z) (r : Redis V) (key : string)
    (ttl : Z) (data : V) : Redis V * Result bool :=
  if redis_up r then
    if (0 <? ttl)%Z then
      (mkRedis true
         (set (redis_entries r) key (mkEntry data (Some (now + ttl)%Z))),
       Return true)
    else (r, Raise invalid_expire)
  else (r, Raise connection_error).

(** [client.delete(key)]: the number of keys removed. *)
Definition client_delete {V} (now : Z) (r : Redis V) (key : string)
  : Redis V * Result nat :=
  if redis_up r then
    match get (redis_entries r) key with
    | Some e =>
        (mkRedis true (remove (redis_entries r) key),
         Return (if live now e then 1%nat else 0%nat))
    | None => (r, Return 0%nat)
    end
  else (r, Raise connection_error).

(** [CacheManager.set]; the value goes through [pickle] and back
    unchanged. *)
Definition cache_set {V} (now : Z) (r : Redis V) (key : string) (value : V)
    (ttl : option Z) : Redis V * bool :=
  let '(r', res) :=
    match ttl with
    | Some n => if (n =? 0)%Z then client_set r key value
                else client_setex now r key n value
    | None => client_set r key value
    end in
  match res with
  | Return b => (r', b)
  | Raise _ => (r', false)
  end.

(** [CacheManager.get] *)
Definition cache_get {V} (now : Z) (r : Redis V) (key : string) : option V :=
  match client_get now r key with
  | Return data => data
  | Raise _ => None
  end.

(** [CacheManager.delete] *)
Definition cache_delete {V} (now : Z) (r : Redis V) (key : string)
  : Redis V * bool :=
  match client_delete now r key with
  | (r', Return n) => (r', negb (n =? 0)%nat)
  | (r', Raise _) => (r', false)
  end.

(** [CacheManager.set_with_ttl] *)
Definition set_with_ttl {V} (now : Z) (r : Redis V) (key : string)
    (value : V) (minutes : Z) : Redis V * bool :=
  cache_set now r key value (Some (minutes * 60)%Z).

(** The cache calls of a task run, applied to the server. *)
Definition apply_cache_effect {V} (now : Z) (r : Redis V)
    (ef : Store.Effect) : Redis V :=
  match ef with
  | Store.CacheDelete key => fst (cache_delete now r key)
  | _ => r
  end.

Definition apply_cache_effects {V} (now : Z) (r : Redis V)
    (tr : list Store.Effect) : Redis V :=
  fold_left (apply_cache_effect now) tr r.

End Cache.

(** ** The HTTP endpoints *)

Module Api.
Import Store Celery Tasks Refresh Sweeps Cache.

Inductive Response (A : Type) : Type :=
| Ok (body : A)
| HTTPException (status_code : nat) (detail : string)
| Unhandled (e : PyExc).
Arguments Ok {A}.
Arguments HTTPException {A}.
Arguments Unhandled {A}.

Definition is_ok {A} (r : Response A) : bool :=
  match r with Ok _ => true | _ => false end.

(** [POST /api/tokens/store]; [users] are the ids of the rows of
    [users], [expires_in] is a number of seconds that is not negative,
    the body returned is [expires_at]. *)
Definition store_spotify_token (uuid : string -> option UUID)
    (users : list UUID) (now : nat) (db : Db)
    (user_id access_token refresh_token : string) (expires_in : nat)
  : Db * Response nat :=
  match uuid user_id with
  | None => (db, HTTPException 400 "Invalid user ID format")
  | Some user_uuid =>
      if existsb (String.eqb user_uuid) users then
        let expires_at := (now + expires_in)%nat in
        match query_token db user_uuid with
        | Some existing_token =>
            (mkDb (update_first user_uuid
                     (mkToken (token_user_id existing_token)
                              access_token refresh_token expires_at)
                     (tokens db))
                  (snapshots db) (insights db) (jobs db),
             Ok expires_at)
        | None =>
            (mkDb (tokens db
                   ++ [mkToken user_uuid access_token refresh_token
                               expires_at])
                  (snapshots db) (insights db) (jobs db),
             Ok expires_at)
        end
      else (db, HTTPException 404 "User not found")
  end.

Definition valid_ranges : list string :=
  ["short_term"; "medium_term"; "long_term"].

Record IngestQueued : Type := mkIngestQueued {
  iq_task_id : string;
  iq_status : string;
  iq_user_id : string;
  iq_time_range : string
}.

(** [POST /api/listening/ingest]; [task_id n] is the id of the task the
    n-th [.delay] call creates. *)
Definition trigger_listening_ingest (uuid : string -> option UUID)
    (users : list UUID) (fault : nat -> option PyExc)
    (task_id : nat -> string) (b : Broker) (user_id time_range : string)
  : Broker * Response IngestQueued :=
  match uuid user_id with
  | None => (b, HTTPException 400 "Invalid user ID format")
  | Some user_uuid =>
      if negb (existsb (String.eqb user_uuid) users) then
        (b, HTTPException 404 "User not found")
      else if negb (existsb (String.eqb time_range) valid_ranges) then
        (b, HTTPException 400
              "Invalid time_range. Must be one of: ['short_term', 'medium_term', 'long_term']")
      else
        match delay fault b (IngestListeningData user_id time_range) with
        | (b', Return _) =>
            (b', Ok (mkIngestQueued (task_id (br_calls b)) "queued"
                                    user_id time_range))
        | (b', Raise e) => (b', Unhandled e)
        end
  end.

Record InsightQueued : Type := mkInsightQueued {
  nq_task_id : string;
  nq_status : string;
  nq_snapshot_id : string;
  nq_insight_type : string
}.

(** [POST /api/insights/generate] *)
Definition generate_insight (uuid : string -> option UUID) (db : Db)
    (fault : nat -> option PyExc) (task_id : nat -> string) (b : Broker)
    (snapshot_id insight_type tone_mode : string)
  : Broker * Response InsightQueued :=
  match uuid snapshot_id with
  | None => (b, HTTPException 400 "Invalid snapshot ID format")
  | Some snapshot_uuid =>
      match query_snapshot db snapshot_uuid with
      | None => (b, HTTPException 404 "Snapshot not found")
      | Some _ =>
          let queued b' :=
            (b', Ok (mkInsightQueued (task_id (br_calls b)) "queued"
                                     snapshot_id insight_type)) in
          if String.eqb insight_type "roast" then
            match delay fault b (GenerateRoast snapshot_id) with
            | (b', Return _) => queued b'
            | (b', Raise e) => (b', Unhandled e)
            end
          else if String.eqb insight_type "wellness" then
            match delay fault b
                    (GenerateWellnessInsight snapshot_id tone_mode) with
            | (b', Return _) => queued b'
            | (b', Raise e) => (b', Unhandled e)
            end
          else
            (b, HTTPException 400
                  "Invalid insight_type. Must be 'wellness' or 'roast'")
      end
  end.

(** [db.query(GeneratedInsight).filter(id == i).first()] *)
Definition query_insight (db : Db) (i : UUID) : option GeneratedInsight :=
  find (fun x => String.eqb (insight_id x) i) (insights db).

(** [GET /api/insights/{insight_id}]; the body is the row, whose columns
    the response lists, so that a cached body is never empty and
    [if cached:] holds whenever the key is found. *)
Definition get_insight (uuid : string -> option UUID) (now : Z)
    (r : Redis GeneratedInsight) (db : Db) (id : string)
  : Redis GeneratedInsight * Response GeneratedInsight :=
  match uuid id with
  | None => (r, HTTPException 400 "Invalid insight ID format")
  | Some insight_uuid =>
      let cache_key := "insight:" ++ id in
      match cache_get now r cache_key with
      | Some cached => (r, Ok cached)
      | None =>
          match query_insight db insight_uuid with
          | None => (r, HTTPException 404 "Insight not found")
          | Some insight =>
              (fst (cache_set now r cache_key insight (Some 3600%Z)),
               Ok insight)
          end
      end
  end.

Definition sample_insight : GeneratedInsight :=
  mkInsight "00000000-0000-4000-8000-00000000c000" "00000000-0000-4000-8000-00000000a001" "00000000-0000-4000-8000-00000000b000" WELLNESS
            "gpt-4" "v1" "neutral" "A calm week." "{}" 900.

Definition db_with_insight : Db := mkDb [] [] [sample_insight] [].

Definition empty_cache : Redis GeneratedInsight := mkRedis true [].

End Api.

(** * Properties *)

(** ** Rounding *)

Module Rounding.
Import Spec.

Lemma round_half_even_Z (x : Q) (z : Z) :
  x == inject_Z z -> round_half_even x = z.
Proof.
  intros H. unfold round_half_even.
  rewrite (Qfloor_comp _ _ H), Qfloor_Z.
  assert (E : x - inject_Z z == 0) by (rewrite H; ring).
  rewrite E. reflexivity.
Qed.

#[export] Instance round_half_even_comp : Proper (Qeq ==> eq) round_half_even.
Proof.
  intros x y H. unfold round_half_even.
  rewrite (Qfloor_comp _ _ H), H. reflexivity.
Qed.

#[export] Instance round3_comp : Proper (Qeq ==> eq) round3.
Proof.
  intros x y H. unfold round3. apply Qred_complete. now rewrite H.
Qed.

#[export] Instance round3_comp_Qeq : Proper (Qeq ==> Qeq) round3.
Proof. intros x y H. now rewrite (round3_comp x y H). Qed.

Lemma round3_spec (x : Q) :
  round3 x == inject_Z (round_half_even (x * 1000)) / 1000.
Proof. unfold round3. apply Qred_correct. Qed.

Lemma round3_three_decimals (x : Q) : three_decimals (round3 x).
Proof. exists (round_half_even (x * 1000)). apply round3_spec. Qed.

Lemma round3_exact (x : Q) (z : Z) : x * 1000 == inject_Z z -> round3 x == x.
Proof.
  intros H. rewrite round3_spec, (round_half_even_Z _ _ H), <- H. field.
Qed.

Lemma round_half_even_between (y : Q) (a b : Z) :
  inject_Z a <= y <= inject_Z b -> (a <= round_half_even y <= b)%Z.
Proof.
  intros [Ha Hb]. unfold round_half_even.
  assert (Hfa : (a <= Qfloor y)%Z).
  { rewrite <- (Qfloor_Z a). now apply Qfloor_resp_le. }
  assert (Hfb : (Qfloor y <= b)%Z).
  { rewrite <- (Qfloor_Z b). now apply Qfloor_resp_le. }
  pose proof (Qfloor_le y) as Hf.
  destruct (Qcompare (y - inject_Z (Qfloor y)) (1 # 2)) eqn:C; [| lia |].
  - apply Qeq_alt in C.
    assert (L : inject_Z (Qfloor y) < inject_Z b) by lra.
    rewrite <- Zlt_Qlt in L. destruct (Z.even (Qfloor y)); lia.
  - apply Qgt_alt in C.
    assert (L : inject_Z (Qfloor y) < inject_Z b) by lra.
    rewrite <- Zlt_Qlt in L. lia.
Qed.

Lemma round_half_even_half (y : Q) :
  y - (1 # 2) <= inject_Z (round_half_even y) <= y + (1 # 2).
Proof.
  unfold round_half_even.
  pose proof (Qfloor_le y) as Hf. pose proof (Qlt_floor y) as Hl.
  rewrite inject_Z_plus in Hl. change (inject_Z 1) with 1 in Hl.
  destruct (Qcompare (y - inject_Z (Qfloor y)) (1 # 2)) eqn:C.
  - apply Qeq_alt in C. destruct (Z.even (Qfloor y)).
    + lra.
    + rewrite inject_Z_plus. change (inject_Z 1) with 1. lra.
  - apply Qlt_alt in C. lra.
  - apply Qgt_alt in C. rewrite inject_Z_plus. change (inject_Z 1) with 1. lra.
Qed.

Lemma ilog2_nonpos (q : Q) : 0 < q -> q <= 1 -> (ilog2 q <= 0)%Z.
Proof.
  intros H0 H1. unfold ilog2.
  assert (Hn : (0 < Qnum q)%Z) by (unfold Qlt in H0; simpl in H0; lia).
  assert (Hd : (Qnum q <= Zpos (Qden q))%Z)
    by (unfold Qle in H1; simpl in H1; lia).
  pose proof (Z.log2_le_mono _ _ Hd) as L.
  destruct (Qle_bool _ q); lia.
Qed.

Lemma pow2_pos (k : Z) : 0 < 2 ^ k.
Proof. apply Qpower_0_lt. reflexivity. Qed.

Lemma pow2_inv (k : Z) : 2 ^ k * 2 ^ (- k) == 1.
Proof.
  rewrite <- Qpower_plus by discriminate.
  replace (k + - k)%Z with 0%Z by lia. reflexivity.
Qed.

Lemma nearest64_unit (q : Q) : 0 < q -> q <= 1 -> 0 <= nearest64 q <= 1.
Proof.
  intros H0 H1. unfold nearest64.
  pose proof (ilog2_nonpos q H0 H1) as He.
  set (e := ilog2 q) in *.
  assert (Hk : (0 <= 52 - e)%Z) by lia.
  pose proof (pow2_pos (52 - e)) as Hp.
  pose proof (pow2_pos (e - 52)) as Hp'.
  destruct (round_half_even_between (q * 2 ^ (52 - e)) 0 (2 ^ (52 - e)))
    as [Ha Hb].
  { rewrite (Zpower_Qpower 2 (52 - e) Hk).
    change (inject_Z 0) with 0. change (inject_Z 2) with 2. nra. }
  rewrite Zle_Qle in Ha, Hb. change (inject_Z 0) with 0 in Ha.
  rewrite (Zpower_Qpower 2 (52 - e) Hk) in Hb. change (inject_Z 2) with 2 in Hb.
  pose proof (pow2_inv (52 - e)) as Hi.
  replace (- (52 - e))%Z with (e - 52)%Z in Hi by lia.
  split; [nra |].
  rewrite <- Hi. apply Qmult_le_compat_r; [exact Hb | lra].
Qed.

(** The [float] nearest to a number of [0,1] lies in [0,1]. *)
Lemma binary64_unit_interval (q : Q) : 0 <= q <= 1 -> 0 <= binary64 q <= 1.
Proof.
  intros [H0 H1]. unfold binary64. cbv zeta.
  pose proof (Qred_correct q) as E.
  destruct (Qnum (Qred q)) eqn:N.
  - lra.
  - rewrite Qred_correct. apply nearest64_unit.
    + unfold Qlt. rewrite N. simpl. lia.
    + lra.
  - exfalso. assert (Qred q < 0) by (unfold Qlt; rewrite N; simpl; lia). lra.
Qed.

Lemma binary64_comp (x y : Q) : x == y -> binary64 x = binary64 y.
Proof. intros H. unfold binary64. now rewrite (Qred_complete x y H). Qed.

(** On (0,1] the nearest [float] is within [2^-53] of the number. *)
Lemma nearest64_error (q : Q) :
  0 < q -> q <= 1 ->
  q - (1 # 2) * 2 ^ (-52) <= nearest64 q <= q + (1 # 2) * 2 ^ (-52).
Proof.
  intros H0 H1. unfold nearest64.
  pose proof (ilog2_nonpos q H0 H1) as He.
  set (e := ilog2 q) in *.
  pose proof (pow2_pos (52 - e)) as Hp.
  pose proof (pow2_pos (e - 52)) as Hp'.
  pose proof (round_half_even_half (q * 2 ^ (52 - e))) as [Ha Hb].
  pose proof (pow2_inv (52 - e)) as Hi.
  replace (- (52 - e))%Z with (e - 52)%Z in Hi by lia.
  assert (Hs : 2 ^ (e - 52) <= 2 ^ (-52)).
  { assert (E : 2 ^ (-52) == 2 ^ (e - 52) * 2 ^ (- e)).
    { rewrite <- Qpower_plus by discriminate.
      replace (e - 52 + - e)%Z with (-52)%Z by lia. reflexivity. }
    assert (G : 1 <= 2 ^ (- e)) by (apply Qpower_1_le; [lra | lia]).
    rewrite E. nra. }
  set (m := inject_Z (round_half_even (q * 2 ^ (52 - e)))) in *.
  set (a := 2 ^ (52 - e)) in *. set (b := 2 ^ (e - 52)) in *.
  set (c := 2 ^ (-52)) in *.
  split; nra.
Qed.

(** [ilog2] is the exponent. *)
Lemma ilog2_spec (q : Q) :
  0 < q -> 2 ^ ilog2 q <= q /\ q < 2 ^ (ilog2 q + 1).
Proof.
  intros H0. unfold ilog2.
  assert (Hn : (0 < Qnum q)%Z) by (unfold Qlt in H0; simpl in H0; lia).
  set (la := Z.log2 (Qnum q)). set (lb := Z.log2 (Zpos (Qden q))).
  pose proof (Z.log2_nonneg (Qnum q)) as Hla. fold la in Hla.
  pose proof (Z.log2_nonneg (Zpos (Qden q))) as Hlb. fold lb in Hlb.
  destruct (Z.log2_spec (Qnum q) Hn) as [A1 A2]. fold la in A1, A2.
  destruct (Z.log2_spec (Zpos (Qden q)) eq_refl) as [B1 B2]. fold lb in B1, B2.
  rewrite Z.pow_succ_r in A2, B2 by assumption.
  rewrite Zle_Qle in A1, B1. rewrite Zlt_Qlt in A2, B2.
  rewrite inject_Z_mult in A2, B2.
  rewrite (Zpower_Qpower 2 la Hla) in A1, A2.
  rewrite (Zpower_Qpower 2 lb Hlb) in B1, B2.
  change (inject_Z 2) with 2 in *.
  pose proof (Qpower_0_lt 2 la eq_refl) as PA.
  pose proof (Qpower_0_lt 2 lb eq_refl) as PB.
  assert (Eq : q * inject_Z (Zpos (Qden q)) == inject_Z (Qnum q)).
  { destruct q as [a b]. simpl. rewrite (Qmake_Qdiv a b). field.
    discriminate. }
  assert (Ed : 2 ^ (la - lb) * 2 ^ lb == 2 ^ la).
  { rewrite <- Qpower_plus by discriminate.
    replace (la - lb + lb)%Z with la by lia. reflexivity. }
  assert (Eu : 2 ^ (la - lb + 1) == 2 * 2 ^ (la - lb)).
  { rewrite Qpower_plus by discriminate. change (2 ^ 1) with 2. ring. }
  assert (El : 2 * 2 ^ (la - lb - 1) == 2 ^ (la - lb)).
  { replace (la - lb)%Z with (la - lb - 1 + 1)%Z at 2 by lia.
    rewrite Qpower_plus by discriminate. change (2 ^ 1) with 2. ring. }
  pose proof (Qpower_0_lt 2 (la - lb) eq_refl) as PD.
  pose proof (Qpower_0_lt 2 (la - lb - 1) eq_refl) as PD1.
  set (B := inject_Z (Zpos (Qden q))) in *.
  set (A := inject_Z (Qnum q)) in *.
  set (pa := 2 ^ la) in *. set (pb := 2 ^ lb) in *.
  set (pd := 2 ^ (la - lb)) in *.
  destruct (Qle_bool pd q) eqn:C.
  - apply Qle_bool_iff in C. split; [exact C |].
    rewrite Eu. nra.
  - assert (C' : q < pd).
    { apply Qnot_le_lt. intros K. apply Qle_bool_iff in K. congruence. }
    replace (la - lb - 1 + 1)%Z with (la - lb)%Z by lia. fold pd.
    split; [| exact C'].
    set (pd1 := 2 ^ (la - lb - 1)) in *. nra.
Qed.

Lemma binary64_error (q : Q) :
  0 <= q <= 1 ->
  q - (1 # 2) * 2 ^ (-52) <= binary64 q <= q + (1 # 2) * 2 ^ (-52).
Proof.
  intros [H0 H1]. unfold binary64. cbv zeta.
  pose proof (Qred_correct q) as E.
  pose proof (pow2_pos (-52)) as P.
  destruct (Qnum (Qred q)) eqn:N.
  - assert (Z : Qred q == 0) by (unfold Qeq; rewrite N; reflexivity).
    lra.
  - rewrite Qred_correct.
    destruct (nearest64_error (Qred q)) as [A B].
    + unfold Qlt. rewrite N. simpl. lia.
    + lra.
    + lra.
  - exfalso. assert (Qred q < 0) by (unfold Qlt; rewrite N; simpl; lia). lra.
Qed.

(** Decimal ties that are not binary fractions fall as the [float]
    does: 1/80 is stored a little above 0.0125 and 39/80 a little below
    0.4875, while 1/16 is exact and goes to the even digit, 0.062. *)
Lemma float_quotient_ties :
  round3 (binary64 (1 / 80)) = 13 # 1000 /\
  round3 (binary64 (3 / 80)) = 37 # 1000 /\
  round3 (binary64 (39 / 80)) = 487 # 1000 /\
  round3 (binary64 (1 / 16)) = 31 # 500.
Proof. vm_compute. repeat split. Qed.

Lemma Rround3_three_decimals (x : R) : Rthree_decimals (Rround3 x).
Proof. exists (Rround_half_even (x * 1000)). reflexivity. Qed.

(** Anything within a half of an integer rounds to it. *)
Lemma Rround_half_even_near (y : R) (z : Z) :
  (IZR z - 1 / 2 < y < IZR z + 1 / 2)%R -> Rround_half_even y = z.
Proof.
  intros [Hlo Hhi]. unfold Rround_half_even.
  pose proof (Zfloor_bound y) as [Hf1 Hf2].
  assert (Hcase : Zfloor y = z \/ Zfloor y = (z - 1)%Z).
  { assert (H1 : (Zfloor y < z + 1)%Z).
    { apply lt_IZR. rewrite plus_IZR. simpl. lra. }
    assert (H2 : (z - 2 < Zfloor y)%Z).
    { apply lt_IZR. rewrite minus_IZR. simpl. lra. }
    lia. }
  destruct Hcase as [E | E]; rewrite E in *.
  - destruct (Rlt_dec (y - IZR z) (1 / 2)) as [_ | n]; [reflexivity | lra].
  - rewrite minus_IZR in *. simpl in *.
    destruct (Rlt_dec (y - (IZR z - 1)) (1 / 2)) as [l | _]; [lra |].
    destruct (Rlt_dec (1 / 2) (y - (IZR z - 1))) as [_ | n]; [lia | lra].
Qed.

Lemma Rround_half_even_IZR (z : Z) : Rround_half_even (IZR z) = z.
Proof. apply Rround_half_even_near. lra. Qed.

Lemma Rround3_exact (z : Z) : Rround3 (IZR z / 1000) = (IZR z / 1000)%R.
Proof.
  unfold Rround3.
  replace (IZR z / 1000 * 1000)%R with (IZR z) by field.
  now rewrite Rround_half_even_IZR.
Qed.

(** Rounding moves a number by at most a half, and never across an
    integer. *)
Lemma Rround_half_even_range (y : R) (a b : Z) :
  (IZR a <= y <= IZR b)%R -> (a <= Rround_half_even y <= b)%Z.
Proof.
  intros [Ha Hb]. unfold Rround_half_even.
  pose proof (Zfloor_bound y) as [Hf1 Hf2].
  assert (Hfa : (a <= Zfloor y)%Z) by now apply Zfloor_lub.
  assert (Hfb : (Zfloor y <= b)%Z) by (apply le_IZR; lra).
  assert (Hstrict : (Zfloor y = b \/ Zfloor y + 1 <= b)%Z) by lia.
  destruct (Rlt_dec (y - IZR (Zfloor y)) (1 / 2)) as [l | n]; [lia |].
  destruct Hstrict as [E | L].
  - rewrite E in *. lra.
  - destruct (Rlt_dec (1 / 2) (y - IZR (Zfloor y)));
      [| destruct (Z.even (Zfloor y))]; lia.
Qed.

Lemma Rround3_unit_interval (x : R) :
  (0 <= x <= 1)%R -> (0 <= Rround3 x <= 1)%R.
Proof.
  intros Hx. unfold Rround3.
  destruct (Rround_half_even_range (x * 1000) 0 1000) as [H0 H1].
  { simpl. lra. }
  apply IZR_le in H0, H1. lra.
Qed.

End Rounding.

(** ** The aggregation engine *)

Module AggregationProps.
Import Aggregation Spec Rounding.

Lemma ln2_pos : (0 < ln 2)%R.
Proof. rewrite <- ln_1. apply ln_increasing; lra. Qed.

Lemma Qltb_true (a b : Q) : Qltb a b = true <-> a < b.
Proof.
  unfold Qltb. rewrite negb_true_iff, <- not_true_iff_false, Qle_bool_iff.
  split; [apply Qnot_le_lt | apply Qlt_not_le].
Qed.

Lemma Qltb_false (a b : Q) : Qltb a b = false <-> b <= a.
Proof.
  unfold Qltb. rewrite negb_false_iff. apply Qle_bool_iff.
Qed.

(** The guard [percentage > 0] keeps [math.log2] inside its domain: one
    step of the entropy loop never raises. *)
Lemma entropy_step_eq (e : R) (p : Q) :
  entropy_step e p =
  Some (if Qltb 0 p then (e - Q2R p * log2 (Q2R p))%R else e).
Proof.
  unfold entropy_step. destruct (Qltb 0 p) eqn:E; [| reflexivity].
  apply Qltb_true in E. apply Qlt_Rlt in E. rewrite RMicromega.Q2R_0 in E.
  unfold math_log2. destruct (Rlt_dec 0 (Q2R p)); [reflexivity | contradiction].
Qed.

Lemma entropy_loop_total (ps : list Q) :
  forall e, exists e', entropy_loop ps e = Some e'.
Proof.
  induction ps as [| p ps IH]; intros e; simpl.
  - now exists e.
  - rewrite entropy_step_eq. simpl. apply IH.
Qed.

(** On fractions that are not negative the loop computes the entropy of
    the specification. *)
Lemma entropy_loop_shannon (ps : list Q) :
  Forall (fun p => 0 <= p) ps ->
  forall e, entropy_loop ps e = Some (e + shannon_entropy ps)%R.
Proof.
  induction 1 as [| p ps Hp _ IH]; intros e; simpl.
  - unfold shannon_entropy. simpl. f_equal. ring.
  - rewrite entropy_step_eq. simpl. rewrite IH. f_equal.
    unfold shannon_entropy. simpl.
    destruct (Qltb 0 p) eqn:E.
    + apply Qltb_true in E.
      destruct (Qeq_bool p 0) eqn:Z; simpl.
      * apply Qeq_bool_iff in Z. rewrite Z in E. now apply Qlt_irrefl in E.
      * ring.
    + apply Qltb_false in E.
      assert (Z : Qeq_bool p 0 = true)
        by (apply Qeq_bool_iff; now apply Qle_antisym).
      rewrite Z. simpl. ring.
Qed.

Lemma entropy_of_genres (genres : dict Q) :
  exists e, match genres with
            | [] => Some 0%R
            | _ => entropy_loop (values genres) 0
            end = Some e.
Proof.
  destruct genres; [now exists 0%R | apply entropy_loop_total].
Qed.

Lemma Qnat_div_50 (n : nat) :
  Qnat n / 50 * 1000 == inject_Z (20 * Z.of_nat n).
Proof. unfold Qnat. rewrite inject_Z_mult. field. Qed.

Lemma Qnat_div_50_le_1 (n : nat) : (n <= 50)%nat <-> Qnat n / 50 <= 1.
Proof.
  unfold Qnat, Qle, Qdiv, Qmult, Qinv, inject_Z. simpl. lia.
Qed.

(** Rounding leaves the artist score as it is: a multiple of [1/50] has
    two decimals. *)
Lemma round3_artist_diversity (n : nat) :
  round3 (Qmin (Qnat n / 50) 1) == Qmin (Qnat n / 50) 1.
Proof.
  destruct (Nat.le_gt_cases n 50) as [H | H].
  - assert (L : Qnat n / 50 <= 1) by now apply Qnat_div_50_le_1.
    rewrite (Q.min_l _ _ L).
    apply (round3_exact _ (20 * Z.of_nat n)), Qnat_div_50.
  - assert (L : 1 <= Qnat n / 50).
    { apply Qlt_le_weak, Qnot_le_lt. rewrite <- Qnat_div_50_le_1. lia. }
    rewrite (Q.min_r _ _ L). now apply (round3_exact _ 1000).
Qed.

(** What [calculate_diversity_scores] yields, on any input. *)
Lemma calculate_diversity_scores_eq (artists : list Artist) (genres : dict Q) :
  exists e,
    match genres with
    | [] => Some 0%R
    | _ => entropy_loop (values genres) 0
    end = Some e /\
    calculate_diversity_scores artists genres =
    Some (mkScores (round3 (Qmin (Qnat (List.length artists) / 50) 1))
                   (Rround3 (if Rlt_dec 0 e
                             then Rmin (e / (332 / 100)) 1 else 0%R))).
Proof.
  destruct (entropy_of_genres genres) as [e He]. exists e. split; [exact He |].
  unfold calculate_diversity_scores. rewrite He. reflexivity.
Qed.

(** C6: on the empty batch every function of the engine returns, and
    returns the empty map or the score 0: no statistics, no genres, no
    mood patterns, and both diversity scores 0.0. *)
Theorem empty_batch_results :
  calculate_audio_feature_stats [] = Some [] /\
  extract_genre_distribution [] = Some [] /\
  calculate_mood_patterns [] = Some [] /\
  calculate_diversity_scores [] [] = Some (mkScores 0 0%R).
Proof.
  repeat split; try reflexivity.
  unfold calculate_diversity_scores. simpl.
  destruct (Rlt_dec 0 0) as [l | _]; [lra |].
  f_equal. f_equal.
  replace 0%R with (IZR 0 / 1000)%R at 1 by lra.
  rewrite Rround3_exact. lra.
Qed.

(** C2 (as the code has it): the scenario track, with energy 0.8 above
    the 0.3-0.7 band of "focused", is counted as happy and as energetic,
    and under no other label. *)
Theorem mood_scenario_labels :
  calculate_mood_patterns [scenario_track] =
  Some [("happy", mkMoodEntry 1 1); ("energetic", mkMoodEntry 1 1)].
Proof. vm_compute. reflexivity. Qed.

(** C2 as stated fails: the scenario track is not labelled focused. *)
Lemma mood_scenario_not_focused :
  exists patterns,
    calculate_mood_patterns [scenario_track] = Some patterns /\
    get patterns "focused" = None.
Proof. eexists. split; [vm_compute; reflexivity | reflexivity]. Qed.

(** C8 (as the code has it): the artist score is [min(n / 50, 1)] for
    [n] the number of entries of the batch, whatever the genres; 50
    entries give 1.0 and 10 entries give 0.2. *)
Theorem artist_diversity_counts_entries (artists : list Artist)
    (genres : dict Q) :
  exists scores,
    calculate_diversity_scores artists genres = Some scores /\
    artist_diversity_score scores
      == Qmin (Qnat (List.length artists) / 50) 1 /\
    (List.length artists = 50%nat -> artist_diversity_score scores = 1) /\
    (List.length artists = 10%nat -> artist_diversity_score scores = 1 # 5).
Proof.
  destruct (calculate_diversity_scores_eq artists genres) as (e & _ & H).
  eexists. split; [exact H |]. simpl. split; [| split].
  - apply round3_artist_diversity.
  - intros ->. reflexivity.
  - intros ->. reflexivity.
Qed.

(** C8 as stated fails: a batch that lists one artist twice scores 0.04,
    not the 0.02 of one distinct artist. *)
Lemma artist_diversity_counts_duplicates :
  let a := mkArtist "4Z8W4fKeB5YxbusRsdQVPb" (Some ["art rock"]) in
  exists scores,
    calculate_diversity_scores [a; a] [] = Some scores /\
    artist_diversity_score scores = 1 # 25 /\
    ~ artist_diversity_score scores
      == Qmin (Qnat (distinct_artist_count [a; a]) / 50) 1.
Proof.
  intros a.
  destruct (calculate_diversity_scores_eq [a; a] []) as (e & _ & H).
  eexists. split; [exact H |]. simpl. split; [reflexivity |].
  vm_compute. discriminate.
Qed.

Lemma clamp01_cases (x : R) :
  (if Rlt_dec 0 x then Rmin (x / (332 / 100)) 1 else 0%R)
  = clamp01 (x / (332 / 100)).
Proof.
  unfold clamp01.
  destruct (Rlt_dec 0 x) as [l | n].
  - assert (0 < x / (332 / 100))%R by (apply Rdiv_lt_0_compat; lra).
    rewrite Rmax_right; [reflexivity |].
    apply Rmin_glb; lra.
  - assert (x / (332 / 100) <= 0)%R.
    { apply Rnot_lt_le in n. unfold Rdiv.
      replace 0%R with (0 * / (332 / 100))%R by ring.
      apply Rmult_le_compat_r; [| exact n].
      apply Rlt_le, Rinv_0_lt_compat. lra. }
    rewrite Rmax_left; [reflexivity |].
    apply Rle_trans with (x / (332 / 100))%R; [apply Rmin_l | assumption].
Qed.

Lemma clamp01_unit (x : R) : (0 <= clamp01 x <= 1)%R.
Proof.
  unfold clamp01. split; [apply Rmax_l |].
  apply Rmax_lub; [lra | apply Rmin_r].
Qed.

Lemma calculate_diversity_scores_spec (artists : list Artist)
    (genres : dict Q) :
  Forall (fun p => 0 <= p) (values genres) ->
  calculate_diversity_scores artists genres =
  Some (mkScores
          (round3 (Qmin (Qnat (List.length artists) / 50) 1))
          (Rround3 (clamp01 (shannon_entropy (values genres) / (332 / 100))))).
Proof.
  intros Hpos.
  destruct (calculate_diversity_scores_eq artists genres) as (e & He & H).
  assert (E : e = shannon_entropy (values genres)).
  { destruct genres as [| g genres].
    - injection He as <-. unfold shannon_entropy. simpl. ring.
    - rewrite (entropy_loop_shannon _ Hpos), Rplus_0_l in He.
      now injection He. }
  subst e. now rewrite H, clamp01_cases.
Qed.

(** C7 (as the code has it): on fractions that are not negative the mood
    diversity score is the Shannon entropy of the specification divided by
    the constant 3.32, clamped to [0,1], then rounded to three decimals;
    it lies in [0,1]. *)
Theorem mood_diversity_normalized_by_3_32 (artists : list Artist)
    (genres : dict Q) :
  Forall (fun p => 0 <= p) (values genres) ->
  exists scores,
    calculate_diversity_scores artists genres = Some scores /\
    mood_diversity_score scores
    = Rround3 (clamp01 (shannon_entropy (values genres) / (332 / 100))) /\
    (0 <= mood_diversity_score scores <= 1)%R.
Proof.
  intros Hpos. eexists.
  split; [now apply calculate_diversity_scores_spec |]. simpl.
  split; [reflexivity |].
  apply Rround3_unit_interval, clamp01_unit.
Qed.

Lemma eight_genres_nonneg : Forall (fun p => 0 <= p) (values eight_genres).
Proof. repeat constructor; unfold Qle; simpl; lia. Qed.

Lemma mood_diversity_normalized_witness :
  Forall (fun p => 0 <= p) (values eight_genres) /\
  exists scores,
    calculate_diversity_scores eight_artists eight_genres = Some scores /\
    mood_diversity_score scores
    = Rround3 (clamp01 (shannon_entropy (values eight_genres) / (332 / 100)))
    /\ (0 <= mood_diversity_score scores <= 1)%R.
Proof.
  split; [exact eight_genres_nonneg |].
  exact (mood_diversity_normalized_by_3_32 eight_artists eight_genres
           eight_genres_nonneg).
Defined.

Lemma log2_eighth : log2 (Q2R (1 # 8)) = (- 3)%R.
Proof.
  assert (E : Q2R (1 # 8) = (/ 2 ^ 3)%R) by (unfold Q2R; simpl; lra).
  rewrite E. unfold log2.
  rewrite ln_Rinv by (simpl; lra). rewrite ln_pow by lra.
  pose proof ln2_pos. simpl. field. lra.
Qed.

Lemma shannon_eight_genres : shannon_entropy (values eight_genres) = 3%R.
Proof.
  unfold shannon_entropy. simpl. rewrite log2_eighth.
  unfold Q2R. simpl. lra.
Qed.

(** Powers of two against powers of ten bound [log2 10]. *)
Lemma pow2_lt_pow10 (p q : nat) :
  (2 ^ Z.of_nat p < 10 ^ Z.of_nat q)%Z -> (INR p * ln 2 < INR q * ln 10)%R.
Proof.
  intros H. rewrite <- !ln_pow by lra.
  apply ln_increasing; [apply pow_lt; lra |].
  rewrite !pow_IZR. now apply IZR_lt.
Qed.

Lemma pow10_lt_pow2 (p q : nat) :
  (10 ^ Z.of_nat q < 2 ^ Z.of_nat p)%Z -> (INR q * ln 10 < INR p * ln 2)%R.
Proof.
  intros H. rewrite <- !ln_pow by lra.
  apply ln_increasing; [apply pow_lt; lra |].
  rewrite !pow_IZR. now apply IZR_lt.
Qed.

Lemma log2_10_bounds : (93 / 28 < log2 10 < 103 / 31)%R.
Proof.
  pose proof ln2_pos as H2.
  assert (L : (INR 93 * ln 2 < INR 28 * ln 10)%R)
    by (apply pow2_lt_pow10; reflexivity).
  assert (U : (INR 31 * ln 10 < INR 103 * ln 2)%R)
    by (apply pow10_lt_pow2; reflexivity).
  rewrite !INR_IZR_INZ in L, U. simpl in L, U.
  unfold log2. split.
  - apply Rmult_lt_reg_r with (ln 2); [assumption |].
    unfold Rdiv at 2. rewrite Rmult_assoc, Rinv_l by lra. lra.
  - apply Rmult_lt_reg_r with (ln 2); [assumption |].
    unfold Rdiv at 1. rewrite Rmult_assoc, Rinv_l by lra. lra.
Qed.

Lemma claimed_eight_genres_bounds :
  (9029 / 10000 < claimed_mood_diversity eight_genres < 9033 / 10000)%R.
Proof.
  unfold claimed_mood_diversity. rewrite shannon_eight_genres.
  destruct log2_10_bounds as [L U].
  set (x := log2 10) in *.
  assert (Hx : (0 < x)%R) by lra.
  assert (B : (9029 / 10000 < 3 / x < 9033 / 10000)%R).
  { split.
    - apply Rmult_lt_reg_r with x; [assumption |].
      unfold Rdiv at 2. rewrite Rmult_assoc, Rinv_l by lra. lra.
    - apply Rmult_lt_reg_r with x; [assumption |].
      unfold Rdiv at 1. rewrite Rmult_assoc, Rinv_l by lra. lra. }
  unfold clamp01. rewrite Rmin_left by lra. rewrite Rmax_right by lra.
  exact B.
Qed.

(** C7 as stated fails: for eight equally frequent genres the code scores
    0.904, where the entropy divided by [log2 10] is about 0.9031 and
    rounds to 0.903. *)
Lemma mood_diversity_not_log2_10 :
  exists scores,
    extract_genre_distribution eight_artists = Some eight_genres /\
    calculate_diversity_scores eight_artists eight_genres = Some scores /\
    mood_diversity_score scores = (904 / 1000)%R /\
    claimed_mood_diversity eight_genres <> (904 / 1000)%R /\
    Rround3 (claimed_mood_diversity eight_genres) = (903 / 1000)%R.
Proof.
  eexists. split; [vm_compute; reflexivity |].
  split; [apply calculate_diversity_scores_spec, eight_genres_nonneg |].
  cbn [mood_diversity_score]. rewrite shannon_eight_genres.
  pose proof claimed_eight_genres_bounds as [L U].
  split; [| split].
  - unfold clamp01. rewrite Rmin_left by lra. rewrite Rmax_right by lra.
    unfold Rround3. rewrite (Rround_half_even_near _ 904); [reflexivity |].
    lra.
  - lra.
  - unfold Rround3. rewrite (Rround_half_even_near _ 903); [reflexivity |].
    lra.
Qed.

Lemma In_firstn {A} (n : nat) (l : list A) (x : A) :
  In x (firstn n l) -> In x l.
Proof.
  revert l. induction n as [| n IH]; intros [| y l]; simpl; try tauto.
  intros [-> | H]; [now left | right; now apply IH].
Qed.

Lemma In_insert_desc (x y : string * Q) (l : list (string * Q)) :
  In x (insert_desc y l) -> x = y \/ In x l.
Proof.
  induction l as [| z l IH]; simpl.
  - intros [<- | []]. now left.
  - destruct (Qltb (snd y) (snd z)); simpl.
    + intros [<- | H]; [right; now left |].
      destruct (IH H); [now left | right; now right].
    + intros [<- | H]; [now left | now right].
Qed.

Lemma In_sorted_desc (x : string * Q) (l : list (string * Q)) :
  In x (sorted_desc l) -> In x l.
Proof.
  induction l as [| y l IH]; simpl; [tauto |].
  intros H. destruct (In_insert_desc _ _ _ H) as [-> | H'];
    [now left | right; now apply IH].
Qed.

Lemma In_normalize (genre_counts : dict nat) (total : nat) (d : dict Q)
    (genre : string) (p : Q) :
  normalize genre_counts total = Some d -> In (genre, p) d ->
  exists count, In (genre, count) genre_counts /\
                p = round3 (binary64 (Qnat count / Qnat total)).
Proof.
  revert d. induction genre_counts as [| [g c] rest IH]; simpl; intros d.
  - intros [= <-] [].
  - unfold float_div. destruct (Qeq_bool (Qnat total) 0); [discriminate |].
    simpl. destruct (normalize rest total) as [rest' |]; [| discriminate].
    simpl. intros [= <-] [[= <- <-] | H].
    + exists c. split; [now left | reflexivity].
    + destruct (IH _ eq_refl H) as (c' & Hin & E).
      exists c'. split; [now right | exact E].
Qed.

Lemma In_to_patterns (mood_counts : dict nat) (total : nat)
    (d : dict MoodEntry) (mood : string) (e : MoodEntry) :
  to_patterns mood_counts total = Some d -> In (mood, e) d ->
  In (mood, track_count e) mood_counts /\
  percentage e = round3 (binary64 (Qnat (track_count e) / Qnat total)).
Proof.
  revert d. induction mood_counts as [| [m c] rest IH]; simpl; intros d.
  - intros [= <-] [].
  - destruct (0 <? c)%nat.
    + unfold float_div. destruct (Qeq_bool (Qnat total) 0); [discriminate |].
      simpl. destruct (to_patterns rest total) as [rest' |]; [| discriminate].
      simpl. intros [= <-] [[= <- <-] | H].
      * split; [now left | reflexivity].
      * destruct (IH _ eq_refl H) as [Hin E]. split; [now right | exact E].
    + intros Hd H. destruct (IH _ Hd H) as [Hin E].
      split; [now right | exact E].
Qed.

Lemma Qnat_nonzero (n : nat) : n <> 0%nat -> Qeq_bool (Qnat n) 0 = false.
Proof. destruct n; [contradiction | reflexivity]. Qed.

(** The division guarded by the early return never raises. *)
Lemma normalize_total (genre_counts : dict nat) (total : nat) :
  total <> 0%nat -> exists d, normalize genre_counts total = Some d.
Proof.
  intros H. induction genre_counts as [| [g c] rest [d IH]]; simpl.
  - now exists [].
  - unfold float_div. rewrite (Qnat_nonzero _ H). simpl. rewrite IH. simpl.
    eauto.
Qed.

Lemma to_patterns_total (mood_counts : dict nat) (total : nat) :
  total <> 0%nat -> exists d, to_patterns mood_counts total = Some d.
Proof.
  intros H. induction mood_counts as [| [m c] rest [d IH]]; simpl.
  - now exists [].
  - destruct (0 <? c)%nat; [| eauto].
    unfold float_div. rewrite (Qnat_nonzero _ H). simpl. rewrite IH. simpl.
    eauto.
Qed.

Lemma extract_genre_distribution_total (artists : list Artist) :
  exists dist, extract_genre_distribution artists = Some dist.
Proof.
  unfold extract_genre_distribution.
  destruct (count_genres artists) as [genre_counts total].
  destruct (total =? 0)%nat eqn:E; [eauto |].
  apply Nat.eqb_neq in E.
  destruct (normalize_total genre_counts total E) as [d ->].
  unfold bind. eauto.
Qed.

Lemma calculate_mood_patterns_total (tracks : list Features) :
  exists patterns, calculate_mood_patterns tracks = Some patterns.
Proof.
  unfold calculate_mood_patterns.
  destruct (List.length tracks =? 0)%nat eqn:E; [eauto |].
  apply Nat.eqb_neq in E. now apply to_patterns_total.
Qed.

(** C10 (as the code has it): the genre fractions, the mood percentages
    and both diversity scores are results of rounding to three decimals,
    the fractions and percentages being rounded from the [float] quotient
    of a count by a total, so that genre fractions may add up to 0.999
    rather than 1; the track count stored with a mood is the counter
    itself. *)
Theorem fractions_rounded_to_three_decimals :
  (forall artists,
      exists dist,
        extract_genre_distribution artists = Some dist /\
        forall genre p,
          In (genre, p) dist ->
          three_decimals p /\
          exists count total : nat, p = round3 (binary64 (Qnat count / Qnat total))) /\
  (forall tracks,
      exists patterns,
        calculate_mood_patterns tracks = Some patterns /\
        forall mood e,
          In (mood, e) patterns ->
          three_decimals (percentage e) /\
          percentage e
          = round3 (binary64 (Qnat (track_count e)
                              / Qnat (List.length tracks))) /\
          In (mood, track_count e)
             (fold_left classify tracks mood_counts0)) /\
  (forall artists genres,
      exists scores,
        calculate_diversity_scores artists genres = Some scores /\
        three_decimals (artist_diversity_score scores) /\
        Rthree_decimals (mood_diversity_score scores)) /\
  (exists artists dist,
      extract_genre_distribution artists = Some dist /\
      Qsum (values dist) == 999 # 1000).
Proof.
  split; [| split; [| split]].
  - intros artists.
    destruct (extract_genre_distribution_total artists) as [dist Hd].
    exists dist. split; [exact Hd |]. revert Hd.
    unfold extract_genre_distribution.
    destruct (count_genres artists) as [genre_counts total].
    destruct (total =? 0)%nat; [intros [= <-] ? ? [] |].
    destruct (normalize genre_counts total) as [d |] eqn:N; [| discriminate].
    unfold bind. intros [= <-] genre p H.
    apply (In_firstn 10 (sorted_desc d)), In_sorted_desc in H.
    destruct (In_normalize _ _ _ _ _ N H) as (c & _ & ->).
    split; [apply round3_three_decimals | now exists c, total].
  - intros tracks.
    destruct (calculate_mood_patterns_total tracks) as [patterns Hp].
    exists patterns. split; [exact Hp |]. revert Hp.
    unfold calculate_mood_patterns.
    destruct (List.length tracks =? 0)%nat; [intros [= <-] ? ? [] |].
    intros T mood e H. destruct (In_to_patterns _ _ _ _ _ T H) as [Hin E].
    rewrite E at 1. split; [apply round3_three_decimals |]. now split.
  - intros artists genres.
    destruct (calculate_diversity_scores_eq artists genres) as (e & _ & E).
    eexists. split; [exact E |]. simpl.
    split; [apply round3_three_decimals | apply Rround3_three_decimals].
  - exists [mkArtist "x" (Some ["rock"; "pop"; "jazz"])]. eexists.
    split; [vm_compute; reflexivity | reflexivity].
Qed.

End AggregationProps.

(** ** Feature statistics *)

Module StatsProps.
Import Aggregation Spec Rounding.

Lemma get_set_same {V} (d : dict V) (k : string) (v : V) :
  get (set d k v) k = Some v.
Proof.
  induction d as [| [k0 v0] d IH]; simpl.
  - now rewrite String.eqb_refl.
  - destruct (String.eqb k0 k) eqn:E; simpl; now rewrite E.
Qed.

Lemma get_set_other {V} (d : dict V) (k k' : string) (v : V) :
  k <> k' -> get (set d k v) k' = get d k'.
Proof.
  intros N. apply String.eqb_neq in N.
  induction d as [| [k0 v0] d IH]; simpl.
  - now rewrite N.
  - destruct (String.eqb k0 k) eqn:E; simpl.
    + apply String.eqb_eq in E. subst k0. now rewrite N.
    + now rewrite IH.
Qed.

Lemma append_inj (p a b : string) : p ++ a = p ++ b -> a = b.
Proof.
  induction p as [| c p IH]; simpl; [auto |].
  intros [= H]. now apply IH.
Qed.

(** Keys of different features never collide. *)
Lemma stat_keys_disjoint (f g k : string) :
  In k (stat_keys f) -> In k (stat_keys g) -> f = g.
Proof.
  unfold stat_keys. simpl.
  intros [<- | [<- | [<- | [<- | []]]]] [H | [H | [H | [H | []]]]];
    simpl in H; try discriminate H;
    injection H as H; now symmetry.
Qed.

Lemma stats_step_spec (batch : list Features) (stats : dict R) (f : string) :
  match feature_values f batch with
  | [] => stats_step batch stats f = Some stats
  | v :: vs =>
      exists s,
        (vs = [] -> s = 0%R) /\
        stats_step batch stats f =
        Some (set (set (set (set stats
                ("avg_" ++ f)
                (Q2R (Qsum (v :: vs) / Qnat (List.length (v :: vs)))))
                ("std_" ++ f) s)
                ("min_" ++ f) (Q2R (fold_left Qmin vs v)))
                ("max_" ++ f) (Q2R (fold_left Qmax vs v)))
  end.
Proof.
  unfold stats_step.
  destruct (feature_values f batch) as [| v [| v' vs]]; [reflexivity | |].
  - exists 0%R. split; reflexivity.
  - eexists. split; [discriminate | reflexivity].
Qed.

Lemma stats_step_total (batch : list Features) (stats : dict R) (f : string) :
  exists stats', stats_step batch stats f = Some stats'.
Proof.
  pose proof (stats_step_spec batch stats f) as H.
  destruct (feature_values f batch); [eauto |].
  destruct H as (s & _ & H). eauto.
Qed.

Lemma stats_step_other (batch : list Features) (stats stats' : dict R)
    (f k : string) :
  stats_step batch stats f = Some stats' -> ~ In k (stat_keys f) ->
  get stats' k = get stats k.
Proof.
  intros H N. pose proof (stats_step_spec batch stats f) as S.
  destruct (feature_values f batch).
  - congruence.
  - destruct S as (s & _ & S). rewrite S in H. injection H as <-.
    unfold stat_keys in N. simpl in N.
    rewrite !get_set_other; [reflexivity | | | |]; intros E; apply N; auto.
Qed.

Lemma stats_loop_total (batch : list Features) (fs : list string) :
  forall stats, exists stats', stats_loop batch fs stats = Some stats'.
Proof.
  induction fs as [| f fs IH]; intros stats; simpl; [eauto |].
  destruct (stats_step_total batch stats f) as [s1 ->]. apply IH.
Qed.

Lemma stats_loop_other (batch : list Features) (fs : list string) (k : string) :
  (forall f, In f fs -> ~ In k (stat_keys f)) ->
  forall stats stats',
    stats_loop batch fs stats = Some stats' -> get stats' k = get stats k.
Proof.
  induction fs as [| f fs IH]; intros N stats stats'; simpl.
  - now intros [= <-].
  - destruct (stats_step batch stats f) as [s1 |] eqn:E; [| discriminate].
    simpl. intros H.
    rewrite (IH (fun g Hg => N g (or_intror Hg)) _ _ H).
    apply (stats_step_other _ _ _ _ _ E), N. now left.
Qed.

(** The entry of a feature is the one its own step wrote. *)
Lemma stats_loop_get (batch : list Features) (fs : list string) (f k : string) :
  NoDup fs -> In f fs -> In k (stat_keys f) ->
  forall stats stats',
    stats_loop batch fs stats = Some stats' ->
    exists stats0 stats1,
      stats_step batch stats0 f = Some stats1 /\ get stats' k = get stats1 k.
Proof.
  intros ND. induction ND as [| g fs Hg ND IH]; intros Hf Hk stats stats';
    simpl; [destruct Hf |].
  destruct (stats_step batch stats g) as [s1 |] eqn:E; [| discriminate].
  simpl. intros H. destruct Hf as [-> | Hf].
  - exists stats, s1. split; [exact E |].
    apply (stats_loop_other batch fs k); [| exact H].
    intros g Hin Hkg. apply Hg.
    now rewrite (stat_keys_disjoint _ _ _ Hk Hkg).
  - now apply (IH Hf Hk s1).
Qed.

(** With the guards of the loop body in place the statistics never
    raise. *)
Lemma calculate_audio_feature_stats_total (batch : list Features) :
  exists stats, calculate_audio_feature_stats batch = Some stats.
Proof.
  unfold calculate_audio_feature_stats.
  destruct batch; [eauto | apply stats_loop_total].
Qed.

Lemma features_to_analyze_NoDup : NoDup features_to_analyze.
Proof.
  unfold features_to_analyze.
  repeat (constructor; [simpl; intuition discriminate |]). constructor.
Qed.

Lemma Qmin_cases (x a : Q) : Qmin x a = x \/ Qmin x a = a.
Proof.
  unfold Qmin, GenericMinMax.gmin. destruct (x ?= a); auto.
Qed.

Lemma Qmax_cases (x a : Q) : Qmax x a = x \/ Qmax x a = a.
Proof.
  unfold Qmax, GenericMinMax.gmax. destruct (x ?= a); auto.
Qed.

Lemma fold_min_spec (t : list Q) :
  forall x,
    In (fold_left Qmin t x) (x :: t) /\
    forall v, In v (x :: t) -> fold_left Qmin t x <= v.
Proof.
  induction t as [| a t IH]; intros x; simpl.
  - split; [now left | intros v [<- | []]; apply Qle_refl].
  - destruct (IH (Qmin x a)) as [Hin Hle]. split.
    + destruct Hin as [E | Hin]; [| now right; right].
      rewrite <- E. destruct (Qmin_cases x a) as [-> | ->]; auto.
    + assert (Hm : fold_left Qmin t (Qmin x a) <= Qmin x a)
        by (apply Hle; now left).
      intros v [<- | [<- | Hv]].
      * eapply Qle_trans; [exact Hm | apply Q.le_min_l].
      * eapply Qle_trans; [exact Hm | apply Q.le_min_r].
      * apply Hle. now right.
Qed.

Lemma fold_max_spec (t : list Q) :
  forall x,
    In (fold_left Qmax t x) (x :: t) /\
    forall v, In v (x :: t) -> v <= fold_left Qmax t x.
Proof.
  induction t as [| a t IH]; intros x; simpl.
  - split; [now left | intros v [<- | []]; apply Qle_refl].
  - destruct (IH (Qmax x a)) as [Hin Hle]. split.
    + destruct Hin as [E | Hin]; [| now right; right].
      rewrite <- E. destruct (Qmax_cases x a) as [-> | ->]; auto.
    + assert (Hm : Qmax x a <= fold_left Qmax t (Qmax x a))
        by (apply Hle; now left).
      intros v [<- | [<- | Hv]].
      * eapply Qle_trans; [apply Q.le_max_l | exact Hm].
      * eapply Qle_trans; [apply Q.le_max_r | exact Hm].
      * apply Hle. now right.
Qed.

Lemma Qnat_S (n : nat) : Qnat (S n) == Qnat n + 1.
Proof.
  unfold Qnat. rewrite Nat2Z.inj_succ. unfold Z.succ.
  now rewrite inject_Z_plus.
Qed.

Lemma Qnat_pos (n : nat) : 0 < Qnat (S n).
Proof. unfold Qnat, Qlt. simpl. lia. Qed.

Lemma Qsum_bounds (vs : list Q) (lo hi : Q) :
  (forall v, In v vs -> lo <= v <= hi) ->
  lo * Qnat (List.length vs) <= Qsum vs <= hi * Qnat (List.length vs).
Proof.
  induction vs as [| v vs IH]; intros H.
  - cbn [List.length Qsum fold_right]. change (Qnat 0) with 0. split; lra.
  - destruct IH as [IH1 IH2]; [intros u Hu; apply H; now right |].
    destruct (H v (or_introl eq_refl)) as [H1 H2].
    cbn [List.length Qsum fold_right]. fold (Qsum vs).
    rewrite Qnat_S. split; lra.
Qed.

(** The mean of a list lies between any bounds of its elements. *)
Lemma mean_bounds (vs : list Q) (lo hi : Q) :
  vs <> [] -> (forall v, In v vs -> lo <= v <= hi) ->
  lo <= Qsum vs / Qnat (List.length vs) <= hi.
Proof.
  intros Hne H. destruct (Qsum_bounds vs lo hi H) as [H1 H2].
  destruct vs as [| v vs]; [congruence |].
  pose proof (Qnat_pos (List.length vs)) as Hpos.
  split.
  - apply Qle_shift_div_l; assumption.
  - apply Qle_shift_div_r; assumption.
Qed.

(** The values a statistic is computed from are those of the tracks that
    report the feature; where the key is missing nothing is substituted. *)
Lemma feature_values_reports (f : string) (batch : list Features) :
  feature_values f batch
  = map (fun track => get_default track f 0) (filter (reports f) batch).
Proof.
  unfold feature_values, reports, get_default.
  induction batch as [| t batch IH]; simpl; [reflexivity |].
  destruct (get t f) eqn:E; simpl; rewrite IH; [now rewrite E | reflexivity].
Qed.

(** C9: for a tracked feature that some track of the batch reports, the
    statistics are computed from the values of the reporting tracks only:
    the stored mean is their exact mean and lies between the stored
    minimum and maximum, which are the least and greatest of these values,
    and the stored deviation is 0.0 when there is exactly one of them. *)
Theorem feature_stats_over_reported_values (batch : list Features)
    (feature : string) :
  In feature features_to_analyze ->
  (exists track, In track batch /\ reports feature track = true) ->
  let vs := map (fun track => get_default track feature 0)
                (filter (reports feature) batch) in
  exists stats mean lo hi,
    calculate_audio_feature_stats batch = Some stats /\
    get stats ("avg_" ++ feature) = Some (Q2R mean) /\
    get stats ("min_" ++ feature) = Some (Q2R lo) /\
    get stats ("max_" ++ feature) = Some (Q2R hi) /\
    mean = Qsum vs / Qnat (List.length vs) /\
    In lo vs /\ In hi vs /\ (forall v, In v vs -> lo <= v <= hi) /\
    lo <= mean <= hi /\
    (Q2R lo <= Q2R mean <= Q2R hi)%R /\
    (List.length vs = 1%nat -> get stats ("std_" ++ feature) = Some 0%R).
Proof.
  intros Hf (track & Hin & Hrep) vs.
  assert (Hvs : feature_values feature batch = vs)
    by apply feature_values_reports.
  assert (Hne : vs <> []).
  { subst vs. intros E. apply map_eq_nil in E.
    assert (Ht : In track (filter (reports feature) batch))
      by (apply filter_In; now split).
    rewrite E in Ht. destruct Ht. }
  assert (Hb : batch <> []) by (intros ->; destruct Hin).
  destruct (stats_loop_total batch features_to_analyze []) as [stats Hs].
  assert (Hc : calculate_audio_feature_stats batch = Some stats).
  { unfold calculate_audio_feature_stats. destruct batch; congruence. }
  assert (Hget : forall k, In k (stat_keys feature) ->
            exists stats0 stats1,
              stats_step batch stats0 feature = Some stats1 /\
              get stats k = get stats1 k).
  { intros k Hk.
    exact (stats_loop_get batch _ feature k features_to_analyze_NoDup
             Hf Hk _ _ Hs). }
  unfold stat_keys in Hget.
  destruct (Hget ("avg_" ++ feature)) as (a0 & a1 & Ha & Ga); [simpl; auto |].
  destruct (Hget ("std_" ++ feature)) as (s0 & s1 & Hsd & Gs); [simpl; auto |].
  destruct (Hget ("min_" ++ feature)) as (m0 & m1 & Hm & Gm); [simpl; auto |].
  destruct (Hget ("max_" ++ feature)) as (x0 & x1 & Hx & Gx); [simpl; auto |].
  clear Hget.
  pose proof (stats_step_spec batch a0 feature) as Sa.
  pose proof (stats_step_spec batch s0 feature) as Ss.
  pose proof (stats_step_spec batch m0 feature) as Sm.
  pose proof (stats_step_spec batch x0 feature) as Sx.
  rewrite Hvs in Sa, Ss, Sm, Sx.
  destruct vs as [| v vs'] eqn:Evs; [congruence |].
  destruct Sa as (sa & _ & Sa). destruct Ss as (ss & Hzero & Ss).
  destruct Sm as (sm & _ & Sm). destruct Sx as (sx & _ & Sx).
  rewrite Sa in Ha. rewrite Ss in Hsd. rewrite Sm in Hm. rewrite Sx in Hx.
  injection Ha as <-. injection Hsd as <-.
  injection Hm as <-. injection Hx as <-.
  destruct (fold_min_spec vs' v) as [Imin Lmin].
  destruct (fold_max_spec vs' v) as [Imax Lmax].
  assert (Hbounds : forall u, In u (v :: vs') ->
            fold_left Qmin vs' v <= u <= fold_left Qmax vs' v)
    by (intros u Hu; split; [now apply Lmin | now apply Lmax]).
  assert (Hmean : fold_left Qmin vs' v
                  <= Qsum (v :: vs') / Qnat (List.length (v :: vs'))
                  <= fold_left Qmax vs' v)
    by (apply mean_bounds; [discriminate | exact Hbounds]).
  exists stats, (Qsum (v :: vs') / Qnat (List.length (v :: vs'))),
    (fold_left Qmin vs' v), (fold_left Qmax vs' v).
  split; [exact Hc |]. split.
  { rewrite Ga. rewrite !get_set_other by (simpl; discriminate).
    apply get_set_same. }
  split.
  { rewrite Gm. rewrite get_set_other by (simpl; discriminate).
    apply get_set_same. }
  split; [rewrite Gx; apply get_set_same |].
  split; [reflexivity |].
  split; [exact Imin |]. split; [exact Imax |].
  split; [exact Hbounds |]. split; [exact Hmean |].
  split; [split; apply Qle_Rle; apply Hmean |].
  intros Hlen. rewrite Gs.
  rewrite !get_set_other by (simpl; discriminate).
  rewrite get_set_same. f_equal. apply Hzero.
  destruct vs'; [reflexivity | discriminate Hlen].
Qed.

Lemma feature_stats_witness :
  exists stats mean lo hi,
    calculate_audio_feature_stats [scenario_track] = Some stats /\
    get stats "avg_valence" = Some (Q2R mean) /\
    get stats "min_valence" = Some (Q2R lo) /\
    get stats "max_valence" = Some (Q2R hi) /\
    lo <= mean <= hi /\
    get stats "std_valence" = Some 0%R.
Proof.
  assert (H1 : In "valence" features_to_analyze) by (simpl; auto).
  assert (H2 : exists track,
             In track [scenario_track] /\ reports "valence" track = true)
    by (exists scenario_track; split; [now left | reflexivity]).
  destruct (feature_stats_over_reported_values [scenario_track] "valence"
              H1 H2)
    as (stats & mean & lo & hi & Hc & Ga & Gm & Gx & _ & _ & _ & _ & Hb
        & _ & Hs).
  exists stats, mean, lo, hi.
  repeat split; try assumption; try apply Hb.
  apply Hs. reflexivity.
Defined.

(** C10 as stated fails: the feature statistics are fractional values of
    the engine too, and they are not rounded; two tracks of valence 0.428
    and 0.429 have the mean 0.4285. *)
Lemma feature_statistics_not_rounded :
  exists stats avg,
    calculate_audio_feature_stats two_tracks = Some stats /\
    get stats "avg_valence" = Some avg /\
    avg = (4285 / 10000)%R /\
    ~ Rthree_decimals avg.
Proof.
  assert (E : forall r, r = (4285 / 10000)%R ->
                        r = (4285 / 10000)%R /\ ~ Rthree_decimals r).
  { intros r ->. split; [reflexivity |]. intros [z Hz].
    assert (H : IZR (2 * z) = IZR 857) by (rewrite mult_IZR; lra).
    apply eq_IZR in H. lia. }
  eexists. eexists. split; [reflexivity |]. split; [reflexivity |].
  apply E. simpl. unfold Q2R. simpl. lra.
Qed.

End StatsProps.

(** ** The task bodies *)

Module TaskProps.
Import Aggregation Store Celery Tasks Spec.

Ltac unfold_task :=
  cbv [insight_run tracked_run ingest_listening_data generate_wellness_insight
       generate_roast generate_productivity_insight tracked_insight_body
       ingest_body productivity_body job_handler fail_job run try_finally
       try_except tbind ret raise emit get_job set_job commit_job update_job
       insert_job aware_le_naive wellness_prompt roast_prompt
       l_job l_in_session
       call call_opt option_map fst snd returned].

(** Split on the outcome of the next call the body is waiting for. *)
Ltac split_outcome :=
  match goal with
  | |- context [match ?x with _ => _ end] =>
      lazymatch x with
      | context [match _ with _ => _ end] => fail
      | _ => destruct x eqn:?
      end
  end.

Ltac split_outcomes := repeat (split_outcome; cbv beta iota zeta).

Lemma query_upsert_job (j : BackgroundJob) (l : list BackgroundJob)
    (id : UUID) :
  job_id j = id ->
  find (fun x => String.eqb (job_id x) id) (upsert_job j l) = Some j.
Proof.
  intros <-. induction l as [| a l IH]; simpl.
  - now rewrite String.eqb_refl.
  - destruct (String.eqb (job_id a) (job_id j)) eqn:E; simpl.
    + now rewrite String.eqb_refl.
    + now rewrite E.
Qed.

Lemma insertable_iff (db : Db) (users : list UUID) (j : BackgroundJob) :
  insertable db users j = true <->
  (forall x, In x (jobs db) ->
             job_id x <> job_id j /\ celery_task_id x <> celery_task_id j) /\
  match job_user_id j with
  | Some u => In u users
  | None => True
  end.
Proof.
  unfold insertable. rewrite andb_true_iff, negb_true_iff. split.
  - intros [Hn Hu]. split.
    + intros x Hx.
      assert (E : (String.eqb (job_id x) (job_id j)
                   || String.eqb (celery_task_id x) (celery_task_id j))
                  = false).
      { destruct (String.eqb (job_id x) (job_id j)
                  || String.eqb (celery_task_id x) (celery_task_id j)) eqn:E;
          [| reflexivity].
        assert (X : existsb
                      (fun x => String.eqb (job_id x) (job_id j)
                                || String.eqb (celery_task_id x)
                                              (celery_task_id j))
                      (jobs db) = true)
          by (apply existsb_exists; eauto).
        congruence. }
      apply orb_false_iff in E. destruct E as [E1 E2].
      split; now apply String.eqb_neq.
    + destruct (job_user_id j) as [u |]; [| exact I].
      apply existsb_exists in Hu. destruct Hu as (y & Hy & E).
      apply String.eqb_eq in E. now subst y.
  - intros [Hn Hu]. split.
    + destruct (existsb _ (jobs db)) eqn:E; [| reflexivity].
      apply existsb_exists in E. destruct E as (x & Hx & E).
      destruct (Hn x Hx) as [N1 N2].
      apply String.eqb_neq in N1, N2. rewrite N1, N2 in E. discriminate.
    + destruct (job_user_id j) as [u |]; [| reflexivity].
      apply existsb_exists. exists u. split; [exact Hu |].
      apply String.eqb_refl.
Qed.

Lemma first_attempt_insertable (w : World) (j : BackgroundJob) :
  first_attempt w ->
  job_id j = w_new_job_id w ->
  celery_task_id j = w_request_id w ->
  match job_user_id j with
  | Some u => In u (w_users w)
  | None => True
  end ->
  insertable (w_db w) (w_users w) j = true.
Proof.
  intros F E1 E2 Hu. apply insertable_iff. split; [| exact Hu].
  intros x Hx. rewrite E1, E2. now apply F.
Qed.

(** On a first attempt the insert goes through. *)
Ltac accept_insert w F U :=
  match goal with
  | |- context [insertable (w_db w) (w_users w) ?j] =>
      rewrite (first_attempt_insertable w j F eq_refl eq_refl U)
  end.

(** C1 (as the code has it): a run of a job-keeping task that creates its
    record commits one record, first as running and then once or twice
    with one terminal status: running, success when the body returns;
    running, failed or running, failed, failed when it raises.  (A run
    whose insert the table refuses creates no record.) *)
Theorem job_status_sequence (w : World) (i : Invocation) :
  creates_job_record (fst (tracked_run w i)) ->
  Forall (fun j => job_id j = w_new_job_id w)
         (job_commits (fst (tracked_run w i))) /\
  ((snd (tracked_run w i) = true /\
    job_statuses (fst (tracked_run w i)) = [running; success]) \/
   (snd (tracked_run w i) = false /\
    (job_statuses (fst (tracked_run w i)) = [running; failed] \/
     job_statuses (fst (tracked_run w i)) = [running; failed; failed]))).
Proof.
  unfold creates_job_record.
  destruct i; unfold_task; split_outcomes; intros H;
    first [ exfalso; apply H; reflexivity
          | split; [repeat constructor | simpl; auto] ].
Qed.

Lemma job_status_sequence_witness :
  let i := Roast "00000000-0000-4000-8000-00000000b000" in
  let w := sample_world db_with_snapshot in
  creates_job_record (fst (tracked_run w i)) /\
  job_statuses (fst (tracked_run w i)) = [running; success].
Proof.
  intros i w.
  assert (H : creates_job_record (fst (tracked_run w i)))
    by (intros K; vm_compute in K; discriminate K).
  split; [exact H |].
  destruct (job_status_sequence w i H) as [_ [[_ E] | [E _]]];
    [exact E | vm_compute in E; discriminate E].
Defined.

(** C1 as stated fails: the record is never stored as pending, and on the
    missing-credential path failed is committed twice. *)
Lemma job_status_sequence_has_no_pending :
  let returns :=
    job_statuses (fst (tracked_run (sample_world db_with_snapshot)
                                   (Roast "00000000-0000-4000-8000-00000000b000"))) in
  let raises :=
    job_statuses (fst (tracked_run (sample_world empty_db)
                                   (Ingest "00000000-0000-4000-8000-00000000a001" "medium_term"))) in
  returns = [running; success] /\
  returns <> [pending; running; success] /\
  raises = [running; failed; failed] /\
  raises <> [pending; running; failed].
Proof. vm_compute. repeat split; discriminate. Qed.

Lemma retried_spotify (e : PyExc) (retries : nat) :
  retried SpotifyTask e retries = (retries <? 3)%nat.
Proof. unfold retried. simpl. now destruct (exc_class e). Qed.


(** C3 (as the code has it): on the first attempt for a registered user
    without a stored credential, the ingestion task fails its job with
    the message "No Spotify token found for user", stores no snapshot,
    and raises [ValueError]; the task class retries every [Exception],
    so this failure is sent again like any other, up to three times. *)
Theorem missing_credential_fails_job (w : World)
    (user_id time_range : string) (u : UUID) :
  w_uuid w user_id = Some u ->
  In u (w_users w) ->
  first_attempt w ->
  query_token (w_db w) u = None ->
  let run := ingest_listening_data w user_id time_range in
  let e := mkExc ValueError "No Spotify token found for user" in
  snd run = Raise e /\
  job_statuses (fst run) = [running; failed; failed] /\
  (exists job,
      query_job (apply_effects (w_db w) (fst run)) (w_new_job_id w)
      = Some job /\
      status job = failed /\
      error_message job = Some "No Spotify token found for user") /\
  snapshots (apply_effects (w_db w) (fst run)) = snapshots (w_db w) /\
  retried SpotifyTask e 0 = true /\
  (forall retries, retried SpotifyTask e retries = (retries <? 3)%nat).
Proof.
  intros Hu Hreg Hfirst Ht run e. subst run e.
  unfold_task. rewrite Hu. cbv beta iota zeta.
  accept_insert w Hfirst Hreg.
  cbv beta iota zeta. rewrite Ht. cbv beta iota zeta.
  split; [reflexivity |]. split; [reflexivity |]. split.
  - eexists. split.
    + unfold query_job, apply_effects. simpl.
      apply query_upsert_job. reflexivity.
    + split; reflexivity.
  - split; [reflexivity |]. split; [reflexivity |].
    intros retries. apply retried_spotify.
Qed.

Lemma missing_credential_witness :
  let w := sample_world empty_db in
  let user := "00000000-0000-4000-8000-00000000a001" in
  w_uuid w user = Some user /\
  In user (w_users w) /\
  first_attempt w /\
  query_token (w_db w) user = None /\
  job_statuses (fst (ingest_listening_data w user "medium_term"))
  = [running; failed; failed].
Proof.
  intros w user.
  assert (Hu : w_uuid w user = Some user) by (vm_compute; reflexivity).
  assert (Hr : In user (w_users w)) by (left; reflexivity).
  assert (Hf : first_attempt w) by (intros j []).
  assert (Ht : query_token (w_db w) user = None) by reflexivity.
  split; [exact Hu |]. split; [exact Hr |]. split; [exact Hf |].
  split; [exact Ht |].
  exact (proj1 (proj2 (missing_credential_fails_job
                         w user "medium_term" user Hu Hr Hf Ht))).
Defined.

(** C3 as stated fails: the failure for a missing credential is retried. *)
Lemma missing_credential_is_retried :
  exists e,
    snd (ingest_listening_data (sample_world empty_db)
                               "00000000-0000-4000-8000-00000000a001" "medium_term")
    = Raise e /\
    exc_msg e = "No Spotify token found for user" /\
    retried SpotifyTask e 0 = true.
Proof. eexists. vm_compute. repeat split. Qed.




(** C5 (where the code departs from it): the productivity task commits
    no job record on any run; on a stored snapshot it commits the insight
    and returns its id, where the roast task on the same input also
    commits its job as running and then success. *)
Theorem productivity_insight_keeps_no_job :
  (forall w snapshot_id,
      job_commits (fst (generate_productivity_insight w snapshot_id)) = [] /\
      jobs (apply_effects (w_db w)
              (fst (generate_productivity_insight w snapshot_id)))
      = jobs (w_db w)) /\
  (let w := sample_world db_with_snapshot in
   let id := "00000000-0000-4000-8000-00000000b000" in
   let run := generate_productivity_insight w id in
   snd run = Return (mkInsightReturn "00000000-0000-4000-8000-00000000c001" id 1200) /\
   List.length (insight_commits (fst run)) = 1%nat /\
   job_commits (fst run) = [] /\
   job_statuses (fst (generate_roast w id)) = [running; success]).
Proof.
  split.
  - intros w snapshot_id. unfold_task. split_outcomes; split; reflexivity.
  - vm_compute. repeat split.
Qed.

End TaskProps.

(** ** Mood classification *)

Module MoodProps.
Import Aggregation Spec Rounding AggregationProps MoodRules.

Lemma round_half_even_range (y : Q) (a b : Z) :
  inject_Z a <= y <= inject_Z b -> (a <= round_half_even y <= b)%Z.
Proof.
  intros [Ha Hb]. unfold round_half_even.
  assert (Hfa : (a <= Qfloor y)%Z).
  { rewrite <- (Qfloor_Z a). now apply Qfloor_resp_le. }
  assert (Hfb : (Qfloor y <= b)%Z).
  { rewrite <- (Qfloor_Z b). now apply Qfloor_resp_le. }
  pose proof (Qfloor_le y) as Hf.
  destruct (Qcompare (y - inject_Z (Qfloor y)) (1 # 2)) eqn:C; [| lia |].
  - apply Qeq_alt in C.
    assert (L : inject_Z (Qfloor y) < inject_Z b) by lra.
    rewrite <- Zlt_Qlt in L. destruct (Z.even (Qfloor y)); lia.
  - apply Qgt_alt in C.
    assert (L : inject_Z (Qfloor y) < inject_Z b) by lra.
    rewrite <- Zlt_Qlt in L. lia.
Qed.

Lemma round3_unit_interval (x : Q) : 0 <= x <= 1 -> 0 <= round3 x <= 1.
Proof.
  intros Hx. rewrite round3_spec.
  destruct (round_half_even_range (x * 1000) 0 1000) as [H0 H1].
  { change (inject_Z 0) with 0. change (inject_Z 1000) with 1000. lra. }
  rewrite Zle_Qle in H0, H1.
  change (inject_Z 0) with 0 in H0. change (inject_Z 1000) with 1000 in H1.
  split.
  - apply Qle_shift_div_l; lra.
  - apply Qle_shift_div_r; lra.
Qed.

Lemma happy_not_sad (t : Features) : is_happy t = true -> is_sad t = false.
Proof.
  unfold is_happy, is_sad. rewrite andb_true_iff. intros [H _].
  apply Qltb_true in H. apply andb_false_iff. left. apply Qltb_false. lra.
Qed.

Lemma energetic_not_calm (t : Features) :
  is_energetic t = true -> is_calm t = false.
Proof.
  unfold is_energetic, is_calm. rewrite andb_true_iff. intros [H _].
  apply Qltb_true in H. apply andb_false_iff. left. apply Qltb_false. lra.
Qed.

(** One pass of the loop body adds to each counter whether its rule
    holds: the [elif]s never keep a label from a track that satisfies it. *)
Lemma classify_step (h s e c f o : nat) (t : Features) :
  classify [("happy", h); ("sad", s); ("energetic", e); ("calm", c);
            ("focused", f); ("other", o)] t
  = [("happy", h + b2n (is_happy t)); ("sad", s + b2n (is_sad t));
     ("energetic", e + b2n (is_energetic t)); ("calm", c + b2n (is_calm t));
     ("focused", f + b2n (is_focused t)); ("other", o + b2n (is_other t))]%nat.
Proof.
  pose proof (happy_not_sad t) as HS. pose proof (energetic_not_calm t) as EC.
  unfold classify, is_other.
  fold (feature t "valence") (feature t "energy")
       (feature t "danceability") (feature t "acousticness")
       (feature t "speechiness").
  fold (is_happy t) (is_sad t) (is_energetic t) (is_calm t) (is_focused t).
  destruct (is_happy t), (is_sad t), (is_energetic t), (is_calm t),
    (is_focused t);
    try (specialize (HS eq_refl); discriminate HS);
    try (specialize (EC eq_refl); discriminate EC);
    cbn; repeat rewrite Nat.add_0_r; reflexivity.
Qed.

Lemma count_tracks_cons (rule : Features -> bool) (t : Features)
    (tracks : list Features) :
  count_tracks rule (t :: tracks)
  = (b2n (rule t) + count_tracks rule tracks)%nat.
Proof. unfold count_tracks. simpl. now destruct (rule t). Qed.

Lemma classify_fold (tracks : list Features) :
  forall h s e c f o : nat,
    fold_left classify tracks
      [("happy", h); ("sad", s); ("energetic", e); ("calm", c);
       ("focused", f); ("other", o)]
    = [("happy", h + count_tracks is_happy tracks);
       ("sad", s + count_tracks is_sad tracks);
       ("energetic", e + count_tracks is_energetic tracks);
       ("calm", c + count_tracks is_calm tracks);
       ("focused", f + count_tracks is_focused tracks);
       ("other", o + count_tracks is_other tracks)]%nat.
Proof.
  induction tracks as [| t tracks IH]; intros h s e c f o.
  - simpl. unfold count_tracks. simpl. now rewrite !Nat.add_0_r.
  - cbn [fold_left]. rewrite classify_step, IH, !count_tracks_cons.
    now rewrite !Nat.add_assoc.
Qed.

Lemma fold_classify_rule_counts (tracks : list Features) :
  fold_left classify tracks mood_counts0 = rule_counts tracks.
Proof. unfold mood_counts0. now rewrite classify_fold. Qed.

(** The counters the loop of [calculate_mood_patterns] ends with are, label
    by label, the numbers of tracks that satisfy the label's own rule;
    "other" counts the tracks that satisfy none of the five. *)
Theorem mood_counts_follow_rules (tracks : list Features) :
  fold_left classify tracks mood_counts0 = rule_counts tracks.
Proof. apply fold_classify_rule_counts. Qed.

Lemma to_patterns_In (mood_counts : dict nat) (total : nat)
    (d : dict MoodEntry) (mood : string) (e : MoodEntry) :
  to_patterns mood_counts total = Some d ->
  In (mood, e) d <->
  In (mood, track_count e) mood_counts /\ (0 < track_count e)%nat /\
  percentage e = round3 (binary64 (Qnat (track_count e) / Qnat total)).
Proof.
  revert d. induction mood_counts as [| [m c] rest IH]; simpl; intros d.
  - intros [= <-]. simpl. tauto.
  - destruct (0 <? c)%nat eqn:Hc.
    + unfold float_div. destruct (Qeq_bool (Qnat total) 0); [discriminate |].
      simpl. destruct (to_patterns rest total) as [rest' |]; [| discriminate].
      simpl. intros [= <-]. specialize (IH _ eq_refl). simpl.
      rewrite IH. apply Nat.ltb_lt in Hc. split.
      * intros [[= <- <-] | H]; [simpl; auto | tauto].
      * intros ([E | H] & Hpos & Hp); [| tauto].
        left. destruct e as [p c']. simpl in *.
        injection E as -> ->. now subst p.
    + intros Hd. rewrite (IH _ Hd). apply Nat.ltb_ge in Hc. split.
      * tauto.
      * intros ([E | H] & Hpos & Hp); [| tauto].
        injection E as _ E. lia.
Qed.

Lemma count_tracks_le (rule : Features -> bool) (tracks : list Features) :
  (count_tracks rule tracks <= List.length tracks)%nat.
Proof.
  unfold count_tracks. induction tracks as [| t tracks IH]; simpl; [lia |].
  destruct (rule t); simpl; lia.
Qed.

Lemma Qnat_le (a b : nat) : (a <= b)%nat -> Qnat a <= Qnat b.
Proof. intros H. unfold Qnat. rewrite <- Zle_Qle. lia. Qed.

Lemma Qnat_ratio_unit (c n : nat) :
  (c <= n)%nat -> (0 < n)%nat -> 0 <= Qnat c / Qnat n <= 1.
Proof.
  intros Hc Hn.
  assert (Hpos : 0 < Qnat n).
  { unfold Qnat. change 0 with (inject_Z 0). rewrite <- Zlt_Qlt. lia. }
  pose proof (Qnat_le c n Hc) as Hle.
  assert (H0 : 0 <= Qnat c) by (apply (Qnat_le 0 c); lia).
  split.
  - apply Qle_shift_div_l; [assumption | lra].
  - apply Qle_shift_div_r; [assumption | lra].
Qed.

(** X1: A label is listed exactly when some track satisfies its rule; it is
    listed with the number of those tracks, between 1 and the size of the
    batch, and with that number's share of the batch, rounded to three
    decimals from the [float] quotient, which lies in [0,1]. *)
Theorem mood_patterns_listing (tracks : list Features) :
  exists patterns,
    calculate_mood_patterns tracks = Some patterns /\
    (forall mood e,
        In (mood, e) patterns <->
        exists rule,
          In (mood, rule) mood_rules /\
          track_count e = count_tracks rule tracks /\
          (0 < track_count e)%nat /\
          percentage e
          = round3 (binary64 (Qnat (track_count e)
                              / Qnat (List.length tracks)))) /\
    (forall mood e,
        In (mood, e) patterns ->
        (1 <= track_count e <= List.length tracks)%nat /\
        0 <= percentage e <= 1).
Proof.
  destruct (calculate_mood_patterns_total tracks) as [patterns Hp].
  exists patterns. split; [exact Hp |].
  assert (Hiff : forall mood e,
             In (mood, e) patterns <->
             exists rule,
               In (mood, rule) mood_rules /\
               track_count e = count_tracks rule tracks /\
               (0 < track_count e)%nat /\
               percentage e
               = round3 (binary64 (Qnat (track_count e)
                              / Qnat (List.length tracks)))).
  { intros mood e. revert Hp. unfold calculate_mood_patterns.
    rewrite fold_classify_rule_counts.
    destruct (List.length tracks =? 0)%nat eqn:E.
    - intros [= <-]. apply Nat.eqb_eq in E.
      apply length_zero_iff_nil in E. subst tracks. split; [intros [] |].
      intros (rule & _ & Hc & Hpos & _). unfold count_tracks in Hc.
      simpl in Hc. lia.
    - intros T. rewrite (to_patterns_In _ _ _ mood e T).
      unfold rule_counts. rewrite in_map_iff. split.
      + intros (([m rule] & [= <- Hc] & Hin) & Hpos & Hq).
        exists rule. simpl in Hc. auto.
      + intros (rule & Hin & Hc & Hpos & Hq). split; [| now split].
        exists (mood, rule). simpl. split; [now rewrite Hc | exact Hin]. }
  split; [exact Hiff |].
  intros mood e H. apply Hiff in H. destruct H as (rule & _ & Hc & Hpos & Hq).
  pose proof (count_tracks_le rule tracks) as Hle. rewrite <- Hc in Hle.
  split; [lia |]. rewrite Hq.
  apply round3_unit_interval, binary64_unit_interval, Qnat_ratio_unit; lia.
Qed.

Lemma labels_per_track (t : Features) :
  (b2n (is_happy t) + b2n (is_sad t) + b2n (is_other t) <= 1 /\
   b2n (is_energetic t) + b2n (is_calm t) + b2n (is_other t) <= 1 /\
   b2n (is_focused t) + b2n (is_other t) <= 1 /\
   1 <= b2n (is_happy t) + b2n (is_sad t) + b2n (is_energetic t)
        + b2n (is_calm t) + b2n (is_focused t) + b2n (is_other t) <= 3)%nat.
Proof.
  pose proof (happy_not_sad t) as HS. pose proof (energetic_not_calm t) as EC.
  unfold is_other.
  destruct (is_happy t), (is_sad t), (is_energetic t), (is_calm t),
    (is_focused t);
    try (specialize (HS eq_refl); discriminate HS);
    try (specialize (EC eq_refl); discriminate EC);
    simpl; lia.
Qed.

Lemma rule_accounting (tracks : list Features) :
  let n := List.length tracks in
  let count rule := count_tracks rule tracks in
  (count is_happy + count is_sad + count is_other <= n /\
   count is_energetic + count is_calm + count is_other <= n /\
   count is_focused + count is_other <= n /\
   n <= count is_happy + count is_sad + count is_energetic + count is_calm
        + count is_focused + count is_other <= 3 * n)%nat.
Proof.
  cbv zeta. induction tracks as [| t tracks IH].
  - unfold count_tracks. simpl. lia.
  - rewrite !count_tracks_cons. cbn [List.length].
    pose proof (labels_per_track t). lia.
Qed.

(** X2: The six counters the loop of [calculate_mood_patterns] ends with:
    a track is counted under at most one of happy and sad, at most one of
    energetic and calm, possibly under focused, and under "other" only
    when under none of these, so that the counters add up to between one
    and three times the number of tracks. *)
Theorem mood_label_accounting (tracks : list Features) :
  let n := List.length tracks in
  let counters := fold_left classify tracks mood_counts0 in
  let count label := get_default counters label 0%nat in
  (count "happy" + count "sad" + count "other" <= n /\
   count "energetic" + count "calm" + count "other" <= n /\
   count "focused" + count "other" <= n /\
   n <= count "happy" + count "sad" + count "energetic" + count "calm"
        + count "focused" + count "other" <= 3 * n)%nat.
Proof.
  cbv zeta. rewrite fold_classify_rule_counts.
  assert (E1 : get_default (rule_counts tracks) "happy" 0%nat
               = count_tracks is_happy tracks) by reflexivity.
  assert (E2 : get_default (rule_counts tracks) "sad" 0%nat
               = count_tracks is_sad tracks) by reflexivity.
  assert (E3 : get_default (rule_counts tracks) "energetic" 0%nat
               = count_tracks is_energetic tracks) by reflexivity.
  assert (E4 : get_default (rule_counts tracks) "calm" 0%nat
               = count_tracks is_calm tracks) by reflexivity.
  assert (E5 : get_default (rule_counts tracks) "focused" 0%nat
               = count_tracks is_focused tracks) by reflexivity.
  assert (E6 : get_default (rule_counts tracks) "other" 0%nat
               = count_tracks is_other tracks) by reflexivity.
  rewrite E1, E2, E3, E4, E5, E6.
  exact (rule_accounting tracks).
Qed.

End MoodProps.

(** ** Genre distribution *)

Module GenreProps.
Import Aggregation Spec Rounding AggregationProps StatsProps MoodProps GenreTags.

Lemma fold_left_flat_map {A B C} (f : A -> C -> A) (g : B -> list C)
    (l : list B) :
  forall a, fold_left f (flat_map g l) a
            = fold_left (fun acc x => fold_left f (g x) acc) l a.
Proof.
  induction l as [| x l IH]; intros a; simpl; [reflexivity |].
  now rewrite fold_left_app, IH.
Qed.

Lemma keys_set {V} (d : dict V) (k : string) (v : V) :
  map fst (set d k v)
  = if existsb (String.eqb k) (map fst d) then map fst d
    else (map fst d ++ [k])%list.
Proof.
  induction d as [| [k' v'] d IH]; simpl; [reflexivity |].
  rewrite (String.eqb_sym k k').
  destruct (String.eqb k' k) eqn:E; simpl; [reflexivity |].
  rewrite IH. now destruct (existsb (String.eqb k) (map fst d)).
Qed.

Lemma existsb_eqb_In (k : string) (l : list string) :
  existsb (String.eqb k) l = true <-> In k l.
Proof.
  rewrite existsb_exists. split.
  - intros (x & Hx & E). apply String.eqb_eq in E. now subst.
  - intros H. exists k. split; [exact H | apply String.eqb_refl].
Qed.

Lemma get_default_set (d : dict nat) (k h : string) (v : nat) :
  get_default (set d k v) h 0%nat
  = if String.eqb k h then v else get_default d h 0%nat.
Proof.
  unfold get_default. destruct (String.eqb k h) eqn:E.
  - apply String.eqb_eq in E. subst. now rewrite get_set_same.
  - apply String.eqb_neq in E. now rewrite get_set_other.
Qed.

(** The state of the counting loop after a list of tags. *)
Lemma count_genre_fold (tags : list string) :
  forall (gc : dict nat) (tot : nat),
    let '(gc', tot') := fold_left count_genre tags (gc, tot) in
    tot' = (tot + List.length tags)%nat /\
    map fst gc'
    = fold_left (fun seen g => if existsb (String.eqb g) seen
                               then seen else (seen ++ [g])%list)
                tags (map fst gc) /\
    forall g, get_default gc' g 0%nat
              = (get_default gc g 0 + count_occ string_dec tags g)%nat.
Proof.
  induction tags as [| t tags IH]; intros gc tot.
  - simpl. repeat split; lia.
  - cbn [fold_left count_genre].
    specialize (IH (set gc t (get_default gc t 0 + 1)%nat) (tot + 1)%nat).
    destruct (fold_left count_genre tags _) as [gc' tot'].
    destruct IH as (Ht & Hk & Hc). split; [simpl; lia |]. split.
    + rewrite Hk, keys_set. reflexivity.
    + intros g. rewrite Hc, get_default_set. simpl.
      destruct (string_dec t g) as [-> | N].
      * rewrite String.eqb_refl. lia.
      * apply String.eqb_neq in N. rewrite N. lia.
Qed.

Lemma first_seen_fold (tags : list string) :
  forall seen,
    NoDup seen ->
    let out := fold_left (fun seen g => if existsb (String.eqb g) seen
                                        then seen else (seen ++ [g])%list)
                         tags seen in
    NoDup out /\ forall g, In g out <-> In g seen \/ In g tags.
Proof.
  induction tags as [| t tags IH]; intros seen ND; simpl.
  - split; [exact ND | tauto].
  - destruct (existsb (String.eqb t) seen) eqn:E.
    + destruct (IH seen ND) as [H1 H2]. split; [exact H1 |].
      intros g. rewrite H2. apply existsb_eqb_In in E.
      split; [tauto |]. intros [H | [<- | H]]; auto.
    + assert (Hn : ~ In t seen).
      { intros H. apply existsb_eqb_In in H. congruence. }
      assert (ND' : NoDup (seen ++ [t])).
      { apply NoDup_app; [exact ND | repeat constructor; auto |].
        intros x Hx [<- | []]. contradiction. }
      destruct (IH _ ND') as [H1 H2]. split; [exact H1 |].
      intros g. rewrite H2, in_app_iff. simpl. tauto.
Qed.

Lemma first_seen_NoDup (tags : list string) : NoDup (first_seen tags).
Proof. apply (first_seen_fold tags [] (NoDup_nil _)). Qed.

Lemma first_seen_In (tags : list string) (g : string) :
  In g (first_seen tags) <-> In g tags.
Proof.
  destruct (first_seen_fold tags [] (NoDup_nil _)) as [_ H].
  rewrite (H g). simpl. tauto.
Qed.

(** A dictionary is determined by its keys and its lookups. *)
Lemma dict_of_keys (d : dict nat) :
  NoDup (map fst d) ->
  d = map (fun k => (k, get_default d k 0%nat)) (map fst d).
Proof.
  induction d as [| [k v] d IH]; simpl; intros ND; [reflexivity |].
  inversion ND as [| ? ? Hk ND']; subst.
  unfold get_default at 1. simpl. rewrite String.eqb_refl. f_equal.
  rewrite (IH ND') at 1. apply map_ext_in. intros k' Hin.
  unfold get_default. simpl.
  destruct (String.eqb k k') eqn:E; [| reflexivity].
  apply String.eqb_eq in E. subst. contradiction.
Qed.

Lemma count_genres_eq (artists : list Artist) :
  count_genres artists
  = (map (fun g => (g, count_occ string_dec (all_tags artists) g))
         (first_seen (all_tags artists)),
     List.length (all_tags artists)).
Proof.
  unfold count_genres. rewrite <- fold_left_flat_map.
  fold (all_tags artists).
  pose proof (count_genre_fold (all_tags artists) [] 0%nat) as H.
  match type of H with
  | (let '(_, _) := ?r in _) =>
      change (r = (map (fun g =>
                          (g, count_occ string_dec (all_tags artists) g))
                       (first_seen (all_tags artists)),
                   List.length (all_tags artists)));
      destruct r as [gc tot]
  end.
  destruct H as (Ht & Hk & Hc).
  simpl in Ht, Hk. fold (first_seen (all_tags artists)) in Hk.
  subst tot. f_equal.
  rewrite (dict_of_keys gc) by (rewrite Hk; apply first_seen_NoDup).
  rewrite Hk. apply map_ext. intros g. now rewrite Hc.
Qed.

Lemma normalize_eq (genre_counts : dict nat) (total : nat) :
  total <> 0%nat ->
  normalize genre_counts total
  = Some (map (fun gc => (fst gc, round3 (binary64 (Qnat (snd gc) / Qnat total))))
              genre_counts).
Proof.
  intros H. induction genre_counts as [| [g c] rest IH]; simpl;
    [reflexivity |].
  unfold float_div. rewrite (Qnat_nonzero _ H). simpl. now rewrite IH.
Qed.

(** The function as a whole: the ten first entries of the stable sort of
    every tag's rounded share. *)
Lemma extract_genre_distribution_eq (artists : list Artist) :
  extract_genre_distribution artists
  = Some (firstn 10 (sorted_desc (all_fractions artists))).
Proof.
  unfold extract_genre_distribution. rewrite count_genres_eq.
  destruct (List.length (all_tags artists) =? 0)%nat eqn:E.
  - apply Nat.eqb_eq, length_zero_iff_nil in E.
    unfold all_fractions. now rewrite E.
  - apply Nat.eqb_neq in E. rewrite (normalize_eq _ _ E). unfold bind.
    rewrite map_map. reflexivity.
Qed.

Lemma insert_desc_perm (x : string * Q) (l : list (string * Q)) :
  Permutation (insert_desc x l) (x :: l).
Proof.
  induction l as [| y l IH]; simpl; [reflexivity |].
  destruct (Qltb (snd x) (snd y)); [| reflexivity].
  rewrite IH. apply perm_swap.
Qed.

Lemma sorted_desc_perm (l : list (string * Q)) :
  Permutation (sorted_desc l) l.
Proof.
  induction l as [| x l IH]; simpl; [reflexivity |].
  now rewrite insert_desc_perm, IH.
Qed.

Lemma insert_desc_HdRel (a x : string * Q) (l : list (string * Q)) :
  HdRel (fun u v => snd v <= snd u) a l -> snd x <= snd a ->
  HdRel (fun u v => snd v <= snd u) a (insert_desc x l).
Proof.
  intros H Hx. destruct l as [| y l]; simpl; [now constructor |].
  destruct (Qltb (snd x) (snd y)); constructor; [| assumption].
  now inversion H.
Qed.

Lemma insert_desc_sorted (x : string * Q) (l : list (string * Q)) :
  Sorted (fun u v => snd v <= snd u) l ->
  Sorted (fun u v => snd v <= snd u) (insert_desc x l).
Proof.
  induction l as [| y l IH]; simpl; intros H.
  - repeat constructor.
  - apply Sorted_inv in H. destruct H as [Hs Hh].
    destruct (Qltb (snd x) (snd y)) eqn:E.
    + apply Qltb_true in E. constructor; [now apply IH |].
      apply insert_desc_HdRel; [assumption | now apply Qlt_le_weak].
    + apply Qltb_false in E. repeat constructor; assumption.
Qed.

Lemma sorted_desc_sorted (l : list (string * Q)) :
  non_increasing (sorted_desc l).
Proof.
  apply Sorted_StronglySorted.
  - intros u v w Huv Hvw. eapply Qle_trans; eassumption.
  - induction l as [| x l IH]; simpl; [constructor |].
    now apply insert_desc_sorted.
Qed.

Lemma StronglySorted_app {A} (R : A -> A -> Prop) (l1 l2 : list A) :
  StronglySorted R (l1 ++ l2) ->
  StronglySorted R l1 /\ forall a b, In a l1 -> In b l2 -> R a b.
Proof.
  induction l1 as [| x l1 IH]; simpl; intros H.
  - split; [constructor | intros ? ? []].
  - apply StronglySorted_inv in H. destruct H as [Hs Hf].
    destruct (IH Hs) as [H1 H2]. split.
    + constructor; [exact H1 |].
      rewrite Forall_forall in *. intros y Hy. apply Hf, in_or_app. now left.
    + intros a b [<- | Ha] Hb; [| now apply H2].
      rewrite Forall_forall in Hf. apply Hf, in_or_app. now right.
Qed.

(** Sorting never moves an entry past another of the same fraction. *)
Lemma filter_insert_desc (q : Q) (x : string * Q) (l : list (string * Q)) :
  filter (fun e => Qeq_bool (snd e) q) (insert_desc x l)
  = filter (fun e => Qeq_bool (snd e) q) (x :: l).
Proof.
  induction l as [| y l IH]; [reflexivity |].
  cbn [insert_desc]. destruct (Qltb (snd x) (snd y)) eqn:E; [| reflexivity].
  cbn [filter] in *. rewrite IH.
  destruct (Qeq_bool (snd x) q) eqn:Ex, (Qeq_bool (snd y) q) eqn:Ey;
    try reflexivity.
  apply Qltb_true in E. apply Qeq_bool_iff in Ex, Ey.
  rewrite Ex, Ey in E. now apply Qlt_irrefl in E.
Qed.

Lemma filter_sorted_desc (q : Q) (l : list (string * Q)) :
  filter (fun e => Qeq_bool (snd e) q) (sorted_desc l)
  = filter (fun e => Qeq_bool (snd e) q) l.
Proof.
  induction l as [| x l IH]; [reflexivity |].
  cbn [sorted_desc fold_right]. fold (sorted_desc l).
  rewrite filter_insert_desc. cbn [filter]. now rewrite IH.
Qed.

Lemma count_occ_le_length (l : list string) (g : string) :
  (count_occ string_dec l g <= List.length l)%nat.
Proof.
  induction l as [| x l IH]; simpl; [lia |].
  destruct (string_dec x g); lia.
Qed.

Lemma all_fractions_keys (artists : list Artist) :
  map fst (all_fractions artists) = first_seen (all_tags artists).
Proof.
  unfold all_fractions. rewrite map_map. simpl. apply map_id.
Qed.

Lemma In_all_fractions (artists : list Artist) (g : string) (p : Q) :
  In (g, p) (all_fractions artists) <->
  In g (all_tags artists) /\ p = tag_fraction artists g.
Proof.
  unfold all_fractions. rewrite in_map_iff. split.
  - intros (h & [= <- <-] & Hin). now rewrite <- first_seen_In.
  - intros [Hin ->]. exists g. now rewrite first_seen_In.
Qed.

Lemma tag_fraction_unit (artists : list Artist) (g : string) :
  In g (all_tags artists) -> 0 <= tag_fraction artists g <= 1.
Proof.
  intros Hin. unfold tag_fraction.
  apply round3_unit_interval, binary64_unit_interval, Qnat_ratio_unit.
  - apply count_occ_le_length.
  - destruct (all_tags artists); [destruct Hin | simpl; lia].
Qed.

Lemma sorted_split (artists : list Artist) :
  let sorted := sorted_desc (all_fractions artists) in
  sorted = (firstn 10 sorted ++ skipn 10 sorted)%list.
Proof. cbv zeta. now rewrite firstn_skipn. Qed.

(** X3: Each listed genre is a tag of some artist, listed once, with the
    share of its occurrences among all tag occurrences of the batch (not
    among the artists), rounded to three decimals from the [float]
    quotient; the share lies in [0,1]. *)
Theorem genre_fractions_of_tag_occurrences (artists : list Artist) :
  exists dist,
    extract_genre_distribution artists = Some dist /\
    NoDup (map fst dist) /\
    forall genre p,
      In (genre, p) dist ->
      In genre (all_tags artists) /\
      p = round3 (binary64
                    (Qnat (count_occ string_dec (all_tags artists) genre)
                     / Qnat (List.length (all_tags artists)))) /\
      0 <= p <= 1.
Proof.
  eexists. split; [apply extract_genre_distribution_eq |].
  set (sorted := sorted_desc (all_fractions artists)).
  assert (ND : NoDup (map fst sorted)).
  { apply (Permutation_NoDup (l := map fst (all_fractions artists))).
    - apply Permutation_map. symmetry. apply sorted_desc_perm.
    - rewrite all_fractions_keys. apply first_seen_NoDup. }
  split.
  - rewrite <- (firstn_skipn 10 sorted), map_app in ND.
    now apply NoDup_app_remove_r in ND.
  - intros genre p H. apply In_firstn in H.
    apply (Permutation_in _ (sorted_desc_perm _)) in H.
    apply In_all_fractions in H. destruct H as [Hin ->].
    split; [exact Hin |]. split; [reflexivity |].
    now apply tag_fraction_unit.
Qed.

(** X4: The result lists at most ten genres by non-increasing fraction; a tag
    is left out only when ten are listed, none of them with a smaller
    fraction than the tag's rounded share; with at most ten distinct tags
    none is left out. *)
Theorem genre_distribution_top_ten (artists : list Artist) :
  exists dist,
    extract_genre_distribution artists = Some dist /\
    (List.length dist <= 10)%nat /\
    non_increasing dist /\
    (forall genre,
        In genre (all_tags artists) -> ~ In genre (map fst dist) ->
        List.length dist = 10%nat /\
        forall h p, In (h, p) dist -> tag_fraction artists genre <= p) /\
    ((List.length (first_seen (all_tags artists)) <= 10)%nat ->
     forall genre,
       In genre (all_tags artists) ->
       In (genre, tag_fraction artists genre) dist).
Proof.
  eexists. split; [apply extract_genre_distribution_eq |].
  set (sorted := sorted_desc (all_fractions artists)).
  pose proof (sorted_desc_sorted (all_fractions artists)) as Hs.
  fold sorted in Hs. unfold non_increasing in *.
  rewrite <- (firstn_skipn 10 sorted) in Hs.
  apply StronglySorted_app in Hs. destruct Hs as [Hs1 Hs2].
  assert (Hmem : forall genre,
             In genre (all_tags artists) ->
             In (genre, tag_fraction artists genre) sorted).
  { intros genre Hin.
    apply (Permutation_in _ (Permutation_sym (sorted_desc_perm _))).
    now apply In_all_fractions. }
  split; [apply firstn_le_length |]. split; [exact Hs1 |]. split.
  - intros genre Hin Hout. specialize (Hmem genre Hin).
    rewrite <- (firstn_skipn 10 sorted) in Hmem.
    apply in_app_or in Hmem. destruct Hmem as [H | H].
    { exfalso. apply Hout.
      change genre with (fst (genre, tag_fraction artists genre)).
      now apply in_map. }
    split.
    + apply firstn_length_le.
      destruct (Nat.le_gt_cases 10 (List.length sorted)) as [L | L];
        [exact L |].
      rewrite skipn_all2 in H by lia. destruct H.
    + intros h p Hp. apply (Hs2 _ _ Hp H).
  - intros Hlen genre Hin. specialize (Hmem genre Hin).
    rewrite firstn_all2; [exact Hmem |].
    unfold sorted.
    rewrite (Permutation_length (sorted_desc_perm _)).
    unfold all_fractions. now rewrite length_map.
Qed.

(** X5: Among the listed genres, those of one and the same rounded share
    stand in the order in which the counting loop first met them. *)
Theorem genre_ties_in_first_seen_order (artists : list Artist) (q : Q) :
  exists dist rest,
    extract_genre_distribution artists = Some dist /\
    listed_with q (all_fractions artists)
    = (listed_with q dist ++ rest)%list.
Proof.
  eexists. eexists. split; [apply extract_genre_distribution_eq |].
  unfold listed_with.
  rewrite <- (filter_sorted_desc q (all_fractions artists)).
  rewrite <- (firstn_skipn 10 (sorted_desc (all_fractions artists))) at 1.
  rewrite filter_app, map_app. reflexivity.
Qed.

End GenreProps.

(** ** More on the statistics and the diversity scores *)

Module EngineProps.
Import Aggregation Spec Rounding AggregationProps StatsProps MoodProps.

Lemma get_set_cases {V} (d : dict V) (k k' : string) (v x : V) :
  get (set d k v) k' = Some x -> k = k' \/ get d k' = Some x.
Proof.
  destruct (string_dec k k') as [-> | N]; [now left |].
  rewrite get_set_other by assumption. now right.
Qed.

Lemma stats_step_key (batch : list Features) (stats stats' : dict R)
    (f k : string) (x : R) :
  stats_step batch stats f = Some stats' -> get stats' k = Some x ->
  (exists y, get stats k = Some y) \/
  (In k (stat_keys f) /\ feature_values f batch <> []).
Proof.
  intros H G. pose proof (stats_step_spec batch stats f) as S.
  destruct (feature_values f batch) as [| v vs].
  - left. exists x. congruence.
  - destruct S as (s & _ & S). rewrite S in H. injection H as <-.
    unfold stat_keys. simpl.
    repeat (apply get_set_cases in G; destruct G as [<- | G];
            [right; split; [tauto | discriminate] |]).
    left. now exists x.
Qed.

Lemma stats_loop_key (batch : list Features) (fs : list string) (k : string) :
  forall stats stats' x,
    stats_loop batch fs stats = Some stats' -> get stats' k = Some x ->
    (exists y, get stats k = Some y) \/
    exists f, In f fs /\ In k (stat_keys f) /\ feature_values f batch <> [].
Proof.
  induction fs as [| f fs IH]; intros stats stats' x; simpl.
  - intros [= <-] G. left. now exists x.
  - destruct (stats_step batch stats f) as [s1 |] eqn:E; [| discriminate].
    simpl. intros H G.
    destruct (IH _ _ _ H G) as [[y Gy] | (g & Hg & Hk & Hv)].
    + destruct (stats_step_key _ _ _ _ _ _ E Gy) as [Hy | [Hk Hv]];
        [now left | right; exists f; auto].
    + right. exists g. auto.
Qed.

Lemma feature_values_nonempty (f : string) (batch : list Features) :
  feature_values f batch <> [] ->
  exists track, In track batch /\ reports f track = true.
Proof.
  rewrite feature_values_reports. intros H.
  destruct (filter (reports f) batch) as [| t l] eqn:E; [now destruct H |].
  assert (Hin : In t (filter (reports f) batch)) by (rewrite E; now left).
  apply filter_In in Hin. now exists t.
Qed.

(** X6: The statistics map holds a key only for one of the eight tracked
    features that some track of the batch reports: a feature no track
    reports gets no entry at all, rather than statistics of zeros. *)
Theorem statistics_only_for_reported_features (batch : list Features)
    (stats : dict R) (k : string) (x : R) :
  calculate_audio_feature_stats batch = Some stats ->
  get stats k = Some x ->
  exists feature track,
    In feature features_to_analyze /\ In k (stat_keys feature) /\
    In track batch /\ reports feature track = true.
Proof.
  unfold calculate_audio_feature_stats. intros H G.
  destruct batch as [| t batch]; [injection H as <-; discriminate G |].
  destruct (stats_loop_key _ _ _ _ _ _ H G) as [[y Gy] | (f & Hf & Hk & Hv)];
    [discriminate Gy |].
  destruct (feature_values_nonempty _ _ Hv) as (track & Hin & Hr).
  now exists f, track.
Qed.

Lemma statistics_only_for_reported_witness :
  exists feature track,
    In feature features_to_analyze /\
    In "avg_valence" (stat_keys feature) /\
    In track [scenario_track] /\ reports feature track = true.
Proof.
  destruct (calculate_audio_feature_stats_total [scenario_track])
    as [stats Hs].
  assert (G : exists x, get stats "avg_valence" = Some x).
  { revert Hs. unfold calculate_audio_feature_stats. intros Hs.
    destruct (stats_loop_get [scenario_track] _ "valence" "avg_valence"
                features_to_analyze_NoDup) with (3 := Hs)
      as (s0 & s1 & Hstep & Hget); [simpl; auto | simpl; auto |].
    pose proof (stats_step_spec [scenario_track] s0 "valence") as S.
    simpl in S. destruct S as (s & _ & S). rewrite S in Hstep.
    injection Hstep as <-. rewrite Hget.
    rewrite !get_set_other by discriminate. rewrite get_set_same. eauto. }
  destruct G as [x G].
  exact (statistics_only_for_reported_features
           [scenario_track] stats "avg_valence" x Hs G).
Defined.

Lemma stats_step_entries (batch : list Features) (stats : dict R)
    (f : string) (v : Q) (vs : list Q) :
  feature_values f batch = v :: vs ->
  exists s,
    (if (1 <? List.length (v :: vs))%nat
     then statistics_stdev (v :: vs) else Some 0%R) = Some s /\
    stats_step batch stats f =
    Some (set (set (set (set stats
            ("avg_" ++ f)
            (Q2R (Qsum (v :: vs) / Qnat (List.length (v :: vs)))))
            ("std_" ++ f) s)
            ("min_" ++ f) (Q2R (fold_left Qmin vs v)))
            ("max_" ++ f) (Q2R (fold_left Qmax vs v))).
Proof.
  intros E. unfold stats_step. rewrite E.
  destruct vs as [| v' vs]; eexists; split; reflexivity.
Qed.

(** The four entries of a reported feature, read back from the map. *)
Lemma stats_entries (batch : list Features) (feature : string) (v : Q)
    (vs : list Q) :
  In feature features_to_analyze ->
  feature_values feature batch = v :: vs ->
  exists stats s,
    calculate_audio_feature_stats batch = Some stats /\
    (if (1 <? List.length (v :: vs))%nat
     then statistics_stdev (v :: vs) else Some 0%R) = Some s /\
    get stats ("avg_" ++ feature)
    = Some (Q2R (Qsum (v :: vs) / Qnat (List.length (v :: vs)))) /\
    get stats ("std_" ++ feature) = Some s /\
    get stats ("min_" ++ feature) = Some (Q2R (fold_left Qmin vs v)) /\
    get stats ("max_" ++ feature) = Some (Q2R (fold_left Qmax vs v)).
Proof.
  intros Hf Hv.
  destruct (stats_loop_total batch features_to_analyze []) as [stats Hs].
  assert (Hb : batch <> []) by (intros ->; discriminate Hv).
  assert (Hc : calculate_audio_feature_stats batch = Some stats).
  { unfold calculate_audio_feature_stats. destruct batch; congruence. }
  assert (Hget : forall k, In k (stat_keys feature) ->
            exists stats0 stats1,
              stats_step batch stats0 feature = Some stats1 /\
              get stats k = get stats1 k).
  { intros k Hk.
    exact (stats_loop_get batch _ feature k features_to_analyze_NoDup
             Hf Hk _ _ Hs). }
  unfold stat_keys in Hget.
  destruct (stats_step_entries batch [] feature v vs Hv) as (s & Hsd & _).
  exists stats, s. split; [exact Hc |]. split; [exact Hsd |].
  repeat split.
  - destruct (Hget ("avg_" ++ feature)) as (a0 & a1 & Ha & ->);
      [simpl; auto |].
    destruct (stats_step_entries batch a0 feature v vs Hv) as (s' & _ & S).
    rewrite S in Ha. injection Ha as <-.
    rewrite !get_set_other by (simpl; discriminate). apply get_set_same.
  - destruct (Hget ("std_" ++ feature)) as (a0 & a1 & Ha & ->);
      [simpl; auto |].
    destruct (stats_step_entries batch a0 feature v vs Hv) as (s' & Hs' & S).
    rewrite S in Ha. injection Ha as <-.
    rewrite !get_set_other by (simpl; discriminate).
    rewrite get_set_same. congruence.
  - destruct (Hget ("min_" ++ feature)) as (a0 & a1 & Ha & ->);
      [simpl; auto |].
    destruct (stats_step_entries batch a0 feature v vs Hv) as (s' & _ & S).
    rewrite S in Ha. injection Ha as <-.
    rewrite !get_set_other by (simpl; discriminate). apply get_set_same.
  - destruct (Hget ("max_" ++ feature)) as (a0 & a1 & Ha & ->);
      [simpl; auto |].
    destruct (stats_step_entries batch a0 feature v vs Hv) as (s' & _ & S).
    rewrite S in Ha. injection Ha as <-. apply get_set_same.
Qed.

Lemma Qsum_constant (l : list Q) (v : Q) :
  (forall x, In x l -> x == v) -> Qsum l == v * Qnat (List.length l).
Proof.
  induction l as [| x l IH]; intros H.
  - simpl. change (Qnat 0) with 0. ring.
  - cbn [List.length Qsum fold_right]. fold (Qsum l).
    assert (Hx : x == v) by (apply H; now left).
    assert (Hl : Qsum l == v * Qnat (List.length l))
      by (apply IH; intros y Hy; apply H; now right).
    rewrite Qnat_S, Hl, Hx. ring.
Qed.

Lemma mean_constant (l : list Q) (v : Q) :
  l <> [] -> (forall x, In x l -> x == v) ->
  Qsum l / Qnat (List.length l) == v.
Proof.
  intros Hne H. rewrite (Qsum_constant l v H).
  destruct l as [| x l]; [congruence |].
  pose proof (Qnat_pos (List.length l)). cbn [List.length]. field. lra.
Qed.

Lemma squares_constant (l : list Q) (m : Q) :
  (forall x, In x l -> x == m) ->
  Qsum (map (fun x => (x - m) * (x - m)) l) == 0.
Proof.
  induction l as [| x l IH]; intros H; [reflexivity |].
  cbn [map Qsum fold_right]. fold (Qsum (map (fun x => (x - m) * (x - m)) l)).
  assert (Hx : x == m) by (apply H; now left).
  assert (Hl : Qsum (map (fun x => (x - m) * (x - m)) l) == 0)
    by (apply IH; intros y Hy; apply H; now right).
  rewrite Hl, Hx. ring.
Qed.

Lemma stdev_constant (l : list Q) (v : Q) (s : R) :
  (forall x, In x l -> x == v) ->
  (if (1 <? List.length l)%nat then statistics_stdev l else Some 0%R)
  = Some s ->
  s = 0%R.
Proof.
  intros H. destruct l as [| a [| b l]]; simpl; try congruence.
  set (l' := a :: b :: l) in *.
  assert (Hm : Qsum l' / Qnat (List.length l') == v)
    by (apply mean_constant; [discriminate | exact H]).
  intros [= <-].
  assert (Hz : Qsum (map (fun x =>
                            (x - Qsum l' / Qnat (List.length l'))
                            * (x - Qsum l' / Qnat (List.length l'))) l')
               == 0).
  { apply squares_constant. intros x Hx. now rewrite Hm, (H x Hx). }
  match goal with
  | |- sqrt (Q2R (?ss / ?d)) = _ =>
      assert (Hz' : ss == 0) by exact Hz;
      rewrite (Qeq_eqR (ss / d) 0)
        by (rewrite Hz'; unfold Qdiv; ring)
  end.
  rewrite RMicromega.Q2R_0. apply sqrt_0.
Qed.

(** X7: When every track that reports a feature reports the same value, the
    mean, the minimum and the maximum are that value and the deviation is
    0.0, whatever the number of tracks. *)
Theorem constant_feature_statistics (batch : list Features)
    (feature : string) (v : Q) :
  In feature features_to_analyze ->
  (exists track, In track batch /\ reports feature track = true) ->
  (forall track x, In track batch -> get track feature = Some x -> x == v) ->
  exists stats,
    calculate_audio_feature_stats batch = Some stats /\
    get stats ("avg_" ++ feature) = Some (Q2R v) /\
    get stats ("std_" ++ feature) = Some 0%R /\
    get stats ("min_" ++ feature) = Some (Q2R v) /\
    get stats ("max_" ++ feature) = Some (Q2R v).
Proof.
  intros Hf (track & Hin & Hrep) Hall.
  assert (Hvals : forall x, In x (feature_values feature batch) -> x == v).
  { intros x. unfold feature_values. rewrite in_flat_map.
    intros (t & Ht & Hx). destruct (get t feature) as [y |] eqn:E;
      [| destruct Hx].
    destruct Hx as [<- | []]. now apply (Hall t). }
  destruct (feature_values feature batch) as [| a vs] eqn:Ev.
  { exfalso. rewrite feature_values_reports in Ev.
    apply map_eq_nil in Ev.
    assert (Ht : In track (filter (reports feature) batch))
      by (apply filter_In; now split).
    rewrite Ev in Ht. destruct Ht. }
  destruct (stats_entries batch feature a vs Hf Ev)
    as (stats & s & Hc & Hs & Ga & Gs & Gm & Gx).
  exists stats. split; [exact Hc |].
  destruct (fold_min_spec vs a) as [Imin _].
  destruct (fold_max_spec vs a) as [Imax _].
  repeat split.
  - rewrite Ga. f_equal. apply Qeq_eqR, mean_constant;
      [discriminate | exact Hvals].
  - rewrite Gs. f_equal. now apply (stdev_constant (a :: vs) v).
  - rewrite Gm. f_equal. apply Qeq_eqR, Hvals, Imin.
  - rewrite Gx. f_equal. apply Qeq_eqR, Hvals, Imax.
Qed.

Lemma constant_feature_witness :
  exists stats,
    calculate_audio_feature_stats [scenario_track; scenario_track]
    = Some stats /\
    get stats "avg_energy" = Some (Q2R (8 # 10)) /\
    get stats "std_energy" = Some 0%R.
Proof.
  assert (H1 : In "energy" features_to_analyze) by (simpl; auto).
  assert (H2 : exists track,
             In track [scenario_track; scenario_track] /\
             reports "energy" track = true)
    by (exists scenario_track; split; [now left | reflexivity]).
  assert (H3 : forall track x,
             In track [scenario_track; scenario_track] ->
             get track "energy" = Some x -> x == 8 # 10).
  { intros track x [<- | [<- | []]] [= <-]; reflexivity. }
  destruct (constant_feature_statistics _ "energy" (8 # 10) H1 H2 H3)
    as (stats & Hc & Ga & Gs & _).
  exists stats. auto.
Defined.

(** X8: Both diversity scores lie in [0,1] on every input; the artist score
    never decreases with the number of entries and is 1 from fifty
    entries on; the mood score is 0 for the empty distribution. *)
Theorem diversity_scores_bounds (artists : list Artist) (genres : dict Q) :
  exists scores,
    calculate_diversity_scores artists genres = Some scores /\
    0 <= artist_diversity_score scores <= 1 /\
    (0 <= mood_diversity_score scores <= 1)%R /\
    ((50 <= List.length artists)%nat -> artist_diversity_score scores = 1) /\
    (forall more scores',
        calculate_diversity_scores (artists ++ more) genres = Some scores' ->
        artist_diversity_score scores <= artist_diversity_score scores') /\
    (genres = [] -> mood_diversity_score scores = 0%R).
Proof.
  destruct (calculate_diversity_scores_eq artists genres) as (e & He & H).
  eexists. split; [exact H |]. simpl.
  assert (Hq : forall n, 0 <= Qnat n / 50).
  { intros n. apply Qle_shift_div_l; [lra |].
    pose proof (Qnat_le 0 n (Nat.le_0_l n)) as L.
    change (Qnat 0) with 0 in L. lra. }
  split; [| split; [| split; [| split]]].
  - rewrite round3_artist_diversity. split.
    + apply Q.min_glb; [apply Hq | lra].
    + apply Q.le_min_r.
  - rewrite clamp01_cases. apply Rround3_unit_interval, clamp01_unit.
  - intros L.
    assert (E : Qmin (Qnat (List.length artists) / 50) 1 == 1).
    { apply Q.min_r.
      pose proof (Qnat_le 50 _ L) as L'. change (Qnat 50) with 50 in L'.
      apply Qle_shift_div_l; lra. }
    rewrite (round3_comp _ _ E). reflexivity.
  - intros more scores' H'.
    destruct (calculate_diversity_scores_eq (artists ++ more) genres)
      as (e' & _ & E').
    rewrite E' in H'. injection H' as <-. simpl.
    rewrite !round3_artist_diversity.
    apply Q.min_le_compat_r. unfold Qdiv.
    apply Qmult_le_compat_r; [| unfold Qle; simpl; lia].
    apply Qnat_le. rewrite length_app. lia.
  - intros ->. injection He as <-.
    destruct (Rlt_dec 0 0) as [l | _]; [lra |].
    replace 0%R with (IZR 0 / 1000)%R at 1 by lra.
    rewrite Rround3_exact. lra.
Qed.

(** X9: None of the four functions of the engine raises, on any input: the
    guards keep the mean, the deviation, the minimum and maximum, the
    divisions and the logarithm inside their domains. *)
Theorem aggregation_never_raises (tracks : list Features)
    (artists : list Artist) (genres : dict Q) :
  (exists stats, calculate_audio_feature_stats tracks = Some stats) /\
  (exists dist, extract_genre_distribution artists = Some dist) /\
  (exists patterns, calculate_mood_patterns tracks = Some patterns) /\
  (exists scores, calculate_diversity_scores artists genres = Some scores).
Proof.
  split; [apply calculate_audio_feature_stats_total |].
  split; [apply extract_genre_distribution_total |].
  split; [apply calculate_mood_patterns_total |].
  destruct (calculate_diversity_scores_eq artists genres) as (e & _ & H).
  eauto.
Qed.

End EngineProps.

(** ** Outcomes of the task bodies *)

Module OutcomeProps.
Import Aggregation Store Celery Tasks Spec TaskProps Outcomes.

Lemma query_job_upsert_other (j : BackgroundJob) (l : list BackgroundJob)
    (id : UUID) :
  job_id j <> id ->
  find (fun x => String.eqb (job_id x) id) (upsert_job j l)
  = find (fun x => String.eqb (job_id x) id) l.
Proof.
  intros N. apply String.eqb_neq in N.
  induction l as [| a l IH]; simpl; [now rewrite N |].
  destruct (String.eqb (job_id a) (job_id j)) eqn:E; simpl.
  - apply String.eqb_eq in E. rewrite E. now rewrite N.
  - now rewrite IH.
Qed.




(** X10: Every run of the ingestion task raises: none returns.  It adds
    no snapshot, writes no credential, adds no insight and deletes no
    cache key; the job, if it was created, is left failed with the text
    of the exception and no result. *)
Theorem ingest_outcome (w : World) (user_id time_range : string) :
  let run := ingest_listening_data w user_id time_range in
  exists e,
    snd run = Raise e /\
    snapshots (final_db w (fst run)) = snapshots (w_db w) /\
    tokens (final_db w (fst run)) = tokens (w_db w) /\
    insights (final_db w (fst run)) = insights (w_db w) /\
    (forall key, ~ In (CacheDelete key) (fst run)) /\
    (creates_job_record (fst run) ->
     exists job,
       query_job (final_db w (fst run)) (w_new_job_id w) = Some job /\
       status job = failed /\
       error_message job = Some (exc_msg e) /\
       result job = None).
Proof.
  cbv zeta. unfold final_db, creates_job_record.
  unfold_task. split_outcomes.
  all: eexists; split; [reflexivity |].
  all: do 3 (split; [reflexivity |]).
  all: split; [intros key; simpl; intuition discriminate |].
  all: intros Hc; try (now contradiction Hc).
  all: eexists; split;
    [ unfold query_job, apply_effects; simpl;
      apply query_upsert_job; reflexivity
    | repeat split ].
Qed.


(** X12: What a run of an insight task leaves behind.  When it returns, one
    insight has been added: it carries the returned id and the kind of the
    task and refers to the stored snapshot the id names and to that
    snapshot's user; the roast task has then left its job success with
    the insight's id and dropped the user's insight listing from the
    cache.  When it raises, no insight has been added, and the job of a
    wellness or roast run, if it was created, is failed with the text of
    the exception.  A wellness run always raises.  The productivity task
    touches neither a job nor the cache. *)
Theorem insight_outcome (w : World) (kind : InsightType)
    (snapshot_id tone_mode : string) :
  let run := insight_run w kind snapshot_id tone_mode in
  (forall r,
      snd run = Return r ->
      kind <> WELLNESS /\
      exists insight snapshot,
        insights (final_db w (fst run)) = (insights (w_db w) ++ [insight])%list /\
        insight_id insight = r_insight_id r /\
        insight_type insight = kind /\
        w_uuid w snapshot_id = Some (insight_snapshot_id insight) /\
        query_snapshot (w_db w) (insight_snapshot_id insight)
        = Some snapshot /\
        insight_user_id insight = snapshot_user_id snapshot /\
        (kind = ROAST ->
         In (CacheDelete ("insights:user:" ++ snapshot_user_id snapshot))
            (fst run) /\
         exists job,
           query_job (final_db w (fst run)) (w_new_job_id w) = Some job /\
           status job = success /\
           result job = Some (InsightResult (r_insight_id r)
                                (w_elapsed_ms w)))) /\
  (forall e,
      snd run = Raise e ->
      insights (final_db w (fst run)) = insights (w_db w) /\
      (forall key, ~ In (CacheDelete key) (fst run)) /\
      (creates_job_record (fst run) ->
       exists job,
         query_job (final_db w (fst run)) (w_new_job_id w) = Some job /\
         status job = failed /\
         error_message job = Some (exc_msg e))) /\
  (kind = WELLNESS -> exists e, snd run = Raise e) /\
  (kind = PRODUCTIVITY ->
   job_commits (fst run) = [] /\
   forall key, ~ In (CacheDelete key) (fst run)).
Proof.
  cbv zeta. unfold final_db, creates_job_record.
  split; [| split; [| split]].
  - intros r. destruct kind; unfold_task; split_outcomes; try discriminate.
    all: intros [= <-]; split; [discriminate |]; do 2 eexists.
    all: repeat match goal with
                | |- _ /\ _ => split
                end; try reflexivity; try eassumption.
    all: intros Hk; try discriminate Hk.
    all: split; [simpl; tauto |].
    all: eexists; split;
      [ unfold query_job, apply_effects; simpl;
        apply query_upsert_job; reflexivity
      | split; reflexivity ].
  - intros e. destruct kind; unfold_task; split_outcomes; try discriminate.
    all: intros [= <-]; split; [reflexivity |].
    all: split; [intros key; simpl; intuition discriminate |].
    all: intros Hc; try (now contradiction Hc).
    all: eexists; split;
      [ unfold query_job, apply_effects; simpl;
        apply query_upsert_job; reflexivity
      | split; reflexivity ].
  - intros ->. unfold_task. split_outcomes; eexists; reflexivity.
  - intros ->. unfold_task. split_outcomes.
    all: split; [reflexivity | intros key; simpl; intuition discriminate].
Qed.

(** X13: Which insight runs return.  A wellness run never does.  A roast
    run returns exactly on a first attempt (the table accepts its job)
    when the snapshot id is well formed and names a stored snapshot, the
    API key is set and the model call answers; a productivity run, which
    keeps no job, exactly under the last three conditions. *)
Theorem insight_returns_iff (w : World) (kind : InsightType)
    (snapshot_id tone_mode : string) :
  returned (snd (insight_run w kind snapshot_id tone_mode)) = true
  <-> (kind = ROAST /\ first_attempt w \/ kind = PRODUCTIVITY) /\
      insight_preconditions w snapshot_id.
Proof.
  unfold insight_preconditions. split.
  - destruct kind; unfold_task; split_outcomes; try discriminate; intros _.
    all: split;
      [ first [ right; reflexivity
              | left; split; [reflexivity |];
                match goal with
                | H : insertable _ _ _ = true |- _ =>
                    apply insertable_iff in H; destruct H as [H _];
                    exact H
                end ]
      | repeat split; eauto ].
  - intros ([[-> F] | ->] & (u & snapshot & Hu & Hs) & Hkey & (out & Hout)).
    + unfold_task. accept_insert w F I. cbv beta iota zeta.
      rewrite Hu. cbv beta iota zeta. rewrite Hs. cbv beta iota zeta.
      rewrite Hkey, Hout. reflexivity.
    + unfold_task. rewrite Hu. cbv beta iota zeta. rewrite Hs.
      cbv beta iota zeta. rewrite Hkey, Hout. reflexivity.
Qed.

Lemma insight_returns_witness :
  returned (snd (insight_run (sample_world db_with_snapshot) ROAST
                             "00000000-0000-4000-8000-00000000b000" "")) = true.
Proof.
  apply (proj2 (insight_returns_iff _ _ _ _)). split.
  - left. split; [reflexivity | intros j []].
  - unfold insight_preconditions. split.
    + do 2 eexists. split; [vm_compute; reflexivity | reflexivity].
    + split; [reflexivity | eexists; reflexivity].
Defined.

Lemma upsert_job_length_le (j : BackgroundJob) (l : list BackgroundJob) :
  (List.length (upsert_job j l) <= S (List.length l))%nat.
Proof.
  induction l as [| a l IH]; simpl; [lia |].
  destruct (String.eqb (job_id a) (job_id j)); simpl; lia.
Qed.

Lemma upsert_job_again (j j' : BackgroundJob) (l : list BackgroundJob) :
  job_id j = job_id j' ->
  List.length (upsert_job j (upsert_job j' l))
  = List.length (upsert_job j' l).
Proof.
  intros E. induction l as [| a l IH]; simpl.
  - now rewrite E, String.eqb_refl.
  - destruct (String.eqb (job_id a) (job_id j')) eqn:Ea; simpl.
    + now rewrite E, String.eqb_refl.
    + rewrite E, Ea. simpl. f_equal. exact IH.
Qed.

(** X14: A run of a job-keeping task adds at most one row to the job table
    and changes the row of no other job; the snapshots and insights that
    were stored stay as they are, new ones coming after them. *)
Theorem runs_touch_only_their_job (w : World) (i : Invocation) (id : UUID) :
  id <> w_new_job_id w ->
  let tr := fst (tracked_run w i) in
  query_job (final_db w tr) id = query_job (w_db w) id /\
  (List.length (jobs (final_db w tr)) <= S (List.length (jobs (w_db w))))%nat /\
  (exists more, snapshots (final_db w tr) = (snapshots (w_db w) ++ more)%list) /\
  (exists more, insights (final_db w tr) = (insights (w_db w) ++ more)%list).
Proof.
  intros N. cbv zeta. unfold final_db, query_job.
  destruct i; unfold_task; split_outcomes.
  all: unfold apply_effects; simpl.
  all: split;
    [ repeat rewrite query_job_upsert_other by (simpl; congruence);
      reflexivity |].
  all: split;
    [ repeat rewrite upsert_job_again by reflexivity;
      first [ apply upsert_job_length_le | lia ] |].
  all: split; eexists;
    first [ reflexivity | symmetry; apply app_nil_r ].
Qed.

Lemma runs_touch_only_their_job_witness :
  let w := sample_world db_with_token in
  let tr := fst (tracked_run w (Ingest "00000000-0000-4000-8000-00000000a001" "medium_term")) in
  query_job (final_db w tr) "00000000-0000-4000-8000-00000000d000" = query_job (w_db w) "00000000-0000-4000-8000-00000000d000".
Proof.
  intros w tr.
  assert (N : "00000000-0000-4000-8000-00000000d000" <> w_new_job_id w) by discriminate.
  exact (proj1 (runs_touch_only_their_job
                  w (Ingest "00000000-0000-4000-8000-00000000a001" "medium_term") "00000000-0000-4000-8000-00000000d000" N)).
Defined.



End OutcomeProps.

(** ** Fetching audio features *)

Module FetchProps.
Import Aggregation Celery Tasks Fetch.

Lemma concat_chunks (n : nat) :
  forall (l : list string),
    (List.length l <= n * 100)%nat ->
    List.concat (map (fun k => firstn 100 (skipn (k * 100) l)) (seq 0 n)) = l.
Proof.
  induction n as [| n IH]; intros l H.
  - simpl in *. destruct l; [reflexivity | simpl in H; lia].
  - transitivity (firstn 100 l ++ skipn 100 l)%list;
      [| apply firstn_skipn].
    cbn [seq map List.concat]. rewrite <- seq_shift, map_map.
    change (skipn (0 * 100) l) with l. f_equal.
    etransitivity;
      [| apply (IH (skipn 100 l)); rewrite length_skipn; lia].
    f_equal. apply map_ext. intros k.
    rewrite skipn_skipn. do 2 f_equal. lia.
Qed.

Lemma batches_eq (track_ids : list string) :
  batches track_ids
  = map (fun k => firstn 100 (skipn (k * 100) track_ids))
        (seq 0 ((List.length track_ids + 99) / 100)).
Proof.
  unfold batches, range_by, slice. rewrite map_map.
  replace (List.length track_ids + 100 - 1)%nat
    with (List.length track_ids + 99)%nat by lia.
  apply map_ext. intros k. do 2 f_equal. lia.
Qed.

Lemma ceil_100 (n : nat) :
  (n <= (n + 99) / 100 * 100 /\ ((n + 99) / 100 - 1) * 100 < n + 100 /\
   (0 < n -> ((n + 99) / 100 - 1) * 100 < n))%nat.
Proof.
  pose proof (Nat.div_mod_eq (n + 99) 100) as E.
  pose proof (Nat.mod_upper_bound (n + 99) 100) as B.
  lia.
Qed.

Lemma concat_batches (track_ids : list string) :
  List.concat (batches track_ids) = track_ids.
Proof.
  rewrite batches_eq. apply concat_chunks. apply ceil_100.
Qed.

(** X16: The batches cut the list of ids into consecutive pieces: put end to
    end they give the list back, none is empty, none has more than the
    100 ids one request may carry, and there are [ceil(n / 100)] of
    them. *)
Theorem batches_partition (track_ids : list string) :
  List.concat (batches track_ids) = track_ids /\
  Forall (fun batch => (1 <= List.length batch <= 100)%nat)
         (batches track_ids) /\
  List.length (batches track_ids)
  = ((List.length track_ids + 99) / 100)%nat.
Proof.
  split; [apply concat_batches |]. rewrite batches_eq. split.
  - apply Forall_forall. intros batch Hin. apply in_map_iff in Hin.
    destruct Hin as (k & <- & Hk). apply in_seq in Hk.
    rewrite length_firstn, length_skipn.
    destruct (ceil_100 (List.length track_ids)) as (_ & _ & H).
    destruct track_ids as [| t l]; [simpl in Hk; lia |].
    specialize (H ltac:(simpl; lia)). nia.
  - now rewrite length_map, length_seq.
Qed.

Lemma not_none_app (a b : list (option Features)) :
  not_none (a ++ b) = (not_none a ++ not_none b)%list.
Proof. unfold not_none. apply flat_map_app. Qed.

Lemma fetch_loop_catalogue (catalogue : string -> option Features)
    (todo : list (list string)) :
  forall acc,
    fetch_loop (catalogue_client catalogue) todo acc
    = Return (acc ++ not_none (map catalogue (List.concat todo)))%list.
Proof.
  induction todo as [| b todo IH]; intros acc; simpl.
  - now rewrite app_nil_r.
  - rewrite IH, map_app, not_none_app. now rewrite app_assoc.
Qed.

(** X17: Batching is invisible when Spotify answers every id on its own: the
    fetch returns, in the order of the ids, the features of exactly the
    ids for which it has some. *)
Theorem fetch_audio_features_catalogue
    (catalogue : string -> option Features) (track_ids : list string) :
  fetch_audio_features (catalogue_client catalogue) track_ids
  = Return (not_none (map catalogue track_ids)).
Proof.
  unfold fetch_audio_features.
  now rewrite fetch_loop_catalogue, concat_batches.
Qed.

Lemma fetch_loop_answers (sp : AudioFeaturesApi) (todo : list (list string)) :
  forall acc r,
    fetch_loop sp todo acc = Return r <->
    exists answers,
      Forall2 (fun batch answer => sp batch = Return answer) todo answers /\
      r = (acc ++ flat_map not_none answers)%list.
Proof.
  induction todo as [| b todo IH]; intros acc r; simpl.
  - split.
    + intros [= <-]. exists []. split; [constructor |].
      simpl. now rewrite app_nil_r.
    + intros (answers & F & ->). inversion F. simpl.
      now rewrite app_nil_r.
  - destruct (sp b) as [a | e] eqn:E.
    + rewrite IH. split.
      * intros (answers & F & ->). exists (a :: answers).
        split; [now constructor |]. simpl. now rewrite app_assoc.
      * intros (answers & F & ->). inversion F as [| ? y ? ys Hy F']; subst.
        exists ys. split; [exact F' |]. simpl.
        assert (y = a) by congruence. subst. now rewrite app_assoc.
    + split; [discriminate |].
      intros (answers & F & _). inversion F; subst. congruence.
Qed.

(** X18: The fetch returns exactly when every batch request is answered, with
    the features of all answers in order and no [None] among them; one
    request that raises makes the whole fetch raise with that exception,
    and the requests after it are not sent. *)
Theorem fetch_audio_features_all_or_nothing (sp : AudioFeaturesApi)
    (track_ids : list string) :
  (forall r,
      fetch_audio_features sp track_ids = Return r <->
      exists answers,
        Forall2 (fun batch answer => sp batch = Return answer)
                (batches track_ids) answers /\
        r = flat_map not_none answers) /\
  (forall e,
      fetch_audio_features sp track_ids = Raise e ->
      exists before batch after,
        batches track_ids = (before ++ batch :: after)%list /\
        sp batch = Raise e /\
        Forall (fun b => exists answer, sp b = Return answer) before).
Proof.
  unfold fetch_audio_features. split.
  - intros r. apply (fetch_loop_answers sp (batches track_ids) [] r).
  - generalize (batches track_ids) as todo.
    generalize (@nil Features) as acc.
    intros acc todo. revert acc.
    induction todo as [| b todo IH]; intros acc e; simpl; [discriminate |].
    destruct (sp b) as [a | e'] eqn:E.
    + intros H. destruct (IH _ _ H) as (before & batch & after & -> & Hb & F).
      exists (b :: before), batch, after. split; [reflexivity |].
      split; [exact Hb |]. constructor; [eauto | exact F].
    + intros [= <-]. exists [], b, todo. repeat split; auto.
Qed.

End FetchProps.

(** ** Refreshing credentials *)

Module RefreshProps.
Import Store Celery Tasks Refresh.

Lemma find_user (rows : list SpotifyToken) (t : SpotifyToken) :
  NoDup (map token_user_id rows) -> In t rows ->
  find (fun x => String.eqb (token_user_id x) (token_user_id t)) rows
  = Some t.
Proof.
  induction rows as [| x rows IH]; intros N H; [destruct H |].
  simpl in *. inversion N as [| ? ? Hx N']; subst.
  destruct H as [-> | H].
  - now rewrite String.eqb_refl.
  - destruct (String.eqb (token_user_id x) (token_user_id t)) eqn:E.
    + apply String.eqb_eq in E. exfalso. apply Hx. rewrite E.
      now apply in_map.
    + now apply IH.
Qed.

Lemma same_user_same_row (rows : list SpotifyToken) (x t : SpotifyToken) :
  NoDup (map token_user_id rows) -> In x rows -> In t rows ->
  token_user_id x = token_user_id t -> x = t.
Proof.
  intros N Hx Ht E.
  pose proof (find_user rows t N Ht) as F.
  pose proof (find_user rows x N Hx) as G.
  rewrite E in G. congruence.
Qed.

Lemma update_first_ids (u : UUID) (row' : SpotifyToken)
    (rows : list SpotifyToken) :
  token_user_id row' = u ->
  map token_user_id (update_first u row' rows) = map token_user_id rows.
Proof.
  intros Hu. induction rows as [| t rows IH]; simpl; [reflexivity |].
  destruct (String.eqb (token_user_id t) u) eqn:E; simpl.
  - apply String.eqb_eq in E. congruence.
  - now rewrite IH.
Qed.

Lemma find_update_first_same (u : UUID) (row' row : SpotifyToken)
    (rows : list SpotifyToken) :
  token_user_id row' = u ->
  find (fun t => String.eqb (token_user_id t) u) rows = Some row ->
  find (fun t => String.eqb (token_user_id t) u) (update_first u row' rows)
  = Some row'.
Proof.
  intros Hu. induction rows as [| t rows IH]; simpl; [discriminate |].
  destruct (String.eqb (token_user_id t) u) eqn:E; simpl.
  - intros _. now rewrite Hu, String.eqb_refl.
  - rewrite E. exact IH.
Qed.

Lemma find_update_first_other (u u' : UUID) (row' : SpotifyToken)
    (rows : list SpotifyToken) :
  token_user_id row' = u -> u' <> u ->
  find (fun t => String.eqb (token_user_id t) u') (update_first u row' rows)
  = find (fun t => String.eqb (token_user_id t) u') rows.
Proof.
  intros Hu Hne. induction rows as [| t rows IH]; simpl; [reflexivity |].
  destruct (String.eqb (token_user_id t) u) eqn:E; simpl.
  - apply String.eqb_eq in E.
    assert (E1 : String.eqb (token_user_id row') u' = false)
      by (apply String.eqb_neq; congruence).
    assert (E2 : String.eqb (token_user_id t) u' = false)
      by (apply String.eqb_neq; congruence).
    now rewrite E1, E2.
  - now rewrite IH.
Qed.

Lemma query_token_user (db : Db) (u : UUID) (row : SpotifyToken) :
  query_token db u = Some row -> token_user_id row = u.
Proof.
  unfold query_token. intros H. apply find_some in H.
  now apply String.eqb_eq.
Qed.

(** X19: A refresh rewrites one row in place and nothing else: the table keeps
    its rows and their users, and the other tables are untouched.  When
    it returns [None] the database is unchanged.  When it returns a token,
    that is the access token the endpoint issued against the refresh
    token of the user's first row; that row now holds it, expires
    [expires_in] seconds from now and keeps its refresh token unless a
    new one was issued; the credentials of the other users read as
    before. *)
Theorem refresh_updates_one_row (o : OAuth) (user_id : string) (db : Db) :
  let db' := fst (refresh_spotify_token o user_id db) in
  let new_token := snd (refresh_spotify_token o user_id db) in
  map token_user_id (tokens db') = map token_user_id (tokens db) /\
  snapshots db' = snapshots db /\
  insights db' = insights db /\
  jobs db' = jobs db /\
  (new_token = None -> db' = db) /\
  (forall a, new_token = Some a ->
     exists u row info,
       oa_uuid o user_id = Some u /\
       query_token db u = Some row /\
       oa_refresh_access_token o (refresh_token row) = Return info /\
       a = ti_access_token info /\
       query_token db' u
       = Some (mkToken u a
                 (match ti_refresh_token info with
                  | Some r => r
                  | None => refresh_token row
                  end)
                 (oa_now o + ti_expires_in info)) /\
       forall u', u' <> u -> query_token db' u' = query_token db u').
Proof.
  unfold refresh_spotify_token.
  destruct (oa_uuid o user_id) as [u |] eqn:Eu;
    [| simpl; repeat split; try discriminate; reflexivity].
  destruct (query_token db u) as [row |] eqn:Eq;
    [| simpl; repeat split; try discriminate; reflexivity].
  destruct (oa_refresh_access_token o (refresh_token row)) as [info | e] eqn:Er;
    [| simpl; repeat split; try discriminate; reflexivity].
  pose proof (query_token_user db u row Eq) as Hu.
  assert (Hu' : token_user_id (updated_token (oa_now o) info row) = u)
    by exact Hu.
  cbn [fst snd tokens snapshots insights jobs].
  split; [now apply update_first_ids |].
  do 3 (split; [reflexivity |]).
  split; [discriminate |].
  intros a [= <-]. exists u, row, info.
  do 4 (split; [first [reflexivity | assumption] |]).
  split.
  - unfold query_token in Eq |- *. cbn [tokens].
    rewrite (find_update_first_same u _ row _ Hu' Eq).
    unfold updated_token. now rewrite Hu.
  - intros u' Hne. unfold query_token. cbn [tokens].
    now apply find_update_first_other.
Qed.

Lemma refresh_keeps_shape (o : OAuth) (user_id : string) (db : Db) :
  map token_user_id (tokens (fst (refresh_spotify_token o user_id db)))
  = map token_user_id (tokens db) /\
  snapshots (fst (refresh_spotify_token o user_id db)) = snapshots db /\
  insights (fst (refresh_spotify_token o user_id db)) = insights db /\
  jobs (fst (refresh_spotify_token o user_id db)) = jobs db.
Proof.
  unfold refresh_spotify_token.
  destruct (oa_uuid o user_id) as [u |] eqn:Eu; [| now simpl].
  destruct (query_token db u) as [row |] eqn:Eq; [| now simpl].
  destruct (oa_refresh_access_token o (refresh_token row)) as [info | e];
    [| now simpl].
  cbn [fst tokens snapshots insights jobs].
  split; [| now repeat split].
  apply update_first_ids. exact (query_token_user db u row Eq).
Qed.

Lemma refresh_fold_accounting (o : OAuth) (l : list SpotifyToken) :
  forall db r f,
    let st := fold_left (refresh_step o) l (db, r, f) in
    (snd (fst st) + snd st = r + f + List.length l)%nat /\
    map token_user_id (tokens (fst (fst st)))
    = map token_user_id (tokens db) /\
    snapshots (fst (fst st)) = snapshots db /\
    insights (fst (fst st)) = insights db /\
    jobs (fst (fst st)) = jobs db.
Proof.
  induction l as [| t l IH]; intros db r f; cbn [fold_left].
  - simpl. repeat split; lia.
  - remember (refresh_step o (db, r, f) t) as st1 eqn:E1.
    unfold refresh_step in E1.
    pose proof (refresh_keeps_shape o (token_user_id t) db) as K.
    destruct (refresh_spotify_token o (token_user_id t) db)
      as [db1 new_token].
    cbn [fst] in K. destruct K as (K1 & K2 & K3 & K4).
    destruct (truthy new_token); subst st1.
    + specialize (IH db1 (S r) f). cbv zeta in IH.
      destruct IH as (I0 & I1 & I2 & I3 & I4).
      cbv zeta. split; [simpl List.length; lia |].
      repeat split; congruence.
    + specialize (IH db1 r (S f)). cbv zeta in IH.
      destruct IH as (I0 & I1 & I2 & I3 & I4).
      cbv zeta. split; [simpl List.length; lia |].
      repeat split; congruence.
Qed.

(** X20: The sweep accounts for every credential it selected: each one that
    expires within the hour is counted once, as refreshed or as failed.
    It adds and removes no credential and touches no other table. *)
Theorem refresh_expiring_accounting (o : OAuth) (db : Db) :
  let db' := fst (refresh_expiring_tokens o db) in
  let s := snd (refresh_expiring_tokens o db) in
  (rs_refreshed s + rs_failed s = rs_total_checked s)%nat /\
  rs_total_checked s
  = List.length
      (filter (fun t => (expires_at t <=? oa_now o + 3600)%nat) (tokens db)) /\
  map token_user_id (tokens db') = map token_user_id (tokens db) /\
  snapshots db' = snapshots db /\
  insights db' = insights db /\
  jobs db' = jobs db.
Proof.
  unfold refresh_expiring_tokens.
  pose proof (refresh_fold_accounting o
                (filter (expiring (oa_now o)) (tokens db)) db 0%nat 0%nat) as H.
  cbv zeta in H.
  destruct (fold_left (refresh_step o)
              (filter (expiring (oa_now o)) (tokens db)) (db, 0%nat, 0%nat))
    as [[db' r] f].
  cbn [fst snd] in *. cbn [rs_refreshed rs_failed rs_total_checked].
  destruct H as (H0 & H1 & H2 & H3 & H4).
  split; [lia |]. split; [reflexivity |]. now repeat split.
Qed.

Lemma refreshed_row_user (o : OAuth) (t : SpotifyToken) :
  token_user_id (refreshed_row o t) = token_user_id t.
Proof.
  unfold refreshed_row.
  now destruct (oa_refresh_access_token o (refresh_token t)).
Qed.

Lemma sweep_row_user (o : OAuth) (us : list UUID) (t : SpotifyToken) :
  token_user_id (sweep_row o us t) = token_user_id t.
Proof.
  unfold sweep_row.
  destruct (existsb (String.eqb (token_user_id t)) us);
    [apply refreshed_row_user | reflexivity].
Qed.

Lemma sweep_rows_users (o : OAuth) (us : list UUID)
    (rows : list SpotifyToken) :
  map token_user_id (map (sweep_row o us) rows) = map token_user_id rows.
Proof.
  rewrite map_map. apply map_ext. intros t. apply sweep_row_user.
Qed.

Lemma update_first_absent (u : UUID) (row' : SpotifyToken)
    (rows : list SpotifyToken) :
  ~ In u (map token_user_id rows) -> update_first u row' rows = rows.
Proof.
  induction rows as [| t rows IH]; simpl; intros H; [reflexivity |].
  destruct (String.eqb (token_user_id t) u) eqn:E.
  - apply String.eqb_eq in E. tauto.
  - rewrite IH; tauto.
Qed.

Lemma update_first_sweep (o : OAuth) (t : SpotifyToken)
    (rows : list SpotifyToken) :
  NoDup (map token_user_id rows) -> In t rows ->
  update_first (token_user_id t) (refreshed_row o t) rows
  = map (sweep_row o [token_user_id t]) rows.
Proof.
  induction rows as [| x rows IH]; intros N H; [destruct H |].
  inversion N as [| ? ? Hx N']; subst. simpl in H.
  cbn [update_first map]. unfold sweep_row at 1. cbn [existsb].
  destruct (String.eqb (token_user_id x) (token_user_id t)) eqn:E.
  - apply String.eqb_eq in E. cbn [orb].
    assert (x = t).
    { destruct H as [H | H]; [exact H |].
      exfalso. apply Hx. rewrite E. now apply in_map. }
    subst x. f_equal.
    rewrite <- (update_first_absent (token_user_id t) (refreshed_row o t) rows)
      at 1 by exact Hx.
    clear IH H N E. induction rows as [| y rows IH]; [reflexivity |].
    simpl in Hx. cbn [update_first map]. unfold sweep_row at 1.
    cbn [existsb].
    destruct (String.eqb (token_user_id y) (token_user_id t)) eqn:Ey.
    + apply String.eqb_eq in Ey. exfalso. apply Hx. now left.
    + cbn [orb]. f_equal. apply IH.
      * intros K. apply Hx. now right.
      * now inversion N'.
  - cbn [orb]. f_equal. destruct H as [-> | H].
    + now rewrite String.eqb_refl in E.
    + now apply IH.
Qed.

Lemma refresh_one (o : OAuth) (t : SpotifyToken)
    (rows : list SpotifyToken) sn ins jb :
  NoDup (map token_user_id rows) ->
  oa_uuid o (token_user_id t) = Some (token_user_id t) ->
  In t rows ->
  refresh_spotify_token o (token_user_id t) (mkDb rows sn ins jb)
  = (mkDb (map (sweep_row o [token_user_id t]) rows) sn ins jb,
     match oa_refresh_access_token o (refresh_token t) with
     | Return info => Some (ti_access_token info)
     | Raise _ => None
     end).
Proof.
  intros N Hu H. unfold refresh_spotify_token. rewrite Hu.
  unfold query_token. cbn [tokens snapshots insights jobs].
  rewrite (find_user rows t N H).
  pose proof (update_first_sweep o t rows N H) as S.
  unfold refreshed_row in S.
  destruct (oa_refresh_access_token o (refresh_token t)) as [info | e] eqn:E.
  - now rewrite S.
  - rewrite <- S. f_equal. f_equal.
    clear S. induction rows as [| x rows IH]; [destruct H |].
    inversion N as [| ? ? Hx N']; subst. cbn [update_first].
    destruct (String.eqb (token_user_id x) (token_user_id t)) eqn:Ex.
    + apply String.eqb_eq in Ex. destruct H as [-> | H]; [reflexivity |].
      exfalso. apply Hx. rewrite Ex. now apply in_map.
    + f_equal. destruct H as [-> | H].
      * now rewrite String.eqb_refl in Ex.
      * now apply IH.
Qed.

Lemma sweep_row_compose (o : OAuth) (u : UUID) (us : list UUID)
    (x : SpotifyToken) :
  ~ In u us ->
  sweep_row o us (sweep_row o [u] x) = sweep_row o (u :: us) x.
Proof.
  intros Hu. unfold sweep_row at 2 3. cbn [existsb].
  destruct (String.eqb (token_user_id x) u) eqn:E; cbn [orb].
  - unfold sweep_row. rewrite refreshed_row_user.
    apply String.eqb_eq in E. rewrite E.
    destruct (existsb (String.eqb u) us) eqn:X; [| reflexivity].
    apply existsb_exists in X. destruct X as (y & Hy & Ey).
    apply String.eqb_eq in Ey. subst y. tauto.
  - reflexivity.
Qed.

Lemma refresh_fold (o : OAuth) (l : list SpotifyToken) :
  forall rows sn ins jb r f,
    NoDup (map token_user_id rows) ->
    (forall u, In u (map token_user_id rows) -> oa_uuid o u = Some u) ->
    NoDup (map token_user_id l) ->
    (forall t, In t l -> In t rows) ->
    fold_left (refresh_step o) l (mkDb rows sn ins jb, r, f)
    = (mkDb (map (sweep_row o (map token_user_id l)) rows) sn ins jb,
       (r + List.length (filter (usable o) l))%nat,
       (f + List.length (filter (fun t => negb (usable o t)) l))%nat).
Proof.
  induction l as [| t l IH]; intros rows sn ins jb r f N U Nl Hin.
  - cbn. rewrite !Nat.add_0_r. do 3 f_equal.
    rewrite <- (map_id rows) at 1. apply map_ext. reflexivity.
  - cbn [fold_left]. unfold refresh_step at 2.
    assert (Ht : In t rows) by (apply Hin; now left).
    rewrite (refresh_one o t rows sn ins jb N
               (U _ (in_map token_user_id _ _ Ht)) Ht).
    inversion Nl as [| ? ? Hx Nl']; subst.
    assert (Step :
      forall r' f',
        fold_left (refresh_step o) l
          (mkDb (map (sweep_row o [token_user_id t]) rows) sn ins jb, r', f')
        = (mkDb (map (sweep_row o (map token_user_id (t :: l))) rows)
                sn ins jb,
           (r' + List.length (filter (usable o) l))%nat,
           (f' + List.length (filter (fun t => negb (usable o t)) l))%nat)).
    { intros r' f'. rewrite IH.
      - do 3 f_equal. rewrite map_map. apply map_ext. intros x.
        now apply sweep_row_compose.
      - now rewrite sweep_rows_users.
      - intros u. rewrite sweep_rows_users. apply U.
      - exact Nl'.
      - intros t' Ht'. apply in_map_iff. exists t'. split.
        + unfold sweep_row. cbn [existsb].
          destruct (String.eqb (token_user_id t') (token_user_id t)) eqn:E;
            [| reflexivity].
          apply String.eqb_eq in E. exfalso. apply Hx. rewrite <- E.
          now apply in_map.
        + apply Hin. now right. }
    assert (Tr : truthy
                   match oa_refresh_access_token o (refresh_token t) with
                   | Return info => Some (ti_access_token info)
                   | Raise _ => None
                   end = usable o t).
    { unfold truthy, usable.
      now destruct (oa_refresh_access_token o (refresh_token t)). }
    rewrite Tr. cbn [filter].
    destruct (usable o t); cbn [negb List.length]; rewrite Step;
      repeat match goal with |- (_, _) = (_, _) => f_equal end; lia.
Qed.

Lemma NoDup_map_filter {A B} (g : A -> B) (p : A -> bool) (l : list A) :
  NoDup (map g l) -> NoDup (map g (filter p l)).
Proof.
  induction l as [| x l IH]; intros N; [constructor |].
  inversion N as [| ? ? Hx N']; subst. cbn [filter].
  destruct (p x); [| now apply IH].
  cbn [map]. constructor; [| now apply IH].
  intros K. apply Hx. apply in_map_iff in K.
  destruct K as (y & Ey & Hy). apply filter_In in Hy.
  apply in_map_iff. exists y. tauto.
Qed.

(** X21: With one credential per user, the sweep acts row by row.  A
    credential that expires more than an hour from now is left exactly as
    it was.  One that expires within the hour is rewritten with the
    endpoint's answer, or left as it was when the endpoint raises; it is
    counted as refreshed when the endpoint answered with a non-empty
    access token and as failed otherwise, although an answer with an
    empty access token has been stored. *)
Theorem refresh_expiring_row_by_row (o : OAuth) (db : Db)
    (Hunique : NoDup (map token_user_id (tokens db)))
    (Huuid : forall t, In t (tokens db) ->
                       oa_uuid o (token_user_id t) = Some (token_user_id t)) :
  let db' := fst (refresh_expiring_tokens o db) in
  let s := snd (refresh_expiring_tokens o db) in
  tokens db'
  = map (fun t =>
           if (expires_at t <=? oa_now o + 3600)%nat
           then match oa_refresh_access_token o (refresh_token t) with
                | Return info =>
                    mkToken (token_user_id t) (ti_access_token info)
                      (match ti_refresh_token info with
                       | Some r => r
                       | None => refresh_token t
                       end)
                      (oa_now o + ti_expires_in info)
                | Raise _ => t
                end
           else t) (tokens db) /\
  rs_refreshed s
  = List.length
      (filter (fun t =>
                 (expires_at t <=? oa_now o + 3600)%nat &&
                 match oa_refresh_access_token o (refresh_token t) with
                 | Return info => negb (String.eqb (ti_access_token info) "")
                 | Raise _ => false
                 end) (tokens db)).
Proof.
  unfold refresh_expiring_tokens. destruct db as [rows sn ins jb].
  cbn [tokens] in *.
  rewrite (refresh_fold o (filter (expiring (oa_now o)) rows)
             rows sn ins jb 0%nat 0%nat Hunique).
  - cbn [fst snd tokens rs_refreshed]. split.
    + apply map_ext_in. intros x Hx. unfold sweep_row.
      change ((expires_at x <=? oa_now o + 3600)%nat)
        with (expiring (oa_now o) x).
      destruct (expiring (oa_now o) x) eqn:E.
      * assert (X : existsb (String.eqb (token_user_id x))
                      (map token_user_id
                         (filter (expiring (oa_now o)) rows)) = true).
        { apply existsb_exists. exists (token_user_id x).
          split; [| apply String.eqb_refl].
          apply in_map. apply filter_In. now split. }
        rewrite X. reflexivity.
      * destruct (existsb (String.eqb (token_user_id x))
                    (map token_user_id
                       (filter (expiring (oa_now o)) rows))) eqn:X;
          [| reflexivity].
        apply existsb_exists in X. destruct X as (u & Hu & Eu).
        apply String.eqb_eq in Eu. subst u.
        apply in_map_iff in Hu. destruct Hu as (y & Ey & Hy).
        apply filter_In in Hy. destruct Hy as (Hy & Py).
        assert (y = x)
          by (apply (same_user_same_row rows); auto).
        subst y. congruence.
    + rewrite Nat.add_0_l. clear. induction rows as [| x rows IH];
        [reflexivity |].
      cbn [filter]. change ((expires_at x <=? oa_now o + 3600)%nat)
        with (expiring (oa_now o) x).
      destruct (expiring (oa_now o) x); cbn [andb filter].
      * fold (usable o x). destruct (usable o x); cbn [List.length];
          now rewrite IH.
      * exact IH.
  - intros u Hu. apply in_map_iff in Hu. destruct Hu as (t & <- & Ht).
    now apply Huuid.
  - now apply NoDup_map_filter.
  - intros t Ht. apply filter_In in Ht. tauto.
Qed.

Lemma refresh_expiring_row_by_row_witness :
  tokens (fst (refresh_expiring_tokens sample_oauth two_tokens))
  = [mkToken "00000000-0000-4000-8000-00000000a001" "fresh" "r1" 4600; mkToken "00000000-0000-4000-8000-00000000a002" "a2" "r2" 4700] /\
  rs_refreshed (snd (refresh_expiring_tokens sample_oauth two_tokens)) = 1%nat.
Proof.
  assert (N : NoDup (map token_user_id (tokens two_tokens))).
  { simpl. repeat constructor; simpl; intuition discriminate. }
  assert (U : forall t, In t (tokens two_tokens) ->
                        oa_uuid sample_oauth (token_user_id t)
                        = Some (token_user_id t))
    by (intros t [<- | [<- | []]]; vm_compute; reflexivity).
  exact (refresh_expiring_row_by_row sample_oauth two_tokens N U).
Defined.

End RefreshProps.

(** ** Tasks that enqueue other tasks *)

Module SweepProps.
Import Store Celery Tasks Sweeps.

Section Accepted.
Context {A : Type} (fault : nat -> option PyExc).

Lemma accepted_length (l : list A) :
  forall n, (List.length (accepted fault n l) <= List.length l)%nat.
Proof.
  induction l as [| x l IH]; intros n; simpl; [lia |].
  destruct (fault n); simpl; specialize (IH (S n)); lia.
Qed.

Lemma accepted_rejected_length (l : list A) :
  forall n,
    (List.length (accepted fault n l) + List.length (rejected fault n l)
     = List.length l)%nat.
Proof.
  induction l as [| x l IH]; intros n; simpl; [lia |].
  destruct (fault n); simpl; specialize (IH (S n)); lia.
Qed.

Lemma accepted_In (l : list A) :
  forall n x, In x (accepted fault n l) -> In x l.
Proof.
  induction l as [| y l IH]; intros n x; simpl; [tauto |].
  destruct (fault n); simpl; intros H.
  - right. eapply IH; eauto.
  - destruct H as [-> | H]; [now left | right; eapply IH; eauto].
Qed.

Lemma accepted_NoDup_map {B} (g : A -> B) (l : list A) :
  forall n, NoDup (map g l) -> NoDup (map g (accepted fault n l)).
Proof.
  induction l as [| y l IH]; intros n N; simpl; [constructor |].
  inversion N as [| ? ? Hy N']; subst.
  destruct (fault n); [now apply IH |].
  simpl. constructor; [| now apply IH].
  intros K. apply Hy. apply in_map_iff in K.
  destruct K as (z & Ez & Hz). apply in_map_iff. exists z.
  split; [exact Ez | eapply accepted_In; eauto].
Qed.

Lemma accepted_all (l : list A) :
  (forall n, fault n = None) ->
  forall n, accepted fault n l = l /\ rejected fault n l = [].
Proof.
  intros F. induction l as [| y l IH]; intros n; simpl; [now split |].
  rewrite F. destruct (IH (S n)) as [-> ->]. now split.
Qed.

Lemma accepted_rejected_perm (l : list A) :
  forall n,
    Permutation (accepted fault n l ++ map fst (rejected fault n l)) l.
Proof.
  induction l as [| y l IH]; intros n; simpl; [constructor |].
  destruct (fault n); simpl.
  - apply Permutation_sym, Permutation_cons_app, Permutation_sym, IH.
  - constructor. apply IH.
Qed.

End Accepted.

Lemma batch_fold (fault : nat -> option PyExc) (time_range : string)
    (user_ids : list string) :
  forall b ok bad,
    fold_left (batch_step fault time_range) user_ids (b, ok, bad)
    = (mkBroker
         (br_queue b
          ++ map (fun u => IngestListeningData u time_range)
               (accepted fault (br_calls b) user_ids))
         (br_calls b + List.length user_ids),
       ok ++ accepted fault (br_calls b) user_ids,
       bad ++ map (fun p => (fst p, exc_msg (snd p)))
                (rejected fault (br_calls b) user_ids))%list.
Proof.
  induction user_ids as [| u l IH]; intros b ok bad.
  - simpl. rewrite !app_nil_r, Nat.add_0_r. now destruct b.
  - cbn [fold_left]. unfold batch_step at 2, delay.
    cbn [accepted rejected].
    destruct (fault (br_calls b)) as [e |]; rewrite IH;
      cbn [br_queue br_calls map fst snd List.length];
      rewrite <- ?app_assoc; cbn [app];
      repeat match goal with |- (_, _) = (_, _) => f_equal end;
      f_equal; lia.
Qed.

(** X22: The batch task sends one ingestion call per listed user and goes on
    after a call that raises.  The users it reports as successful are
    exactly those whose ingestion is now on the queue, in order, each
    with the requested time range; every listed user is reported once,
    as a success or as a failure; when the broker accepts every call all
    of them succeed. *)
Theorem batch_ingest_accounting (fault : nat -> option PyExc) (b : Broker)
    (user_ids : list string) (time_range : string) :
  let b' := fst (batch_ingest_users fault b user_ids time_range) in
  let results := snd (batch_ingest_users fault b user_ids time_range) in
  br_queue b'
  = (br_queue b
     ++ map (fun u => IngestListeningData u time_range)
          (batch_success results))%list /\
  batch_total results = List.length user_ids /\
  (List.length (batch_success results)
   + List.length (batch_failed results) = batch_total results)%nat /\
  Permutation (batch_success results ++ map fst (batch_failed results))
              user_ids /\
  ((forall n, fault n = None) ->
   batch_success results = user_ids /\ batch_failed results = []).
Proof.
  unfold batch_ingest_users. rewrite batch_fold.
  cbn [fst snd br_queue batch_success batch_failed batch_total app].
  split; [reflexivity |]. split; [reflexivity |]. split; [| split].
  - rewrite length_map.
    apply (accepted_rejected_length fault user_ids (br_calls b)).
  - rewrite map_map. cbn [fst].
    apply (accepted_rejected_perm fault user_ids (br_calls b)).
  - intros F.
    destruct (accepted_all fault user_ids F (br_calls b)) as [-> ->].
    now split.
Qed.

Lemma ingest_all_fold (fault : nat -> option PyExc)
    (user_ids : list string) :
  forall b q f,
    fold_left (ingest_all_step fault) user_ids (b, q, f)
    = (mkBroker
         (br_queue b
          ++ map (fun u => IngestListeningData u "medium_term")
               (accepted fault (br_calls b) user_ids))
         (br_calls b + List.length user_ids),
       (q + List.length (accepted fault (br_calls b) user_ids))%nat,
       (f + List.length (rejected fault (br_calls b) user_ids))%nat).
Proof.
  induction user_ids as [| u l IH]; intros b q f.
  - simpl. rewrite !app_nil_r, !Nat.add_0_r. now destruct b.
  - cbn [fold_left]. unfold ingest_all_step at 2, delay.
    cbn [accepted rejected].
    destruct (fault (br_calls b)) as [e |]; rewrite IH;
      cbn [br_queue br_calls map List.length];
      rewrite <- ?app_assoc; cbn [app];
      repeat match goal with |- (_, _) = (_, _) => f_equal end;
      try (f_equal; lia); lia.
Qed.

(** X23: The daily sweep sends one ingestion call for each stored credential
    that has not expired, always for the medium term, and counts each
    call once as queued or failed.  What it adds to the queue are
    [queued] ingestions, each for a user who holds an unexpired
    credential; a user whose credentials have all expired gets none.
    When the broker accepts every call, the queue receives one ingestion
    per unexpired credential, in table order. *)
Theorem daily_ingestion_sweep (fault : nat -> option PyExc) (now : nat)
    (db : Db) (b : Broker) :
  let b' := fst (ingest_all_users_data fault now db b) in
  let result := snd (ingest_all_users_data fault now db b) in
  (sr_queued result + sr_failed result = sr_total_users result)%nat /\
  sr_total_users result
  = List.length (filter (fun t => (now <? expires_at t)%nat) (tokens db)) /\
  exists sent,
    br_queue b'
    = (br_queue b
       ++ map (fun u => IngestListeningData u "medium_term") sent)%list /\
    List.length sent = sr_queued result /\
    (forall u, In u sent ->
       exists t, In t (tokens db) /\ token_user_id t = u /\
                 (now < expires_at t)%nat) /\
    ((forall n, fault n = None) ->
     sent = map token_user_id
              (filter (fun t => (now <? expires_at t)%nat) (tokens db))).
Proof.
  unfold ingest_all_users_data. rewrite ingest_all_fold.
  cbn [fst snd br_queue sr_queued sr_failed sr_total_users].
  set (ids := map token_user_id
                (filter (fun t => (now <? expires_at t)%nat) (tokens db))).
  split; [| split].
  - rewrite !Nat.add_0_l.
    apply (accepted_rejected_length fault ids (br_calls b)).
  - unfold ids. now rewrite length_map.
  - exists (accepted fault (br_calls b) ids).
    split; [reflexivity |]. split; [reflexivity |]. split.
    + intros u Hu. apply accepted_In in Hu. unfold ids in Hu.
      apply in_map_iff in Hu. destruct Hu as (t & Et & Ht).
      apply filter_In in Ht. destruct Ht as (Ht & Hv).
      exists t. repeat split; auto. now apply Nat.ltb_lt.
    + intros F. now destruct (accepted_all fault ids F (br_calls b)).
Qed.

Lemma latest_fold (u : UUID) (l : list ListeningSnapshot) :
  forall best,
    (forall b, best = Some b -> snapshot_user_id b = u) ->
    let r := fold_left (latest_step u) l best in
    (r = None ->
     best = None /\ forall s, In s l -> snapshot_user_id s <> u) /\
    (forall x, r = Some x ->
       snapshot_user_id x = u /\
       (In x l \/ best = Some x) /\
       (forall s, In s l -> snapshot_user_id s = u ->
                  (snapshot_date s <= snapshot_date x)%nat) /\
       (forall b, best = Some b ->
                  (snapshot_date b <= snapshot_date x)%nat)).
Proof.
  induction l as [| s l IH]; intros best Hb; cbn [fold_left]; cbv zeta.
  - split.
    + intros ->. split; [reflexivity | intros s []].
    + intros x ->. split; [now apply Hb |].
      split; [now right |]. split; [intros s [] |].
      intros b [= ->]. lia.
  - assert (Hb' : forall b, latest_step u best s = Some b ->
                            snapshot_user_id b = u).
    { unfold latest_step.
      destruct (String.eqb (snapshot_user_id s) u) eqn:E; [| exact Hb].
      apply String.eqb_eq in E.
      destruct best as [b0 |].
      - destruct (snapshot_date b0 <? snapshot_date s)%nat;
          intros b [= <-]; auto.
      - intros b [= <-]; auto. }
    specialize (IH (latest_step u best s) Hb'). cbv zeta in IH.
    destruct IH as [IHn IHs]. split.
    + intros Hr. destruct (IHn Hr) as [Hstep Hl].
      unfold latest_step in Hstep.
      destruct (String.eqb (snapshot_user_id s) u) eqn:E.
      * destruct best as [b0 |];
          [destruct (snapshot_date b0 <? snapshot_date s)%nat |];
          discriminate.
      * apply String.eqb_neq in E. split; [exact Hstep |].
        intros s' [<- | H']; auto.
    + intros x Hr. destruct (IHs x Hr) as (Hu & Hin & Hmax & Hbest).
      split; [exact Hu |].
      unfold latest_step in Hin, Hbest.
      destruct (String.eqb (snapshot_user_id s) u) eqn:E.
      * destruct best as [b0 |].
        -- destruct (snapshot_date b0 <? snapshot_date s)%nat eqn:Lt.
           ++ apply Nat.ltb_lt in Lt.
              specialize (Hbest s eq_refl).
              split; [destruct Hin as [Hin | [= <-]];
                      [left; now right | left; now left] |].
              split.
              ** intros s' [<- | H'] Hs'; [exact Hbest | now apply Hmax].
              ** intros b [= <-]. lia.
           ++ apply Nat.ltb_ge in Lt.
              specialize (Hbest b0 eq_refl).
              split; [destruct Hin as [Hin | Hin];
                      [left; now right | now right] |].
              split.
              ** intros s' [<- | H'] Hs'; [lia | now apply Hmax].
              ** intros b [= <-]. exact Hbest.
        -- specialize (Hbest s eq_refl).
           split; [destruct Hin as [Hin | [= <-]];
                   [left; now right | left; now left] |].
           split.
           ++ intros s' [<- | H'] Hs'; [exact Hbest | now apply Hmax].
           ++ discriminate.
      * apply String.eqb_neq in E.
        split; [destruct Hin as [Hin | Hin];
                [left; now right | now right] |].
        split; [| exact Hbest].
        intros s' [<- | H'] Hs'; [contradiction | now apply Hmax].
Qed.

Lemma latest_snapshot_spec (db : Db) (u : UUID) :
  (latest_snapshot db u = None ->
   forall s, In s (snapshots db) -> snapshot_user_id s <> u) /\
  (forall x, latest_snapshot db u = Some x ->
     In x (snapshots db) /\ snapshot_user_id x = u /\
     forall s, In s (snapshots db) -> snapshot_user_id s = u ->
               (snapshot_date s <= snapshot_date x)%nat).
Proof.
  unfold latest_snapshot.
  pose proof (latest_fold u (snapshots db) None) as H.
  cbv zeta in H. destruct H as [Hn Hs]; [discriminate |]. split.
  - intros Hr. exact (proj2 (Hn Hr)).
  - intros x Hr. destruct (Hs x Hr) as (Hu & [Hin | Hin] & Hmax & _);
      [| discriminate].
    repeat split; auto.
Qed.

Lemma distinct_on_user_spec (l : list ListeningSnapshot) :
  forall seen,
    NoDup (map snapshot_user_id (distinct_on_user seen l)) /\
    (forall x, In x (distinct_on_user seen l) ->
               In x l /\ ~ In (snapshot_user_id x) seen) /\
    (forall s, In s l -> ~ In (snapshot_user_id s) seen ->
               In (snapshot_user_id s)
                  (map snapshot_user_id (distinct_on_user seen l))).
Proof.
  induction l as [| s l IH]; intros seen; cbn [distinct_on_user].
  - split; [constructor |]. split; [intros x [] | intros s []].
  - destruct (existsb (String.eqb (snapshot_user_id s)) seen) eqn:E.
    + destruct (IH seen) as (N & Hin & Hcov).
      split; [exact N |]. split.
      * intros x Hx. destruct (Hin x Hx). split; [now right | assumption].
      * intros s' [<- | H'] Hs'; [| now apply Hcov].
        exfalso. apply Hs'. apply existsb_exists in E.
        destruct E as (y & Hy & Ey). apply String.eqb_eq in Ey.
        now subst y.
    + destruct (IH (snapshot_user_id s :: seen)) as (N & Hin & Hcov).
      assert (Hs : ~ In (snapshot_user_id s) seen).
      { intros K. assert (X : existsb (String.eqb (snapshot_user_id s)) seen
                             = true).
        { apply existsb_exists. exists (snapshot_user_id s).
          split; [exact K | apply String.eqb_refl]. }
        congruence. }
      split; [| split].
      * cbn [map]. constructor; [| exact N].
        intros K. apply in_map_iff in K. destruct K as (y & Ey & Hy).
        destruct (Hin y Hy) as (_ & Hn). apply Hn. left. now symmetry.
      * intros x [<- | Hx]; [split; [now left | exact Hs] |].
        destruct (Hin x Hx) as (H1 & H2).
        split; [now right |]. intros K. apply H2. now right.
      * intros s' Hs' Hn. cbn [map].
        destruct (String.eqb (snapshot_user_id s) (snapshot_user_id s'))
          eqn:E'.
        -- apply String.eqb_eq in E'. now left.
        -- apply String.eqb_neq in E'. right.
           destruct Hs' as [<- | H']; [congruence |].
           apply Hcov; [exact H' |]. intros [K | K]; auto.
Qed.

Lemma weekly_fold (fault : nat -> option PyExc) (db : Db)
    (l : list ListeningSnapshot) :
  (forall x, In x l -> In x (snapshots db)) ->
  forall b q f,
    fold_left (weekly_step fault db) l (b, q, f)
    = (mkBroker
         (br_queue b
          ++ map (fun s => GenerateWellnessInsight (snapshot_id s)
                             "supportive")
               (accepted fault (br_calls b) (latest_of db l)))
         (br_calls b + List.length l),
       (q + List.length (accepted fault (br_calls b) (latest_of db l)))%nat,
       (f + List.length (rejected fault (br_calls b) (latest_of db l)))%nat)
    /\ List.length (latest_of db l) = List.length l.
Proof.
  induction l as [| x l IH]; intros Hin b q f.
  - simpl. rewrite !app_nil_r, !Nat.add_0_r. now destruct b.
  - cbn [fold_left]. unfold weekly_step at 2.
    unfold latest_of. cbn [flat_map]. fold (latest_of db l).
    destruct (latest_snapshot db (snapshot_user_id x)) as [latest |] eqn:L.
    + unfold delay. cbn [app accepted rejected].
      assert (Hin' : forall y, In y l -> In y (snapshots db))
        by (intros y Hy; apply Hin; now right).
      destruct (fault (br_calls b)) as [e |];
        destruct (IH Hin' (mkBroker (br_queue b) (S (br_calls b)))
                    q (S f)) as [E1 E1'];
        destruct (IH Hin' (mkBroker (br_queue b ++ [GenerateWellnessInsight
                                       (snapshot_id latest) "supportive"])
                             (S (br_calls b)))
                    (S q) f) as [E2 E2'];
        [rewrite E1 | rewrite E2];
        cbn [br_queue br_calls map List.length];
        rewrite <- ?app_assoc; cbn [app];
        (split; [| now rewrite E1']);
        repeat match goal with |- (_, _) = (_, _) => f_equal end;
        try (f_equal; lia); lia.
    + exfalso.
      apply (proj1 (latest_snapshot_spec db (snapshot_user_id x)) L x);
        [apply Hin; now left | reflexivity].
Qed.

Lemma In_latest_of (db : Db) (l : list ListeningSnapshot)
    (s : ListeningSnapshot) :
  In s (latest_of db l) <->
  exists x, In x l /\ latest_snapshot db (snapshot_user_id x) = Some s.
Proof.
  unfold latest_of. rewrite in_flat_map. split.
  - intros (x & Hx & H). exists x. split; [exact Hx |].
    destruct (latest_snapshot db (snapshot_user_id x)); simpl in H;
      [destruct H as [-> | []]; reflexivity | destruct H].
  - intros (x & Hx & H). exists x. split; [exact Hx |].
    rewrite H. now left.
Qed.

Lemma latest_of_users (db : Db) (l : list ListeningSnapshot) :
  (forall x, In x l -> In x (snapshots db)) ->
  map snapshot_user_id (latest_of db l) = map snapshot_user_id l.
Proof.
  induction l as [| x l IH]; intros Hin; [reflexivity |].
  unfold latest_of. cbn [flat_map]. fold (latest_of db l).
  destruct (latest_snapshot db (snapshot_user_id x)) as [latest |] eqn:L.
  - cbn [app map].
    destruct (proj2 (latest_snapshot_spec db (snapshot_user_id x)) _ L)
      as (_ & Hu & _).
    rewrite Hu, IH; [reflexivity |]. intros y Hy. apply Hin. now right.
  - exfalso.
    apply (proj1 (latest_snapshot_spec db (snapshot_user_id x)) L x);
      [apply Hin; now left | reflexivity].
Qed.

(** X24: The weekly sweep makes one call per user who has a snapshot dated
    within the last seven days, and counts each call once as queued or
    failed.  What it adds to the queue are [queued] wellness requests in
    the supportive tone, at most one per user, each for a stored snapshot
    that is within the seven days and that no snapshot of the same user
    is dated after.  When the broker accepts every call, every user with
    a snapshot of the last seven days gets a request. *)
Theorem weekly_summaries_sweep (fault : nat -> option PyExc) (now : nat)
    (db : Db) (b : Broker) :
  let b' := fst (generate_weekly_summaries fault now db b) in
  let result := snd (generate_weekly_summaries fault now db b) in
  (sr_queued result + sr_failed result = sr_total_users result)%nat /\
  (exists users,
     NoDup users /\ List.length users = sr_total_users result /\
     forall u, In u users <->
               exists s, In s (snapshots db) /\ snapshot_user_id s = u /\
                         (Z.of_nat now - 604800
                          <= Z.of_nat (snapshot_date s))%Z) /\
  exists sent,
    br_queue b'
    = (br_queue b
       ++ map (fun s => GenerateWellnessInsight (snapshot_id s) "supportive")
            sent)%list /\
    List.length sent = sr_queued result /\
    NoDup (map snapshot_user_id sent) /\
    (forall s, In s sent ->
       In s (snapshots db) /\
       (Z.of_nat now - 604800 <= Z.of_nat (snapshot_date s))%Z /\
       forall s', In s' (snapshots db) ->
                  snapshot_user_id s' = snapshot_user_id s ->
                  (snapshot_date s' <= snapshot_date s)%nat) /\
    ((forall n, fault n = None) ->
     forall s, In s (snapshots db) ->
               (Z.of_nat now - 604800 <= Z.of_nat (snapshot_date s))%Z ->
               In (snapshot_user_id s) (map snapshot_user_id sent)).
Proof.
  unfold generate_weekly_summaries.
  set (xs := distinct_on_user [] (filter (recent now) (snapshots db))).
  destruct (distinct_on_user_spec (filter (recent now) (snapshots db)) [])
    as (N & Hin & Hcov). fold xs in N, Hin, Hcov.
  assert (Hxs : forall x, In x xs -> In x (snapshots db)).
  { intros x Hx. destruct (Hin x Hx) as [H _].
    apply filter_In in H. tauto. }
  assert (Hrec : forall x, In x xs ->
                   (Z.of_nat now - 604800 <= Z.of_nat (snapshot_date x))%Z).
  { intros x Hx. destruct (Hin x Hx) as [H _].
    apply filter_In in H. destruct H as [_ H].
    unfold recent in H. now apply Z.leb_le. }
  destruct (weekly_fold fault db xs Hxs b 0%nat 0%nat) as [E El].
  rewrite E. cbn [fst snd br_queue sr_queued sr_failed sr_total_users].
  split; [| split].
  - rewrite !Nat.add_0_l, <- El.
    apply (accepted_rejected_length fault (latest_of db xs) (br_calls b)).
  - exists (map snapshot_user_id xs). split; [exact N |].
    split; [apply length_map |]. intros u. split.
    + intros Hu. apply in_map_iff in Hu. destruct Hu as (x & <- & Hx).
      exists x. repeat split; auto.
    + intros (s & Hs & <- & Hr). apply Hcov; [| intros []].
      apply filter_In. split; [exact Hs |].
      unfold recent. now apply Z.leb_le.
  - exists (accepted fault (br_calls b) (latest_of db xs)).
    split; [reflexivity |]. split; [reflexivity |]. split; [| split].
    + apply accepted_NoDup_map. now rewrite latest_of_users.
    + intros s Hs. apply accepted_In in Hs. apply In_latest_of in Hs.
      destruct Hs as (x & Hx & L).
      destruct (proj2 (latest_snapshot_spec db (snapshot_user_id x)) _ L)
        as (H1 & H2 & H3).
      split; [exact H1 |]. split.
      * specialize (H3 x (Hxs x Hx) eq_refl).
        specialize (Hrec x Hx). lia.
      * intros s' Hs' Eu. apply H3; [exact Hs' | congruence].
    + intros F s Hs Hr.
      destruct (accepted_all fault (latest_of db xs) F (br_calls b))
        as [-> _].
      rewrite latest_of_users by exact Hxs.
      apply Hcov; [| intros []].
      apply filter_In. split; [exact Hs |].
      unfold recent. now apply Z.leb_le.
Qed.

End SweepProps.

(** ** Retention *)

Module RetentionProps.
Import Store Retention.

Lemma filter_split_length {A} (p : A -> bool) (l : list A) :
  (List.length (filter (fun x => negb (p x)) l)
   + List.length (filter p l) = List.length l)%nat.
Proof.
  induction l as [| x l IH]; simpl; [reflexivity |].
  destruct (p x); simpl; lia.
Qed.

Lemma filter_idem {A} (p : A -> bool) (l : list A) :
  filter p (filter p l) = filter p l.
Proof.
  induction l as [| x l IH]; simpl; [reflexivity |].
  destruct (p x) eqn:E; simpl; [rewrite E; now f_equal | exact IH].
Qed.

Lemma filter_none {A} (p : A -> bool) (l : list A) :
  filter p (filter (fun x => negb (p x)) l) = [].
Proof.
  induction l as [| x l IH]; simpl; [reflexivity |].
  destruct (p x) eqn:E; simpl; [exact IH | now rewrite E].
Qed.

(** X26: The job cleanup removes a row only when it is older than the cutoff
    and its job finished: a pending or running job is kept whatever its
    age and whatever the retention, and so is every row created at or
    after the cutoff.  The count it reports is the number of rows
    removed; a longer retention never removes a row a shorter one keeps;
    run again at the same time, it removes nothing more. *)
Theorem cleanup_old_jobs_keeps_unfinished (now retention_days : Z)
    (rows : list JobRow) :
  let rows' := fst (cleanup_old_jobs now retention_days rows) in
  let deleted := snd (cleanup_old_jobs now retention_days rows) in
  (forall r, In r rows ->
     status (row_job r) = pending \/ status (row_job r) = running \/
     (now - retention_days * 86400 <= row_created_at r)%Z ->
     In r rows') /\
  (forall r, In r rows' -> In r rows) /\
  (List.length rows' + deleted = List.length rows)%nat /\
  (forall longer r,
     (retention_days <= longer)%Z -> In r rows' ->
     In r (fst (cleanup_old_jobs now longer rows))) /\
  cleanup_old_jobs now retention_days rows' = (rows', 0%nat).
Proof.
  unfold cleanup_old_jobs. cbn [fst snd]. split; [| split; [| split; [| split]]].
  - intros r Hr H. apply filter_In. split; [exact Hr |].
    unfold old_job, cutoff_date.
    destruct H as [-> | [-> | H]]; cbn [finished];
      rewrite ?andb_false_r; [reflexivity | reflexivity |].
    apply Z.ltb_ge in H. now rewrite H.
  - intros r Hr. apply filter_In in Hr. tauto.
  - apply filter_split_length.
  - intros longer r Hl Hr. apply filter_In in Hr. destruct Hr as [Hr Hk].
    apply filter_In. split; [exact Hr |].
    unfold old_job, cutoff_date in *.
    destruct (finished (status (row_job r)));
      [| now rewrite andb_false_r].
    rewrite andb_true_r in *. apply negb_true_iff in Hk.
    apply negb_true_iff. apply Z.ltb_ge in Hk. apply Z.ltb_ge. nia.
  - f_equal.
    + apply filter_idem.
    + now rewrite filter_none.
Qed.

Lemma refers_to_In (l : list ListeningSnapshot) (i : GeneratedInsight) :
  refers_to l i = true <->
  exists s, In s l /\ snapshot_id s = insight_snapshot_id i.
Proof.
  unfold refers_to. rewrite existsb_exists. split.
  - intros (s & Hs & E). apply String.eqb_eq in E. eauto.
  - intros (s & Hs & E). exists s. split; [exact Hs |].
    now apply String.eqb_eq.
Qed.

Lemma same_id_same_snapshot (l : list ListeningSnapshot)
    (x y : ListeningSnapshot) :
  NoDup (map snapshot_id l) -> In x l -> In y l ->
  snapshot_id x = snapshot_id y -> x = y.
Proof.
  induction l as [| z l IH]; intros N Hx Hy E; [destruct Hx |].
  inversion N as [| ? ? Hz N']; subst.
  destruct Hx as [-> | Hx], Hy as [-> | Hy]; auto.
  - exfalso. apply Hz. rewrite E. now apply in_map.
  - exfalso. apply Hz. rewrite <- E. now apply in_map.
Qed.

(** X27: The snapshot cleanup removes the snapshots dated before the cutoff
    together with the insights generated from them, and reports the
    number of snapshots removed.  No insight is left pointing to a
    removed snapshot, and with snapshot ids unique a snapshot that stays
    keeps all of its insights.  Credentials and jobs are untouched. *)
Theorem cleanup_old_snapshots_cascades (now retention_days : Z) (db : Db)
    (Hids : NoDup (map snapshot_id (snapshots db))) :
  let db' := fst (cleanup_old_snapshots now retention_days db) in
  let deleted := snd (cleanup_old_snapshots now retention_days db) in
  (forall s, In s (snapshots db') <->
             In s (snapshots db) /\
             (now - retention_days * 86400 <= Z.of_nat (snapshot_date s))%Z) /\
  (List.length (snapshots db') + deleted = List.length (snapshots db))%nat /\
  (forall i s, In i (insights db') -> In s (snapshots db) ->
               snapshot_id s = insight_snapshot_id i ->
               In s (snapshots db')) /\
  (forall i s, In i (insights db) -> In s (snapshots db') ->
               snapshot_id s = insight_snapshot_id i ->
               In i (insights db')) /\
  (forall i, In i (insights db') -> In i (insights db)) /\
  tokens db' = tokens db /\ jobs db' = jobs db.
Proof.
  unfold cleanup_old_snapshots.
  cbn [fst snd tokens snapshots insights jobs].
  assert (K : forall s,
             In s (filter (fun s => negb (old_snapshot now retention_days s))
                     (snapshots db)) <->
             In s (snapshots db) /\
             (now - retention_days * 86400 <= Z.of_nat (snapshot_date s))%Z).
  { intros s. rewrite filter_In. unfold old_snapshot, cutoff_date.
    rewrite negb_true_iff, Z.ltb_ge. tauto. }
  split; [exact K |].
  split; [apply filter_split_length |].
  split; [| split; [| split; [| split; reflexivity]]].
  - intros i s Hi Hs E. apply filter_In in Hi. destruct Hi as [Hi Hn].
    apply filter_In. split; [exact Hs |].
    destruct (old_snapshot now retention_days s) eqn:O; [| reflexivity].
    exfalso. apply negb_true_iff in Hn.
    assert (X : refers_to
                  (filter (old_snapshot now retention_days) (snapshots db)) i
                = true).
    { apply refers_to_In. exists s. split; [| exact E].
      apply filter_In. now split. }
    congruence.
  - intros i s Hi Hs E. apply filter_In. split; [exact Hi |].
    apply negb_true_iff.
    destruct (refers_to
                (filter (old_snapshot now retention_days) (snapshots db)) i)
      eqn:X; [| reflexivity].
    exfalso. apply refers_to_In in X. destruct X as (s' & Hs' & E').
    apply filter_In in Hs'. destruct Hs' as [Hs' O].
    apply filter_In in Hs. destruct Hs as [Hs Hk].
    assert (s' = s)
      by (apply (same_id_same_snapshot (snapshots db)); auto; congruence).
    subst s'. rewrite O in Hk. discriminate.
  - intros i Hi. apply filter_In in Hi. tauto.
Qed.

Lemma cleanup_old_snapshots_witness :
  (List.length
     (snapshots (fst (cleanup_old_snapshots 86450 1 sample_history)))
   + snd (cleanup_old_snapshots 86450 1 sample_history) = 2)%nat.
Proof.
  assert (N : NoDup (map snapshot_id (snapshots sample_history))).
  { simpl. repeat constructor; simpl; intuition discriminate. }
  exact (proj1 (proj2 (cleanup_old_snapshots_cascades
                         86450 1 sample_history N))).
Defined.

End RetentionProps.

(** ** The endpoints and the cache *)

Module ApiProps.
Import Aggregation Store Celery Tasks Spec Refresh Sweeps Cache Api.
Import TaskProps.

Lemma find_app_none {A} (p : A -> bool) (l : list A) (x : A) :
  find p l = None -> find p (l ++ [x]) = (if p x then Some x else None).
Proof.
  induction l as [| y l IH]; simpl; [reflexivity |].
  destruct (p y); [discriminate | exact IH].
Qed.

Lemma find_app_other {A} (p : A -> bool) (l : list A) (x : A) :
  p x = false -> find p (l ++ [x]) = find p l.
Proof.
  intros H. induction l as [| y l IH]; simpl; [now rewrite H |].
  now destruct (p y).
Qed.

Lemma existsb_eqb_in (u : string) (l : list string) :
  In u l <-> existsb (String.eqb u) l = true.
Proof.
  rewrite existsb_exists. split.
  - intros H. exists u. split; [exact H | apply String.eqb_refl].
  - intros (y & Hy & E). apply String.eqb_eq in E. now subst y.
Qed.

Lemma find_none_not_in (rows : list SpotifyToken) (u : UUID) :
  find (fun t => String.eqb (token_user_id t) u) rows = None ->
  ~ In u (map token_user_id rows).
Proof.
  intros H K. apply in_map_iff in K. destruct K as (t & E & Ht).
  apply (find_none _ _ H) in Ht. rewrite E, String.eqb_refl in Ht.
  discriminate.
Qed.

(** X28: Storing a credential answers 200 exactly for a well-formed id of a
    registered user, and changes nothing otherwise.  After a 200 the
    user's credential reads back as the one stored, expiring
    [expires_in] seconds from now; the credentials of the other users
    read as before; and a table with one credential per user still has
    one per user. *)
Theorem store_token_round_trip (uuid : string -> option UUID)
    (users : list UUID) (now : nat) (db : Db)
    (user_id access refresh : string) (expires_in : nat) :
  let db' := fst (store_spotify_token uuid users now db user_id
                    access refresh expires_in) in
  let response := snd (store_spotify_token uuid users now db user_id
                         access refresh expires_in) in
  (is_ok response = true <->
   exists u, uuid user_id = Some u /\ In u users) /\
  (is_ok response = false -> db' = db) /\
  (forall u, uuid user_id = Some u -> In u users ->
     response = Ok (now + expires_in)%nat /\
     query_token db' u
     = Some (mkToken u access refresh (now + expires_in)) /\
     forall u', u' <> u -> query_token db' u' = query_token db u') /\
  (NoDup (map token_user_id (tokens db)) ->
   NoDup (map token_user_id (tokens db'))) /\
  snapshots db' = snapshots db /\
  insights db' = insights db /\
  jobs db' = jobs db.
Proof.
  unfold store_spotify_token.
  destruct (uuid user_id) as [u |] eqn:Eu.
  2:{ cbn [fst snd is_ok]. repeat split; auto; try discriminate.
      intros (u & [=] & _). }
  destruct (existsb (String.eqb u) users) eqn:Ex.
  2:{ assert (Hn : ~ In u users).
      { intros K. apply (existsb_eqb_in u users) in K. congruence. }
      cbn [fst snd is_ok]. repeat split; auto; try discriminate.
      all: try (intros (u0 & [= <-] & Hin); contradiction).
      all: match goal with
           | H : Some _ = Some _ |- _ => injection H as <-; contradiction
           end. }
  assert (Hin : In u users).
  { apply existsb_exists in Ex. destruct Ex as (y & Hy & E).
    apply String.eqb_eq in E. now subst y. }
  cbv zeta.
  destruct (query_token db u) as [existing |] eqn:Eq.
  - pose proof (RefreshProps.query_token_user db u existing Eq) as Hu.
    rewrite Hu.
    cbn [fst snd is_ok tokens snapshots insights jobs].
    split; [split; [intros _; eauto | reflexivity] |].
    split; [discriminate |].
    split; [| split; [| now repeat split]].
    + intros u0 [= <-] _. split; [reflexivity |]. split.
      * unfold query_token in Eq |- *. cbn [tokens].
        now rewrite (RefreshProps.find_update_first_same u
                       (mkToken u access refresh (now + expires_in))
                       existing _ eq_refl Eq).
      * intros u' Hne. unfold query_token. cbn [tokens].
        now apply RefreshProps.find_update_first_other.
    + intros N. now rewrite RefreshProps.update_first_ids.
  - cbn [fst snd is_ok tokens snapshots insights jobs].
    split; [split; [intros _; eauto | reflexivity] |].
    split; [discriminate |].
    split; [| split; [| now repeat split]].
    + intros u0 [= <-] _. split; [reflexivity |]. split.
      * unfold query_token in Eq |- *. cbn [tokens].
        rewrite (find_app_none _ _ _ Eq). cbn [token_user_id].
        now rewrite String.eqb_refl.
      * intros u' Hne. unfold query_token. cbn [tokens].
        apply find_app_other. cbn [token_user_id].
        apply String.eqb_neq. congruence.
    + intros N. rewrite map_app. cbn [map token_user_id].
      apply NoDup_app; [exact N | repeat constructor; intros [] |].
      intros x Hx [<- | []]. revert Hx.
      now apply find_none_not_in.
Qed.

Lemma valid_range_parses (time_range : string) :
  existsb (String.eqb time_range) valid_ranges = true <->
  TimeRange_of time_range <> None.
Proof.
  unfold valid_ranges, TimeRange_of. cbn [existsb].
  rewrite (String.eqb_sym time_range "short_term"),
          (String.eqb_sym time_range "medium_term"),
          (String.eqb_sym time_range "long_term").
  destruct (String.eqb "short_term" time_range) eqn:E1;
    rewrite ?(String.eqb_sym "short_term") in E1; rewrite ?E1;
    [split; [discriminate | reflexivity] |].
  destruct (String.eqb "medium_term" time_range) eqn:E2;
    rewrite ?(String.eqb_sym "medium_term") in E2; rewrite ?E2;
    [split; [discriminate | reflexivity] |].
  destruct (String.eqb "long_term" time_range) eqn:E3;
    rewrite ?(String.eqb_sym "long_term") in E3; rewrite ?E3;
    [split; [discriminate | reflexivity] |].
  cbn. split; [discriminate | congruence].
Qed.

(** X29: The endpoints put a task on the queue only for a request they have
    checked, and then exactly one.  An ingestion is queued only for a
    well-formed id of a registered user and a time range the task can
    parse; an insight only for a well-formed id of a stored snapshot and
    the types roast or wellness, the tone being passed to the wellness
    task alone.  Every other request is answered 400 or 404 (a request
    for any other insight type, productivity included, with 400) and
    leaves the queue as it was. *)
Theorem endpoints_queue_checked_requests (uuid : string -> option UUID)
    (users : list UUID) (db : Db) (fault : nat -> option PyExc)
    (task_id : nat -> string) (b : Broker) :
  (forall user_id time_range,
     let b' := fst (trigger_listening_ingest uuid users fault task_id b
                      user_id time_range) in
     let response := snd (trigger_listening_ingest uuid users fault task_id b
                            user_id time_range) in
     (is_ok response = true <->
      (exists u, uuid user_id = Some u /\ In u users) /\
      TimeRange_of time_range <> None /\
      fault (br_calls b) = None) /\
     (is_ok response = true ->
      br_queue b'
      = (br_queue b ++ [IngestListeningData user_id time_range])%list /\
      response = Ok (mkIngestQueued (task_id (br_calls b)) "queued"
                                    user_id time_range)) /\
     (is_ok response = false -> br_queue b' = br_queue b) /\
     (fault (br_calls b) = None ->
      is_ok response = false ->
      exists detail,
        response = HTTPException 400 detail \/
        response = HTTPException 404 detail)) /\
  (forall snapshot_id insight_type tone_mode,
     let b' := fst (generate_insight uuid db fault task_id b
                      snapshot_id insight_type tone_mode) in
     let response := snd (generate_insight uuid db fault task_id b
                            snapshot_id insight_type tone_mode) in
     (is_ok response = true <->
      (exists u, uuid snapshot_id = Some u /\ query_snapshot db u <> None) /\
      (insight_type = "roast" \/ insight_type = "wellness") /\
      fault (br_calls b) = None) /\
     (is_ok response = true ->
      br_queue b'
      = (br_queue b
         ++ [if String.eqb insight_type "roast"
             then GenerateRoast snapshot_id
             else GenerateWellnessInsight snapshot_id tone_mode])%list /\
      response = Ok (mkInsightQueued (task_id (br_calls b)) "queued"
                                     snapshot_id insight_type)) /\
     (is_ok response = false -> br_queue b' = br_queue b) /\
     (fault (br_calls b) = None ->
      is_ok response = false ->
      exists detail,
        response = HTTPException 400 detail \/
        response = HTTPException 404 detail)).
Proof.
  split.
  - intros user_id time_range. cbv zeta.
    unfold trigger_listening_ingest.
    destruct (uuid user_id) as [u |] eqn:Eu.
    2:{ cbn [fst snd is_ok]. repeat split; try discriminate; eauto.
        intros ((u & [=] & _) & _). }
    destruct (existsb (String.eqb u) users) eqn:Ex; cbn [negb].
    2:{ cbn [fst snd is_ok]. repeat split; try discriminate; eauto.
        intros ((u0 & [= <-] & Hin) & _). exfalso.
        assert (X : existsb (String.eqb u) users = true).
        { apply existsb_exists. exists u. split; [exact Hin |].
          apply String.eqb_refl. }
        congruence. }
    assert (Hin : In u users).
    { apply existsb_exists in Ex. destruct Ex as (y & Hy & E).
      apply String.eqb_eq in E. now subst y. }
    pose proof (valid_range_parses time_range) as V.
    destruct (existsb (String.eqb time_range) valid_ranges) eqn:Er;
      cbn [negb].
    2:{ cbn [fst snd is_ok]. repeat split; try discriminate; eauto.
        intros (_ & Hp & _). apply V in Hp. discriminate. }
    unfold delay. destruct (fault (br_calls b)) as [e |] eqn:Ef;
      cbn [fst snd is_ok br_queue].
    + repeat split; try discriminate.
      intros (_ & _ & [=]).
    + repeat split; try discriminate; eauto.
      now apply V.
  - intros snapshot_id insight_type tone_mode. cbv zeta.
    unfold generate_insight.
    destruct (uuid snapshot_id) as [u |] eqn:Eu.
    2:{ cbn [fst snd is_ok]. repeat split; try discriminate; eauto.
        intros ((u & [=] & _) & _). }
    destruct (query_snapshot db u) as [s |] eqn:Es.
    2:{ cbn [fst snd is_ok]. repeat split; try discriminate; eauto.
        intros ((u0 & [= <-] & Hs) & _). congruence. }
    unfold delay.
    destruct (String.eqb insight_type "roast") eqn:Er.
    + apply String.eqb_eq in Er.
      destruct (fault (br_calls b)) as [e |] eqn:Ef;
        cbn [fst snd is_ok br_queue].
      * repeat split; try discriminate. intros (_ & _ & [=]).
      * repeat split; try discriminate; eauto.
        exists u. split; [reflexivity | congruence].
    + destruct (String.eqb insight_type "wellness") eqn:Ew.
      * apply String.eqb_eq in Ew.
        destruct (fault (br_calls b)) as [e |] eqn:Ef;
          cbn [fst snd is_ok br_queue].
        -- repeat split; try discriminate. intros (_ & _ & [=]).
        -- repeat split; try discriminate; eauto.
           exists u. split; [reflexivity | congruence].
      * cbn [fst snd is_ok]. repeat split; try discriminate; eauto.
        apply String.eqb_neq in Er, Ew.
        intros (_ & [H | H] & _); contradiction.
Qed.

Lemma get_remove_other {V} (d : dict V) (k k' : string) :
  k <> k' -> get (remove d k) k' = get d k'.
Proof.
  intros N. unfold remove.
  induction d as [| [k0 v0] d IH]; simpl; [reflexivity |].
  destruct (String.eqb k0 k) eqn:E; simpl.
  - apply String.eqb_eq in E. subst k0.
    apply String.eqb_neq in N. now rewrite N.
  - now rewrite IH.
Qed.

Lemma cache_get_after_set {V} (now later ttl : Z) (r : Redis V)
    (key : string) (v : V) :
  redis_up r = true -> (0 < ttl)%Z ->
  cache_get later (fst (cache_set now r key v (Some ttl))) key
  = if (later <? now + ttl)%Z then Some v else None.
Proof.
  intros Hup Ht. unfold cache_set, client_setex, client_set.
  assert (E0 : (ttl =? 0)%Z = false) by (apply Z.eqb_neq; lia).
  assert (E1 : (0 <? ttl)%Z = true) by (apply Z.ltb_lt; lia).
  rewrite E0, Hup, E1. cbn [fst].
  unfold cache_get, client_get. cbn [redis_up redis_entries].
  now rewrite StatsProps.get_set_same.
Qed.

Lemma cache_delete_up {V} (now : Z) (r : Redis V) (key : string) :
  redis_up (fst (cache_delete now r key)) = redis_up r.
Proof.
  unfold cache_delete, client_delete.
  destruct (redis_up r) eqn:Hup; [| now rewrite ?Hup].
  destruct (get (redis_entries r) key); cbn [fst]; auto.
Qed.

Lemma cache_get_delete_other {V} (now later : Z) (r : Redis V)
    (key key' : string) :
  key <> key' ->
  cache_get later (fst (cache_delete now r key)) key'
  = cache_get later r key'.
Proof.
  intros N. unfold cache_delete, client_delete.
  destruct (redis_up r) eqn:Hup; [| reflexivity].
  destruct (get (redis_entries r) key) as [e |]; cbn [fst];
    [| reflexivity].
  unfold cache_get, client_get. cbn [redis_up redis_entries].
  now rewrite Hup, get_remove_other.
Qed.

Lemma task_key_not_insight_key (x id : string) :
  "snapshots:user:" ++ x <> "insight:" ++ id /\
  "insights:user:" ++ x <> "insight:" ++ id.
Proof. split; intros H; simpl in H; inversion H. Qed.

Lemma run_cache_keys (w : World) (i : Invocation) (key : string) :
  In (CacheDelete key) (fst (tracked_run w i)) ->
  exists x, key = "snapshots:user:" ++ x \/ key = "insights:user:" ++ x.
Proof.
  destruct i; unfold_task; split_outcomes; cbn [fst app];
    intros H; simpl in H;
    repeat (destruct H as [H | H];
            [try discriminate; injection H as <-; eexists;
             first [left; reflexivity | right; reflexivity] |]);
    try contradiction.
Qed.

Lemma cache_get_after_run {V} (t later : Z) (tr : list Effect)
    (id : string) :
  (forall key, In (CacheDelete key) tr ->
     exists x, key = "snapshots:user:" ++ x \/ key = "insights:user:" ++ x) ->
  forall (r : Redis V),
    cache_get later (apply_cache_effects t r tr) ("insight:" ++ id)
    = cache_get later r ("insight:" ++ id).
Proof.
  unfold apply_cache_effects.
  induction tr as [| ef tr IH]; intros K r; [reflexivity |].
  cbn [fold_left]. rewrite IH by (intros key Hk; apply K; now right).
  destruct ef; try reflexivity. cbn [apply_cache_effect].
  apply cache_get_delete_other.
  destruct (K key (or_introl eq_refl)) as (x & [-> | ->]);
    apply task_key_not_insight_key.
Qed.

(** X30: A request for a stored insight that is not in the cache answers with
    the row from the database.  With the cache reachable the row is then
    served from the cache for the next hour, whatever has become of the
    database meanwhile and whichever ingestion or insight task has run:
    the tasks delete other keys.  After the hour the database is read
    again, and an insight deleted meanwhile gives 404.  With the cache
    unreachable the request is still answered from the database. *)
Theorem insight_served_from_cache (uuid : string -> option UUID) (now : Z)
    (r : Redis GeneratedInsight) (db : Db) (id : string) (u : UUID)
    (row : GeneratedInsight)
    (Hu : uuid id = Some u)
    (Hrow : query_insight db u = Some row)
    (Hmiss : cache_get now r ("insight:" ++ id) = None) :
  let r' := fst (get_insight uuid now r db id) in
  snd (get_insight uuid now r db id) = Ok row /\
  (redis_up r = false -> r' = r) /\
  (redis_up r = true ->
   forall (later t : Z) (db2 : Db) (w : World) (i : Invocation),
     let r2 := apply_cache_effects t r' (fst (tracked_run w i)) in
     ((now <= later < now + 3600)%Z ->
      get_insight uuid later r2 db2 id = (r2, Ok row)) /\
     ((now + 3600 <= later)%Z -> query_insight db2 u = None ->
      get_insight uuid later r2 db2 id
      = (r2, HTTPException 404 "Insight not found"))).
Proof.
  unfold get_insight at 1 2. rewrite Hu. cbv zeta. rewrite Hmiss, Hrow.
  cbn [fst snd]. split; [reflexivity |]. split.
  - intros Hdown. unfold cache_set, client_setex.
    assert (E0 : (3600 =? 0)%Z = false) by reflexivity.
    rewrite E0, Hdown. reflexivity.
  - intros Hup later t db2 w i.
    set (r' := fst (cache_set now r ("insight:" ++ id) row (Some 3600%Z))).
    assert (G : cache_get later
                  (apply_cache_effects t r' (fst (tracked_run w i)))
                  ("insight:" ++ id)
                = if (later <? now + 3600)%Z then Some row else None).
    { rewrite cache_get_after_run by apply run_cache_keys.
      unfold r'. apply cache_get_after_set; [exact Hup | lia]. }
    split.
    + intros Hl. unfold get_insight. rewrite Hu. cbv zeta. rewrite G.
      assert (E : (later <? now + 3600)%Z = true) by (apply Z.ltb_lt; lia).
      now rewrite E.
    + intros Hl Hgone. unfold get_insight. rewrite Hu. cbv zeta.
      rewrite G.
      assert (E : (later <? now + 3600)%Z = false) by (apply Z.ltb_ge; lia).
      now rewrite E, Hgone.
Qed.

Lemma insight_served_from_cache_witness :
  snd (get_insight UUID_of 0 empty_cache db_with_insight
                   "00000000-0000-4000-8000-00000000c000") = Ok sample_insight.
Proof.
  exact (proj1 (insight_served_from_cache
                  UUID_of 0 empty_cache db_with_insight
                  "00000000-0000-4000-8000-00000000c000" "00000000-0000-4000-8000-00000000c000" sample_insight
                  eq_refl eq_refl eq_refl)).
Defined.

End ApiProps.
